(** * SingleLinkedList<Type>: a verified model of SingleLinkedList.h

    The container is a chain of heap nodes hanging off a sentinel node
    [head_] that lives inside the container object.  Position handles
    ([BasicIterator]) are raw node pointers, so the model keeps an explicit
    memory: a heap of nodes created by [new], and the live container
    objects.  Every member function is a computation over that memory which
    either returns, throws, or has undefined behaviour.

    Conventions.  The code is C++17 (it uses [[nodiscard]]), so in an
    assignment the right operand is evaluated before the left one.
    Pointers and [size_t] have 64 bits.  The algorithms of the standard
    library that the operators call ([std::swap], [std::equal],
    [std::lexicographical_compare]) are written out as the C++ standard
    specifies them.  Loops are run with a bound on their iterations that
    is computed from the memory; the proofs show that the bound is never
    reached on a well-formed memory. *)

From stdpp Require Import gmap list fin_maps.

Open Scope Z_scope.
Set Default Proof Using "Type".

Section SingleLinkedList.

(** The element type [Type] of the template, with its value-initialised
    object [Type{}], its [operator==] and its [operator<]. *)
Context {T : Type}.
Variable T_default : T.
Variable T_eq : T → T → bool.
Variable T_lt : T → T → bool.

(** [new_throws k v]: the [k]-th evaluation of [new Node(v, _)] since
    program start throws (std::bad_alloc from the allocation, or whatever
    the copy constructor of [Type] throws while copying [v]).  A copy that
    does not throw is the value copied. *)
Variable new_throws : nat → T → bool.

(** ** Data *)

(** A [Node*]: null, the address of the sentinel [head_] embedded in the
    container object at address [this], or the address of a node made by
    [new]. *)
Inductive NodePtr : Type :=
| nullptr
| sentinel_of (this : N)
| cell (a : N).

#[global] Instance NodePtr_eq_dec : EqDecision NodePtr.
Proof. solve_decision. Defined.

Record Node : Type := mkNode {
  value : T;
  next_node : NodePtr }.

Record SingleLinkedList : Type := mkList {
  head_ : Node;
  size_ : Z }.

Record BasicIterator : Type := Iterator { node_ : NodePtr }.

(** [heap]: the nodes created by [new] and not yet deleted, by address.
    [objs]: the live container objects, by address.  [clock] counts the
    evaluations of [new Node(...)]. *)
Record Memory : Type := mkMemory {
  heap : gmap N Node;
  objs : gmap N SingleLinkedList;
  clock : nat }.

(** [size_t] is a 64-bit unsigned integer; node addresses are non-null
    64-bit values. *)
Definition SIZE_WIDTH : Z := 64.
Definition size_t (z : Z) : Z := z mod 2 ^ SIZE_WIDTH.
Definition address_ok (a : N) : bool := (0 <? Z.of_N a) && (Z.of_N a <? 2 ^ SIZE_WIDTH).

(** ** Computations *)

(** What running a piece of code on a memory comes to: it returns a value
    and leaves a memory, it throws and leaves a memory, its behaviour is
    undefined (a null or dangling pointer is followed, a failed [assert]),
    or a loop has used up the bound on its iterations. *)
Inductive Outcome (A : Type) : Type :=
| Returns (a : A) (m : Memory)
| Throws (m : Memory)
| Undefined
| OutOfFuel.
Arguments Returns {A} a m.
Arguments Throws {A} m.
Arguments Undefined {A}.
Arguments OutOfFuel {A}.

Definition Exec (A : Type) : Type := Memory → Outcome A.

Definition ret {A} (a : A) : Exec A := λ m, Returns a m.

Definition bind {A B} (e : Exec A) (k : A → Exec B) : Exec B := λ m,
  match e m with
  | Returns a m' => k a m'
  | Throws m' => Throws m'
  | Undefined => Undefined
  | OutOfFuel => OutOfFuel
  end.

Notation "x <~ e ;; k" := (bind e (λ x, k))
  (at level 100, e at next level, k at level 200, right associativity).
Notation "e ;;; k" := (bind e (λ _, k))
  (at level 100, k at level 200, right associativity).

Definition undefined {A} : Exec A := λ _, Undefined.

(** [assert(b)] aborts the program when [b] is false. *)
Definition assert (b : bool) : Exec unit := if b then ret tt else undefined.

(** Scope exit: [cleanup] (a destructor, which never throws) runs whether
    [body] returns or throws. *)
Definition finally {A} (body : Exec A) (cleanup : Exec unit) : Exec A := λ m,
  match body m with
  | Returns a m1 => (cleanup ;;; ret a) m1
  | Throws m1 =>
      match cleanup m1 with
      | Returns _ m2 => Throws m2
      | Throws _ => Undefined
      | Undefined => Undefined
      | OutOfFuel => OutOfFuel
      end
  | Undefined => Undefined
  | OutOfFuel => OutOfFuel
  end.

(** ** Memory access *)

(** The node a pointer refers to, if it refers to one. *)
Definition node_at (m : Memory) (p : NodePtr) : option Node :=
  match p with
  | nullptr => None
  | sentinel_of this => head_ <$> objs m !! this
  | cell a => heap m !! a
  end.

(** [*p] for a node pointer. *)
Definition load (p : NodePtr) : Exec Node := λ m,
  match node_at m p with
  | Some n => Returns n m
  | None => Undefined
  end.

Definition put_node (m : Memory) (p : NodePtr) (n : Node) : Memory :=
  match p with
  | nullptr => m
  | sentinel_of this =>
      mkMemory (heap m) (alter (λ o, mkList n (size_ o)) this (objs m)) (clock m)
  | cell a => mkMemory (<[a := n]> (heap m)) (objs m) (clock m)
  end.

(** [p->next_node = q]. *)
Definition set_next_node (p q : NodePtr) : Exec unit := λ m,
  match node_at m p with
  | Some n => Returns tt (put_node m p (mkNode (value n) q))
  | None => Undefined
  end.

(** The object [*this]. *)
Definition object (this : N) : Exec SingleLinkedList := λ m,
  match objs m !! this with
  | Some o => Returns o m
  | None => Undefined
  end.

Definition set_size (this : N) (z : Z) : Exec unit := λ m,
  match objs m !! this with
  | Some o => Returns tt (mkMemory (heap m) (<[this := mkList (head_ o) z]> (objs m)) (clock m))
  | None => Undefined
  end.

(** [++size_] and [--size_] on a [size_t]. *)
Definition incr_size (this : N) : Exec unit :=
  o <~ object this ;; set_size this (size_t (size_ o + 1)).

Definition decr_size (this : N) : Exec unit :=
  o <~ object this ;; set_size this (size_t (size_ o - 1)).

(** [new Node(val, next)]: the outcome is an exception and no node, or a
    node at an address that is not null, is not in use and fits a
    pointer.  (The callers read [next] from the memory first; with a valid
    pointer the order of that read and of the allocation makes no
    difference.) *)
Definition new_address (m : Memory) : N := fresh ({[0%N]} ∪ dom (heap m)).

Definition new_Node (val : T) (next : NodePtr) : Exec NodePtr := λ m,
  let a := new_address m in
  if new_throws (clock m) val || negb (address_ok a)
  then Throws (mkMemory (heap m) (objs m) (S (clock m)))
  else Returns (cell a) (mkMemory (<[a := mkNode val next]> (heap m)) (objs m) (S (clock m))).

(** [delete p]: [p] must come from [new] (or be null). *)
Definition delete_Node (p : NodePtr) : Exec unit := λ m,
  match p with
  | nullptr => Returns tt m
  | sentinel_of _ => Undefined
  | cell a =>
      match heap m !! a with
      | Some _ => Returns tt (mkMemory (delete a (heap m)) (objs m) (clock m))
      | None => Undefined
      end
  end.

(** ** BasicIterator *)

(** [operator++()]: [assert(node_ != nullptr); node_ = node_->next_node]. *)
Definition operator_incr (it : BasicIterator) : Exec BasicIterator :=
  assert (bool_decide (node_ it ≠ nullptr)) ;;;
  n <~ load (node_ it) ;;
  ret (Iterator (next_node n)).

(** [operator*()]: [node_->value]. *)
Definition operator_deref (it : BasicIterator) : Exec T :=
  n <~ load (node_ it) ;;
  ret (value n).

(** [operator==] and [operator!=] of iterators compare the node pointers. *)
Definition iterator_eq (a b : BasicIterator) : bool := bool_decide (node_ a = node_ b).
Definition iterator_ne (a b : BasicIterator) : bool := bool_decide (node_ a ≠ node_ b).

(** ** Member functions *)

(** [begin()] is [Iterator(head_.next_node)], [end()] is
    [Iterator{nullptr}], [before_begin()] is [Iterator(&head_)]; the const
    versions and [cbegin()], [cend()], [cbefore_begin()] carry the same
    pointers. *)
Definition begin (this : N) : Exec BasicIterator :=
  o <~ object this ;; ret (Iterator (next_node (head_ o))).

Definition end_ : BasicIterator := Iterator nullptr.

Definition before_begin (this : N) : BasicIterator := Iterator (sentinel_of this).

(** [return size_;] and [return size_ == 0;] *)
Definition GetSize (this : N) : Exec Z :=
  o <~ object this ;; ret (size_ o).

Definition IsEmpty (this : N) : Exec bool :=
  o <~ object this ;; ret (size_ o =? 0).

(** [Node* insert_node = new Node(value, pos.node_->next_node);
     pos.node_->next_node = insert_node;
     ++size_;
     return Iterator(insert_node);] *)
Definition InsertAfter (this : N) (pos : BasicIterator) (val : T) : Exec BasicIterator :=
  n <~ load (node_ pos) ;;
  insert_node <~ new_Node val (next_node n) ;;
  set_next_node (node_ pos) insert_node ;;;
  incr_size this ;;;
  ret (Iterator insert_node).

(** [Node* temp = pos.node_->next_node;
     pos.node_->next_node = temp->next_node;
     delete temp;
     --size_;
     return Iterator(pos.node_->next_node);] *)
Definition EraseAfter (this : N) (pos : BasicIterator) : Exec BasicIterator :=
  n <~ load (node_ pos) ;;
  let temp := next_node n in
  t <~ load temp ;;
  set_next_node (node_ pos) (next_node t) ;;;
  delete_Node temp ;;;
  decr_size this ;;;
  n' <~ load (node_ pos) ;;
  ret (Iterator (next_node n')).

(** [head_.next_node = new Node(value, head_.next_node); ++size_;] *)
Definition PushFront (this : N) (val : T) : Exec unit :=
  o <~ object this ;;
  p <~ new_Node val (next_node (head_ o)) ;;
  set_next_node (sentinel_of this) p ;;;
  incr_size this.

(** [EraseAfter(before_begin());] *)
Definition PopFront (this : N) : Exec unit :=
  EraseAfter this (before_begin this) ;;; ret tt.

(** [while (head_.next_node != nullptr) PopFront();].  Every iteration
    that returns deletes one heap node, so the number of heap nodes bounds
    the number of iterations. *)
Fixpoint Clear_loop (fuel : nat) (this : N) : Exec unit :=
  o <~ object this ;;
  if bool_decide (next_node (head_ o) ≠ nullptr) then
    match fuel with
    | O => λ _, OutOfFuel
    | S fuel' => PopFront this ;;; Clear_loop fuel' this
    end
  else ret tt.

Definition Clear (this : N) : Exec unit := λ m,
  Clear_loop (size (heap m)) this m.

(** [std::swap(head_.next_node, other.head_.next_node);
     std::swap(size_, other.size_);] *)
Definition swap (this other : N) : Exec unit :=
  a <~ object this ;;
  b <~ object other ;;
  set_next_node (sentinel_of this) (next_node (head_ b)) ;;;
  set_next_node (sentinel_of other) (next_node (head_ a)) ;;;
  set_size this (size_ b) ;;;
  set_size other (size_ a).

(** ** Ranges: what [CopyList] iterates over

    [CopyList] is a template over the list type [TList]; its range-based
    [for] needs [begin()], [end()], and an iterator with [!=], [*] and
    [++].  [range_bound] is an upper bound of the number of iterations,
    used as fuel only. *)
Class TList (L : Type) : Type := {
  range_iterator : Type;
  range_begin : L → Exec range_iterator;
  range_at_end : range_iterator → bool;
  range_deref : range_iterator → Exec T;
  range_incr : range_iterator → Exec range_iterator;
  range_bound : L → Memory → nat }.

(** [std::initializer_list<Type>]: the iterator is a pointer into a
    constant array, here the elements that remain. *)
#[global] Instance initializer_list_TList : TList (list T) := {
  range_iterator := list T;
  range_begin values := ret values;
  range_at_end it := match it with [] => true | _ :: _ => false end;
  range_deref it := match it with v :: _ => ret v | [] => undefined end;
  range_incr it := match it with _ :: it' => ret it' | [] => undefined end;
  range_bound values _ := length values }.

(** [const SingleLinkedList&]: a reference to the container object at an
    address, iterated with its [ConstIterator]. *)
Record ListRef : Type := Ref { address : N }.

#[global] Instance SingleLinkedList_TList : TList ListRef := {
  range_iterator := BasicIterator;
  range_begin other := begin (address other);
  range_at_end it := iterator_eq it end_;
  range_deref := operator_deref;
  range_incr := operator_incr;
  range_bound _ m := size (heap m) }.

(** ** Construction, destruction, copying *)

(** The default member initialisers: [Node head_ = {}; size_t size_ = 0;]. *)
Definition empty_object : SingleLinkedList :=
  mkList (mkNode T_default nullptr) 0.

Definition release (this : N) : Exec unit := λ m,
  Returns tt (mkMemory (heap m) (delete this (objs m)) (clock m)).

(** Storage for a new object, its members initialised, then the body of
    the constructor.  When the body throws, the object never starts to
    exist: its storage is given back and its destructor does not run. *)
Definition construct (body : N → Exec unit) : Exec N := λ m,
  let this := fresh (dom (objs m)) in
  match body this (mkMemory (heap m) (<[this := empty_object]> (objs m)) (clock m)) with
  | Returns _ m' => Returns this m'
  | Throws m' => (release this ;;; λ m'', Throws m'') m'
  | Undefined => Undefined
  | OutOfFuel => OutOfFuel
  end.

(** [~SingleLinkedList() { Clear(); }], then the storage is given back. *)
Definition destroy (this : N) : Exec unit :=
  Clear this ;;; release this.

(** [SingleLinkedList() = default;] *)
Definition default_constructor (this : N) : Exec unit := ret tt.

(** The loop of [CopyList].  In [++node_it = InsertAfter(node_it, val)]
    the right operand is evaluated first (C++17), then [++node_it], then
    the assignment. *)
Fixpoint CopyList_loop `{TList L} (fuel : nat) (this tmp : N)
    (node_it : BasicIterator) (it : range_iterator) : Exec unit :=
  if range_at_end it then ret tt else
  match fuel with
  | O => λ _, OutOfFuel
  | S fuel' =>
      val <~ range_deref it ;;
      inserted <~ InsertAfter this node_it val ;;
      _ <~ operator_incr node_it ;;
      let node_it := inserted in
      incr_size tmp ;;;
      it' <~ range_incr it ;;
      CopyList_loop fuel' this tmp node_it it'
  end.

(** [SingleLinkedList tmp;
     Iterator node_it = tmp.before_begin();
     for (const auto& val : other) { ... }
     swap(tmp);]
    and [tmp] is destroyed when the function is left, by return or by
    exception. *)
Definition CopyList `{TList L} (this : N) (other : L) : Exec unit :=
  tmp <~ construct default_constructor ;;
  finally
    (let node_it := before_begin tmp in
     it <~ range_begin other ;;
     fuel <~ (λ m, Returns (range_bound other m) m) ;;
     CopyList_loop fuel this tmp node_it it ;;;
     swap this tmp)
    (destroy tmp).

(** [SingleLinkedList(std::initializer_list<Type> values) { CopyList(values); }] *)
Definition initializer_list_constructor (values : list T) (this : N) : Exec unit :=
  CopyList this values.

(** [SingleLinkedList(const SingleLinkedList& other) {
       assert(size_ == 0 && head_.next_node == nullptr);
       CopyList(other); }] *)
Definition copy_constructor (other : N) (this : N) : Exec unit :=
  o <~ object this ;;
  assert ((size_ o =? 0) && bool_decide (next_node (head_ o) = nullptr)) ;;;
  CopyList this (Ref other).

(** [operator=]: [if (this == &rhs) return *this;
     SingleLinkedList tmp(rhs); swap(tmp); return *this;] *)
Definition operator_assign (this rhs : N) : Exec unit :=
  if bool_decide (this = rhs) then ret tt
  else
    tmp <~ construct (copy_constructor rhs) ;;
    finally (swap this tmp) (destroy tmp).

(** ** Comparison *)

(** [std::equal(first1, last1, first2)], the three-iterator overload:
    [for (; first1 != last1; ++first1, ++first2)
       if (!( *first1 == *first2 )) return false;
     return true;] *)
Fixpoint std_equal (fuel : nat) (first1 last1 first2 : BasicIterator) : Exec bool :=
  if iterator_ne first1 last1 then
    match fuel with
    | O => λ _, OutOfFuel
    | S fuel' =>
        x <~ operator_deref first1 ;;
        y <~ operator_deref first2 ;;
        if negb (T_eq x y) then ret false
        else
          first1' <~ operator_incr first1 ;;
          first2' <~ operator_incr first2 ;;
          std_equal fuel' first1' last1 first2'
    end
  else ret true.

(** [std::lexicographical_compare(first1, last1, first2, last2)]:
    [for (; first1 != last1 && first2 != last2; ++first1, ++first2) {
       if ( *first1 < *first2 ) return true;
       if ( *first2 < *first1 ) return false; }
     return first1 == last1 && first2 != last2;] *)
Fixpoint std_lexicographical_compare (fuel : nat)
    (first1 last1 first2 last2 : BasicIterator) : Exec bool :=
  if iterator_ne first1 last1 && iterator_ne first2 last2 then
    match fuel with
    | O => λ _, OutOfFuel
    | S fuel' =>
        x <~ operator_deref first1 ;;
        y <~ operator_deref first2 ;;
        if T_lt x y then ret true
        else if T_lt y x then ret false
        else
          first1' <~ operator_incr first1 ;;
          first2' <~ operator_incr first2 ;;
          std_lexicographical_compare fuel' first1' last1 first2' last2
    end
  else ret (iterator_eq first1 last1 && iterator_ne first2 last2).

(** [return std::equal(lhs.begin(), lhs.end(), rhs.begin());] *)
Definition operator_eq (lhs rhs : N) : Exec bool :=
  b1 <~ begin lhs ;;
  b2 <~ begin rhs ;;
  fuel <~ (λ m, Returns (size (heap m)) m) ;;
  std_equal fuel b1 end_ b2.

(** [return !(lhs == rhs);] *)
Definition operator_ne (lhs rhs : N) : Exec bool :=
  r <~ operator_eq lhs rhs ;; ret (negb r).

(** [return std::lexicographical_compare(lhs.begin(), lhs.end(),
                                            rhs.begin(), rhs.end());] *)
Definition operator_lt (lhs rhs : N) : Exec bool :=
  b1 <~ begin lhs ;;
  b2 <~ begin rhs ;;
  fuel <~ (λ m, Returns (size (heap m)) m) ;;
  std_lexicographical_compare fuel b1 end_ b2 end_.

(** [<=] is [!(rhs < lhs)], [>] is [rhs < lhs], [>=] is [!(lhs < rhs)]. *)
Definition operator_le (lhs rhs : N) : Exec bool :=
  r <~ operator_lt rhs lhs ;; ret (negb r).

Definition operator_gt (lhs rhs : N) : Exec bool :=
  operator_lt rhs lhs.

Definition operator_ge (lhs rhs : N) : Exec bool :=
  r <~ operator_lt lhs rhs ;; ret (negb r).

(** Client-side traversal: [for (auto it = l.begin(); it != l.end(); ++it)
    out.push_back( *it );]. *)
Fixpoint traverse_loop (fuel : nat) (it : BasicIterator) : Exec (list T) :=
  if iterator_ne it end_ then
    match fuel with
    | O => λ _, OutOfFuel
    | S fuel' =>
        x <~ operator_deref it ;;
        it' <~ operator_incr it ;;
        rest <~ traverse_loop fuel' it' ;;
        ret (x :: rest)
    end
  else ret [].

Definition traverse (this : N) : Exec (list T) :=
  it <~ begin this ;;
  fuel <~ (λ m, Returns (size (heap m)) m) ;;
  traverse_loop fuel it.

(** ** The abstract view of a memory *)

(** [segment h p l q]: starting at pointer [p] and following [next_node]
    links through the heap [h] one visits exactly the nodes [l] (address
    and value of each, in order) and arrives at [q]. *)
Fixpoint segment (h : gmap N Node) (p : NodePtr) (l : list (N * T)) (q : NodePtr) : Prop :=
  match l with
  | [] => p = q
  | (a, v) :: l' => p = cell a ∧ ∃ r, h !! a = Some (mkNode v r) ∧ segment h r l' q
  end.

(** A chain is a segment whose last link is empty. *)
Definition chain (h : gmap N Node) (p : NodePtr) (l : list (N * T)) : Prop :=
  segment h p l nullptr.

(** The real nodes of the container at [this], from the sentinel on. *)
Definition chain_of (m : Memory) (this : N) (l : list (N * T)) : Prop :=
  ∃ o, objs m !! this = Some o ∧ chain (heap m) (next_node (head_ o)) l.

(** The pointer that starts a chain. *)
Definition first_ptr (l : list (N * T)) : NodePtr :=
  match l with
  | [] => nullptr
  | (a, _) :: _ => cell a
  end.

(** The pointer of the position handle with [k] real nodes before its
    successor: the sentinel for [k = 0], else the [k]-th real node. *)
Definition position_ptr (this : N) (l : list (N * T)) (k : nat) : option NodePtr :=
  match k with
  | O => Some (sentinel_of this)
  | S j => (λ x, cell x.1) <$> l !! j
  end.

Definition position (this : N) (l : list (N * T)) (k : nat) (pos : BasicIterator) : Prop :=
  position_ptr this l k = Some (node_ pos).

(** The stored count of the container at [this], if it is alive. *)
Definition size_of (m : Memory) (this : N) : option Z :=
  size_ <$> objs m !! this.

(** [models m M]: the finite map [M] lists, for every live container, the
    nodes of its chain.  Heap addresses are proper pointers, every
    container has a chain that ends in an empty link, and different
    containers have no node in common. *)
Definition models (m : Memory) (M : gmap N (list (N * T))) : Prop :=
  (∀ a n, heap m !! a = Some n → address_ok a = true) ∧
  (∀ this, is_Some (objs m !! this) → is_Some (M !! this)) ∧
  (∀ this l, M !! this = Some l → chain_of m this l) ∧
  (∀ c1 c2 l1 l2, c1 ≠ c2 → M !! c1 = Some l1 → M !! c2 = Some l2 → l1.*1 ## l2.*1).

(** Every stored count is the number of real nodes. *)
Definition counted (m : Memory) (M : gmap N (list (N * T))) : Prop :=
  ∀ this l, M !! this = Some l → size_of m this = Some (Z.of_nat (length l)).

(** The invariant of the memory of a program. *)
Definition Inv (m : Memory) : Prop := ∃ M, models m M ∧ counted m M.

(** The container at [d] is the same in [m'] as in [m]: same count, same
    nodes, same values, same order. *)
Definition same_list (m m' : Memory) (d : N) : Prop :=
  size_of m' d = size_of m d ∧ ∀ l, chain_of m d l → chain_of m' d l.

(** ** Programs: sequences of calls of the public operations *)

Inductive Call : Type :=
| call_default
| call_initializer_list (values : list T)
| call_copy (other : N)
| call_destroy (this : N)
| call_PushFront (this : N) (val : T)
| call_PopFront (this : N)
| call_InsertAfter (this : N) (pos : BasicIterator) (val : T)
| call_EraseAfter (this : N) (pos : BasicIterator)
| call_Clear (this : N)
| call_swap (this other : N)
| call_assign (this rhs : N).

Definition run (c : Call) : Exec unit :=
  match c with
  | call_default => construct default_constructor ;;; ret tt
  | call_initializer_list values => construct (initializer_list_constructor values) ;;; ret tt
  | call_copy other => construct (copy_constructor other) ;;; ret tt
  | call_destroy this => destroy this
  | call_PushFront this val => PushFront this val
  | call_PopFront this => PopFront this
  | call_InsertAfter this pos val => InsertAfter this pos val ;;; ret tt
  | call_EraseAfter this pos => EraseAfter this pos ;;; ret tt
  | call_Clear this => Clear this
  | call_swap this other => swap this other
  | call_assign this rhs => operator_assign this rhs
  end.

(** The caller's side of the contract: the objects exist, [PopFront] is
    called on a non-empty container, and a position handle references a
    node of the container it is passed to (with a successor, for
    [EraseAfter]). *)
Definition callable (m : Memory) (c : Call) : Prop :=
  match c with
  | call_default | call_initializer_list _ => True
  | call_copy other => is_Some (objs m !! other)
  | call_destroy this | call_PushFront this _ | call_Clear this => is_Some (objs m !! this)
  | call_PopFront this => ∃ l, chain_of m this l ∧ (0 < length l)%nat
  | call_InsertAfter this pos _ => ∃ l k, chain_of m this l ∧ position this l k pos
  | call_EraseAfter this pos =>
      ∃ l k, chain_of m this l ∧ position this l k pos ∧ (k < length l)%nat
  | call_swap this other | call_assign this other =>
      is_Some (objs m !! this) ∧ is_Some (objs m !! other)
  end.

(** The containers a call may change. *)
Definition touched (c : Call) : list N :=
  match c with
  | call_default | call_initializer_list _ | call_copy _ => []
  | call_destroy this | call_PushFront this _ | call_PopFront this
  | call_InsertAfter this _ _ | call_EraseAfter this _ | call_Clear this
  | call_assign this _ => [this]
  | call_swap this other => [this; other]
  end.

(** [execution m tr m']: a program makes the calls of the trace [tr] in
    turn, each within the contract, and so takes the memory [m] to [m'].
    The trace records of every call whether it returned ([true]) or threw
    ([false]). *)
Inductive execution : Memory → list (Call * bool) → Memory → Prop :=
| execution_done m : execution m [] m
| execution_returns m c m1 tr m' :
    callable m c → run c m = Returns tt m1 → execution m1 tr m' →
    execution m ((c, true) :: tr) m'
| execution_throws m c m1 tr m' :
    callable m c → run c m = Throws m1 → execution m1 tr m' →
    execution m ((c, false) :: tr) m'.

(** The memories a program can reach from the empty one. *)
Definition reachable (m : Memory) : Prop :=
  ∃ tr, execution (mkMemory ∅ ∅ 0) tr m.

(** What a call that returned did to the number of elements of [this]. *)
Definition net_change (this : N) (c : Call) : Z :=
  match c with
  | call_PushFront t _ | call_InsertAfter t _ _ => if decide (t = this) then 1 else 0
  | call_PopFront t | call_EraseAfter t _ => if decide (t = this) then -1 else 0
  | _ => 0
  end.

(** The insertions into [this] that returned minus the removals from it;
    an insertion that threw counts for nothing. *)
Fixpoint net_count (this : N) (tr : list (Call * bool)) : Z :=
  match tr with
  | [] => 0
  | (c, returned) :: tr' =>
      (if returned then net_change this c else 0) + net_count this tr'
  end.

Definition element_call (c : Call) : bool :=
  match c with
  | call_PushFront _ _ | call_InsertAfter _ _ _ | call_PopFront _ | call_EraseAfter _ _ => true
  | _ => false
  end.

(** ** What a range denotes

    The laws [CopyList] needs of the range it copies: the range has a
    sequence of values [vs], read from the heap addresses [fp]; iterating
    yields the values in order and is not disturbed by changes of the
    memory outside [fp]. *)
Class TListOk (L : Type) `{TList L} : Type := {
  range_denotes : L → Memory → list N → list T → Prop;
  iter_denotes : range_iterator → Memory → list N → list T → Prop;
  ok_begin other m fp vs :
    range_denotes other m fp vs →
    ∃ it, range_begin other m = Returns it m ∧ iter_denotes it m fp vs;
  ok_bound other m fp vs :
    range_denotes other m fp vs → (length vs ≤ range_bound other m)%nat;
  ok_stable other m m' fp vs :
    range_denotes other m fp vs → heap m' = heap m →
    (∀ d o, objs m !! d = Some o → objs m' !! d = Some o) →
    range_denotes other m' fp vs;
  ok_at_end it m fp vs :
    iter_denotes it m fp vs → range_at_end it = true ↔ vs = [];
  ok_deref it m fp v vs :
    iter_denotes it m fp (v :: vs) → range_deref it m = Returns v m;
  ok_incr it m fp v vs :
    iter_denotes it m fp (v :: vs) →
    ∃ it', range_incr it m = Returns it' m ∧ iter_denotes it' m fp vs;
  ok_frame it m m' fp vs :
    iter_denotes it m fp vs → (∀ a, a ∈ fp → heap m' !! a = heap m !! a) →
    iter_denotes it m' fp vs;
  ok_in_heap it m fp vs a :
    iter_denotes it m fp vs → a ∈ fp → is_Some (heap m !! a) }.

Definition initializer_list_denotes (values : list T) (m : Memory)
    (fp : list N) (vs : list T) : Prop :=
  fp = [] ∧ vs = values.

Definition ListRef_denotes (other : ListRef) (m : Memory)
    (fp : list N) (vs : list T) : Prop :=
  ∃ l, chain_of m (address other) l ∧ fp = l.*1 ∧ vs = l.*2.

Definition ConstIterator_denotes (it : BasicIterator) (m : Memory)
    (fp : list N) (vs : list T) : Prop :=
  ∃ l, chain (heap m) (node_ it) l ∧ l.*1 ⊆ fp ∧ vs = l.*2 ∧
       ∀ a, a ∈ fp → is_Some (heap m !! a).

(** ** Sequences of values: what the comparisons are compared with *)

(** Equality of sequences in the words of the specification: the same
    length and pairwise equal elements. *)
Fixpoint same_elements (xs ys : list T) : bool :=
  match xs, ys with
  | [], [] => true
  | x :: xs', y :: ys' => T_eq x y && same_elements xs' ys'
  | _, _ => false
  end.

(** The standard lexicographic order of sequences, from the elementwise
    [<]: the first position where one element is less than the other
    decides; a proper prefix is less. *)
Fixpoint lexicographical_lt (xs ys : list T) : bool :=
  match xs, ys with
  | _, [] => false
  | [], _ :: _ => true
  | x :: xs', y :: ys' =>
      if T_lt x y then true
      else if T_lt y x then false
      else lexicographical_lt xs' ys'
  end.

(** What the three-iterator [std::equal] makes of two sequences: it
    walks the first one and reads the second one alongside, also past its
    end ([None]: undefined). *)
Fixpoint equal_along (xs ys : list T) : option bool :=
  match xs, ys with
  | [], _ => Some true
  | _ :: _, [] => None
  | x :: xs', y :: ys' => if T_eq x y then equal_along xs' ys' else Some false
  end.


(** The nodes of a chain, computed: follow the links from [p] for at most
    [fuel] nodes. *)
Fixpoint chain_from (fuel : nat) (h : gmap N Node) (p : NodePtr) : option (list (N * T)) :=
  match p with
  | nullptr => Some []
  | sentinel_of _ => None
  | cell a =>
      match fuel with
      | O => None
      | S fuel' =>
          match h !! a with
          | Some n => (λ l, (a, value n) :: l) <$> chain_from fuel' h (next_node n)
          | None => None
          end
      end
  end.

(** The nodes of the container at [this], computed. *)
Definition nodes_of (m : Memory) (this : N) : option (list (N * T)) :=
  match objs m !! this with
  | Some o => chain_from (size (heap m)) (heap m) (next_node (head_ o))
  | None => None
  end.

(** ** The rest of the interface, and clients of it *)

(** The free function [swap(lhs, rhs)]: [lhs.swap(rhs);]. *)
Definition swap_free (lhs rhs : N) : Exec unit := swap lhs rhs.

(** [operator++(int)]:
    [assert(node_ != nullptr); auto old_value( *this ); ++( *this );
     return old_value;]
    The computation yields the value returned and the iterator as it is
    afterwards. *)
Definition operator_post_incr (it : BasicIterator) : Exec (BasicIterator * BasicIterator) :=
  assert (bool_decide (node_ it ≠ nullptr)) ;;;
  let old_value := it in
  it' <~ operator_incr it ;;
  ret (old_value, it').

(** A client that applies [++] to an iterator [k] times. *)
Fixpoint advance (it : BasicIterator) (k : nat) : Exec BasicIterator :=
  match k with
  | O => ret it
  | S k' => it' <~ operator_incr it ;; advance it' k'
  end.

(** A client that inserts each value after the handle returned for the
    one before: [for (v : vs) pos = l.InsertAfter(pos, v);]. *)
Fixpoint InsertAfter_each (this : N) (pos : BasicIterator) (vs : list T) : Exec BasicIterator :=
  match vs with
  | [] => ret pos
  | v :: vs' => pos' <~ InsertAfter this pos v ;; InsertAfter_each this pos' vs'
  end.

(** Every node of the heap is a node of one of the chains of [M]. *)
Definition tidy (m : Memory) (M : gmap N (list (N * T))) : Prop :=
  ∀ b, is_Some (heap m !! b) → ∃ c l, M !! c = Some l ∧ b ∈ l.*1.

(** No node is lost: every node of the heap is in the chain of a live
    container. *)
Definition no_leak (m : Memory) : Prop :=
  ∀ b, is_Some (heap m !! b) → ∃ this l, chain_of m this l ∧ b ∈ l.*1.

(** The calls that make nodes; the functions behind the other calls are
    declared [noexcept] (the destructor implicitly). *)
Definition allocates (c : Call) : bool :=
  match c with
  | call_initializer_list _ | call_copy _ | call_PushFront _ _
  | call_InsertAfter _ _ _ | call_assign _ _ => true
  | _ => false
  end.

(** Every sentinel holds the value it was initialised with. *)
Definition heads_default (m : Memory) : Prop :=
  ∀ this o, objs m !! this = Some o → value (head_ o) = T_default.

(** A computation keeps a property of the memory when the memory it
    leaves, by return or by exception, has the property if the memory it
    started in had it. *)
Definition keeps (P : Memory → Prop) {A} (e : Exec A) : Prop :=
  ∀ m, P m →
    match e m with
    | Returns _ m' | Throws m' => P m'
    | Undefined | OutOfFuel => True
    end.

(** * Proofs *)

(** ** Segments and chains *)

Lemma segment_app h p l1 l2 q :
  segment h p (l1 ++ l2) q ↔ ∃ r, segment h p l1 r ∧ segment h r l2 q.
Proof.
  revert p. induction l1 as [|[a v] l1 IH]; intros p; simpl.
  - split; [eauto | intros (r & -> & ?); done].
  - split.
    + intros (-> & r & Ha & Hs). apply IH in Hs as (r' & ? & ?). eauto 10.
    + intros (r' & (-> & r & Ha & Hs) & ?). split; [done|].
      exists r. split; [done|]. apply IH. eauto.
Qed.

(** A segment only depends on the heap cells it goes through. *)
Lemma segment_frame h h' p l q :
  (∀ a, a ∈ l.*1 → h' !! a = h !! a) → segment h p l q → segment h' p l q.
Proof.
  revert p. induction l as [|[a v] l IH]; intros p Hagree; simpl; [done|].
  intros (-> & r & Ha & Hs). split; [done|]. exists r. split.
  - rewrite Hagree; [done | simpl; left].
  - apply IH; [|done]. intros b Hb. apply Hagree. simpl. by right.
Qed.

Lemma segment_dom h p l q a :
  segment h p l q → a ∈ l.*1 → is_Some (h !! a).
Proof.
  revert p. induction l as [|[b v] l IH]; intros p; simpl.
  - intros _ H. by apply elem_of_nil in H.
  - intros (-> & r & Hb & Hs) [->|H]%elem_of_cons; eauto.
Qed.

Lemma chain_functional h p l1 l2 :
  chain h p l1 → chain h p l2 → l1 = l2.
Proof.
  unfold chain. revert p l2.
  induction l1 as [|[a v] l1 IH]; intros p [|[b w] l2]; simpl.
  - done.
  - intros -> (? & _); done.
  - intros (-> & _) ?; done.
  - intros (-> & r & Ha & Hs) (Heq & r' & Hb & Hs').
    injection Heq as <-. rewrite Ha in Hb. injection Hb as <- <-.
    f_equal. eauto.
Qed.

(** A chain never visits a node twice: it is acyclic. *)
Lemma chain_NoDup h p l : chain h p l → NoDup l.*1.
Proof.
  revert p. induction l as [|[a v] l IH]; intros p; simpl.
  - constructor.
  - intros (-> & r & Ha & Hs). constructor; [|by eapply IH].
    intros Hin. apply list_elem_of_fmap in Hin as ([a' w] & Heq & Hin).
    simpl in Heq. subst a'.
    apply list_elem_of_split in Hin as (l1 & l2 & ->).
    pose proof Hs as (r' & _ & Hs2)%segment_app.
    assert (Hc : chain h r' ((a, v) :: l1 ++ (a, w) :: l2)).
    { destruct Hs2 as (-> & _). split; [done|]. eauto. }
    pose proof (chain_functional _ _ _ _ Hc Hs2) as Heq.
    apply (f_equal length) in Heq. simpl in Heq. rewrite length_app in Heq.
    simpl in Heq. lia.
Qed.

Lemma chain_of_functional m this l1 l2 :
  chain_of m this l1 → chain_of m this l2 → l1 = l2.
Proof.
  intros (o & Ho & H1) (o' & Ho' & H2). rewrite Ho in Ho'. injection Ho' as <-.
  by eapply chain_functional.
Qed.

Lemma chain_of_lookup m this o l :
  objs m !! this = Some o → chain_of m this l → chain (heap m) (next_node (head_ o)) l.
Proof. intros Ho (o' & Ho' & H). rewrite Ho in Ho'. by injection Ho' as <-. Qed.

(** ** The count cannot wrap around

    Distinct non-null addresses of 64 bits: there are fewer than 2^64. *)

Lemma NoDup_bounded_length (n : nat) (k : list nat) :
  NoDup k → (∀ x, x ∈ k → (1 ≤ x ≤ n)%nat) → (length k ≤ n)%nat.
Proof.
  intros Hnd Hall.
  transitivity (length (seq 1 n)); [|by rewrite length_seq].
  apply submseteq_length, NoDup_submseteq; [done|].
  intros x Hx. apply elem_of_seq. specialize (Hall x Hx). lia.
Qed.

Lemma address_ok_spec a :
  address_ok a = true ↔ 0 < Z.of_N a < 2 ^ SIZE_WIDTH.
Proof.
  unfold address_ok. rewrite andb_true_iff, !Z.ltb_lt. done.
Qed.

Lemma addresses_length (k : list N) :
  NoDup k → (∀ a, a ∈ k → address_ok a = true) →
  Z.of_nat (length k) < 2 ^ SIZE_WIDTH.
Proof.
  intros Hnd Hall.
  assert (Hlen : (length (N.to_nat <$> k) ≤ Z.to_nat (2 ^ SIZE_WIDTH - 1))%nat).
  { apply NoDup_bounded_length.
    - apply NoDup_fmap_2; [intros x y; apply N2Nat.inj | done].
    - intros x (a & -> & Ha)%list_elem_of_fmap.
      apply Hall, address_ok_spec in Ha. lia. }
  rewrite length_fmap in Hlen.
  assert (0 < 2 ^ SIZE_WIDTH) by (apply Z.pow_pos_nonneg; unfold SIZE_WIDTH; lia).
  lia.
Qed.

Lemma chain_length_bound m p l :
  (∀ a n, heap m !! a = Some n → address_ok a = true) →
  chain (heap m) p l → Z.of_nat (length l) < 2 ^ SIZE_WIDTH.
Proof.
  intros Hok Hc. rewrite <- (length_fmap fst).
  apply addresses_length; [by eapply chain_NoDup|].
  intros a Ha. destruct (segment_dom _ _ _ _ _ Hc Ha) as [n Hn]. eauto.
Qed.

Lemma size_t_small z : 0 ≤ z < 2 ^ SIZE_WIDTH → size_t z = z.
Proof. intros. unfold size_t. by apply Z.mod_small. Qed.

(** ** Positions *)

Lemma position_split this l k pos :
  position this l k pos → (k ≤ length l)%nat.
Proof.
  unfold position. destruct k as [|j]; simpl; [lia|].
  destruct (l !! j) eqn:E; [|done]. apply lookup_lt_Some in E. lia.
Qed.

(** The node a position refers to, and what follows it. *)
Lemma position_node m this l k pos :
  chain_of m this l → position this l k pos →
  ∃ n, node_at m (node_ pos) = Some n ∧
       chain (heap m) (next_node n) (drop k l) ∧
       match k with
       | O => True
       | S j => ∃ a, l !! j = Some (a, value n) ∧ node_ pos = cell a
       end.
Proof.
  intros (o & Ho & Hc) Hpos. unfold position in Hpos.
  destruct k as [|j]; simpl in Hpos.
  - injection Hpos as <-. exists (head_ o). simpl. rewrite Ho. by rewrite drop_0.
  - destruct (l !! j) as [[a v]|] eqn:E; [|done]. simpl in Hpos. injection Hpos as <-.
    rewrite <- (take_drop_middle l j (a, v) E) in Hc.
    apply segment_app in Hc as (r & _ & (-> & q & Ha & Hq)).
    exists (mkNode v q). simpl. repeat split; [done|done|by eauto].
Qed.

(** ** How the primitive memory updates act on the abstract view *)

Lemma models_chain m M this l : models m M → M !! this = Some l → chain_of m this l.
Proof. intros (_ & _ & H & _). apply H. Qed.

Lemma models_lookup m M this l :
  models m M → chain_of m this l → M !! this = Some l.
Proof.
  intros HM Hc. pose proof HM as (_ & Hobj & Hch & _).
  destruct Hc as (o & Ho & Hc).
  destruct (Hobj this) as [l' Hl']; [by eauto|].
  rewrite Hl'. f_equal. eapply chain_of_functional; [by eapply Hch|].
  exists o. done.
Qed.

Lemma models_NoDup m M this l : models m M → M !! this = Some l → NoDup l.*1.
Proof.
  intros HM Hl. destruct (models_chain _ _ _ _ HM Hl) as (o & _ & Hc).
  by eapply chain_NoDup.
Qed.

Lemma models_in_heap m M this l a :
  models m M → M !! this = Some l → a ∈ l.*1 → is_Some (heap m !! a).
Proof.
  intros HM Hl Ha. destruct (models_chain _ _ _ _ HM Hl) as (o & _ & Hc).
  by eapply segment_dom.
Qed.

Lemma models_length m M this l :
  models m M → M !! this = Some l → Z.of_nat (length l) < 2 ^ SIZE_WIDTH.
Proof.
  intros HM Hl. destruct (models_chain _ _ _ _ HM Hl) as (o & _ & Hc).
  eapply chain_length_bound; [|done]. apply HM.
Qed.

(** The heap may change anywhere outside the chains. *)
Lemma models_heap_frame m M h' k :
  models m M →
  (∀ c l a, M !! c = Some l → a ∈ l.*1 → h' !! a = heap m !! a) →
  (∀ a n, h' !! a = Some n → address_ok a = true) →
  models (mkMemory h' (objs m) k) M.
Proof.
  intros (Hok & Hobj & Hch & Hdis) Hagree Hok'. repeat split; simpl; try done.
  intros c l Hl. destruct (Hch c l Hl) as (o & Ho & Hc). exists o. split; [done|].
  simpl. eapply segment_frame; [|done]. intros a Ha. by eapply Hagree.
Qed.

(** The stored count is no part of the structure. *)
Lemma models_set_size m M this o z :
  models m M → objs m !! this = Some o →
  models (mkMemory (heap m) (<[this := mkList (head_ o) z]> (objs m)) (clock m)) M.
Proof.
  intros (Hok & Hobj & Hch & Hdis) Ho. repeat split; simpl; try done.
  - intros c Hc. apply Hobj. destruct (decide (this = c)) as [<-|Hne].
    + by eauto.
    + by rewrite lookup_insert_ne in Hc.
  - intros c l Hl. destruct (Hch c l Hl) as (o' & Ho' & Hc).
    destruct (decide (this = c)) as [<-|Hne].
    + rewrite Ho in Ho'. injection Ho' as <-.
      eexists. simpl. rewrite lookup_insert_eq. split; [done|]. done.
    + exists o'. simpl. by rewrite lookup_insert_ne.
Qed.

(** A new object with an empty chain. *)
Lemma models_new_object m M this n z :
  models m M → objs m !! this = None → next_node n = nullptr →
  models (mkMemory (heap m) (<[this := mkList n z]> (objs m)) (clock m)) (<[this := []]> M).
Proof.
  intros (Hok & Hobj & Hch & Hdis) Hnone Hn. repeat split; simpl; try done.
  - intros c Hc. destruct (decide (this = c)) as [<-|Hne].
    + rewrite lookup_insert_eq. by eauto.
    + rewrite lookup_insert_ne in Hc by done. rewrite lookup_insert_ne by done. by apply Hobj.
  - intros c l Hl. destruct (decide (this = c)) as [<-|Hne].
    + rewrite lookup_insert_eq in Hl. injection Hl as <-.
      eexists. simpl. rewrite lookup_insert_eq. split; [done|]. done.
    + rewrite lookup_insert_ne in Hl by done.
      destruct (Hch c l Hl) as (o' & Ho' & Hc).
      exists o'. simpl. by rewrite lookup_insert_ne.
  - intros c1 c2 l1 l2 Hne H1 H2.
    destruct (decide (this = c1)) as [<-|Hne1].
    { rewrite lookup_insert_eq in H1. injection H1 as <-. simpl. set_solver. }
    destruct (decide (this = c2)) as [<-|Hne2].
    { rewrite lookup_insert_eq in H2. injection H2 as <-. simpl. set_solver. }
    rewrite lookup_insert_ne in H1 by done. rewrite lookup_insert_ne in H2 by done.
    exact (Hdis c1 c2 l1 l2 Hne H1 H2).
Qed.

(** An object whose storage is given back. *)
Lemma models_release m M this :
  models m M →
  models (mkMemory (heap m) (delete this (objs m)) (clock m)) (delete this M).
Proof.
  intros (Hok & Hobj & Hch & Hdis). repeat split; simpl; try done.
  - intros c Hc. destruct (decide (this = c)) as [<-|Hne].
    + rewrite lookup_delete_eq in Hc. by destruct Hc.
    + rewrite lookup_delete_ne in Hc by done. rewrite lookup_delete_ne by done. by apply Hobj.
  - intros c l Hl. destruct (decide (this = c)) as [<-|Hne].
    + by rewrite lookup_delete_eq in Hl.
    + rewrite lookup_delete_ne in Hl by done.
      destruct (Hch c l Hl) as (o' & Ho' & Hc).
      exists o'. simpl. by rewrite lookup_delete_ne.
  - intros c1 c2 l1 l2 Hne H1 H2.
    apply lookup_delete_Some in H1 as [_ H1]. apply lookup_delete_Some in H2 as [_ H2].
    exact (Hdis c1 c2 l1 l2 Hne H1 H2).
Qed.

Lemma list_disjoint_sym {A} (l1 l2 : list A) : l1 ## l2 → l2 ## l1.
Proof. intros H x H1 H2. exact (H x H2 H1). Qed.

(** Changing the link of the node at a position of container [c]: the
    chain of [c] keeps the nodes before the position and continues with
    the chain [l2] that the new link starts. *)
Lemma models_relink m M c l k pos n q l2 :
  models m M → M !! c = Some l → position c l k pos →
  node_at m (node_ pos) = Some n →
  chain (heap m) q l2 →
  (∀ d ld, d ≠ c → M !! d = Some ld → ld.*1 ## l2.*1) →
  (take k l).*1 ## l2.*1 →
  models (put_node m (node_ pos) (mkNode (value n) q)) (<[c := take k l ++ l2]> M).
Proof.
  intros HM Hl Hpos Hn Hq Hothers Hprefix.
  pose proof (models_NoDup _ _ _ _ HM Hl) as Hnd.
  pose proof (models_chain _ _ _ _ HM Hl) as (o & Ho & Hc).
  destruct HM as (Hok & Hobj & Hch & Hdis).
  unfold position in Hpos. destruct k as [|j]; simpl in Hpos.
  - (* the sentinel *)
    injection Hpos as Hpos. rewrite <- Hpos in *. simpl in *.
    rewrite Ho in Hn. injection Hn as <-.
    repeat split; simpl; try done.
    + intros d Hd. destruct (decide (c = d)) as [<-|Hne].
      * rewrite lookup_insert_eq. by eauto.
      * rewrite lookup_insert_ne by done. apply Hobj.
        by rewrite lookup_alter_ne in Hd.
    + intros d ld Hld. destruct (decide (c = d)) as [<-|Hne].
      * rewrite lookup_insert_eq in Hld. injection Hld as <-.
        eexists. simpl. rewrite lookup_alter_eq, Ho. simpl. split; [done|]. done.
      * rewrite lookup_insert_ne in Hld by done.
        destruct (Hch d ld Hld) as (o' & Ho' & Hc').
        exists o'. simpl. by rewrite lookup_alter_ne.
    + intros c1 c2 l1 l2' Hne H1 H2.
      destruct (decide (c = c1)) as [<-|Hne1].
      { rewrite lookup_insert_eq in H1. injection H1 as <-.
        rewrite lookup_insert_ne in H2 by done.
        apply list_disjoint_sym. by eapply Hothers. }
      destruct (decide (c = c2)) as [<-|Hne2].
      { rewrite lookup_insert_eq in H2. injection H2 as <-.
        rewrite lookup_insert_ne in H1 by done.
        by eapply Hothers. }
      rewrite lookup_insert_ne in H1 by done. rewrite lookup_insert_ne in H2 by done.
      exact (Hdis c1 c2 l1 l2' Hne H1 H2).
  - (* a real node *)
    destruct (l !! j) as [[a v]|] eqn:E; [|done]. simpl in Hpos.
    injection Hpos as Hpos. rewrite <- Hpos in *. simpl in *.
    pose proof (take_drop_middle l j (a, v) E) as Hsplit.
    rewrite <- Hsplit in Hc.
    apply segment_app in Hc as (r & Hpre & (-> & r' & Ha & Hsuf)).
    rewrite Ha in Hn. injection Hn as <-. simpl.
    rewrite (take_S_r l j (a, v) E) in *.
    assert (Ha1 : a ∉ (take j l).*1).
    { rewrite <- Hsplit, fmap_app, fmap_cons in Hnd. simpl in Hnd.
      apply NoDup_app in Hnd as (_ & Hnd & _). intros Hin.
      apply (Hnd a Hin). left. }
    assert (Ha2 : a ∉ l2.*1).
    { intros Hin. apply (Hprefix a); [|done].
      rewrite fmap_app. apply elem_of_app. right. simpl. left. }
    repeat split; simpl.
    + intros b nb Hb. destruct (decide (a = b)) as [<-|Hne].
      * by eapply Hok.
      * rewrite lookup_insert_ne in Hb by done. by eapply Hok.
    + intros d Hd. destruct (decide (c = d)) as [<-|Hne].
      * rewrite lookup_insert_eq. by eauto.
      * rewrite lookup_insert_ne by done. by apply Hobj.
    + intros d ld Hld. destruct (decide (c = d)) as [<-|Hne].
      * rewrite lookup_insert_eq in Hld. injection Hld as <-.
        exists o. split; [done|]. simpl.
        rewrite <- app_assoc. apply segment_app. exists (cell a). split.
        -- eapply segment_frame; [|done]. intros b Hb.
           apply lookup_insert_ne. intros ->. done.
        -- simpl. split; [done|]. exists q. rewrite lookup_insert_eq. split; [done|].
           eapply segment_frame; [|done]. intros b Hb.
           apply lookup_insert_ne. intros ->. done.
      * rewrite lookup_insert_ne in Hld by done.
        destruct (Hch d ld Hld) as (o' & Ho' & Hc').
        exists o'. split; [done|]. simpl.
        eapply segment_frame; [|done]. intros b Hb.
        apply lookup_insert_ne. intros ->.
        apply (Hdis c d l ld Hne Hl Hld b); [|done].
        apply list_elem_of_fmap. exists (b, v). split; [done|].
        by eapply list_elem_of_lookup_2.
    + intros c1 c2 l1 l2' Hne H1 H2.
      assert (Hsub : ∀ d ld, d ≠ c → M !! d = Some ld →
                ld.*1 ## (take j l ++ [(a, v)] ++ l2).*1).
      { intros d ld Hd Hld b Hb1 Hb2.
        rewrite !fmap_app in Hb2. rewrite app_assoc, <- fmap_app in Hb2.
        apply elem_of_app in Hb2 as [Hb2|Hb2].
        - apply (Hdis d c ld l Hd Hld Hl b Hb1).
          rewrite <- Hsplit. rewrite fmap_app, fmap_cons.
          rewrite fmap_app in Hb2. simpl in Hb2.
          apply elem_of_app in Hb2 as [Hb2|Hb2]; apply elem_of_app; [by left|].
          right. apply elem_of_cons. left. by apply list_elem_of_singleton in Hb2.
        - by apply (Hothers d ld Hd Hld b). }
      destruct (decide (c = c1)) as [<-|Hne1].
      { rewrite lookup_insert_eq in H1. injection H1 as <-.
        rewrite lookup_insert_ne in H2 by done. rewrite <- app_assoc.
        apply list_disjoint_sym. by eapply Hsub. }
      destruct (decide (c = c2)) as [<-|Hne2].
      { rewrite lookup_insert_eq in H2. injection H2 as <-.
        rewrite lookup_insert_ne in H1 by done. rewrite <- app_assoc.
        by eapply Hsub. }
      rewrite lookup_insert_ne in H1 by done. rewrite lookup_insert_ne in H2 by done.
      exact (Hdis c1 c2 l1 l2' Hne H1 H2).
Qed.

(** ** Running the primitives *)

Lemma bind_returns {A B} (e : Exec A) (k : A → Exec B) m a m' :
  e m = Returns a m' → bind e k m = k a m'.
Proof. unfold bind. by intros ->. Qed.

Lemma bind_throws {A B} (e : Exec A) (k : A → Exec B) m m' :
  e m = Throws m' → bind e k m = Throws m'.
Proof. unfold bind. by intros ->. Qed.

Lemma run_load m p n : node_at m p = Some n → load p m = Returns n m.
Proof. unfold load. by intros ->. Qed.

Lemma run_set_next_node m p q n :
  node_at m p = Some n →
  set_next_node p q m = Returns tt (put_node m p (mkNode (value n) q)).
Proof. unfold set_next_node. by intros ->. Qed.

Lemma run_object m this o : objs m !! this = Some o → object this m = Returns o m.
Proof. unfold object. by intros ->. Qed.

Lemma run_set_size m this o z :
  objs m !! this = Some o →
  set_size this z m =
    Returns tt (mkMemory (heap m) (<[this := mkList (head_ o) z]> (objs m)) (clock m)).
Proof. unfold set_size. by intros ->. Qed.

Lemma run_incr_size m this o :
  objs m !! this = Some o →
  incr_size this m =
    Returns tt (mkMemory (heap m)
      (<[this := mkList (head_ o) (size_t (size_ o + 1))]> (objs m)) (clock m)).
Proof.
  intros Ho. unfold incr_size. rewrite (bind_returns _ _ _ _ _ (run_object _ _ _ Ho)).
  by apply run_set_size.
Qed.

Lemma run_decr_size m this o :
  objs m !! this = Some o →
  decr_size this m =
    Returns tt (mkMemory (heap m)
      (<[this := mkList (head_ o) (size_t (size_ o - 1))]> (objs m)) (clock m)).
Proof.
  intros Ho. unfold decr_size. rewrite (bind_returns _ _ _ _ _ (run_object _ _ _ Ho)).
  by apply run_set_size.
Qed.

Lemma size_of_put_node m p n d : size_of (put_node m p n) d = size_of m d.
Proof.
  unfold size_of. destruct p as [|c|a]; simpl; try done.
  destruct (decide (c = d)) as [<-|Hne].
  - rewrite lookup_alter_eq. by destruct (objs m !! c).
  - by rewrite lookup_alter_ne.
Qed.

Lemma size_of_set_size m this o z d k :
  objs m !! this = Some o →
  size_of (mkMemory (heap m) (<[this := mkList (head_ o) z]> (objs m)) k) d =
    if decide (d = this) then Some z else size_of m d.
Proof.
  intros Ho. unfold size_of. simpl. destruct (decide (d = this)) as [->|Hne].
  - by rewrite lookup_insert_eq.
  - by rewrite lookup_insert_ne.
Qed.

Lemma clock_put_node m p n : clock (put_node m p n) = clock m.
Proof. by destruct p. Qed.

Lemma new_address_fresh m : heap m !! new_address m = None.
Proof.
  unfold new_address. apply not_elem_of_dom.
  pose proof (is_fresh ({[0%N]} ∪ dom (heap m))) as Hf.
  intros Hin. apply Hf, elem_of_union. by right.
Qed.

Lemma run_new_Node m v next :
  new_Node v next m =
    if new_throws (clock m) v || negb (address_ok (new_address m))
    then Throws (mkMemory (heap m) (objs m) (S (clock m)))
    else Returns (cell (new_address m))
           (mkMemory (<[new_address m := mkNode v next]> (heap m)) (objs m) (S (clock m))).
Proof. done. Qed.

(** Where [InsertAfter] links the new node, whatever container [this]
    is: the count that moves is the one of [this], the chain that grows is
    the one [pos] belongs to. *)
Lemma InsertAfter_general m M this c l k pos v :
  models m M → M !! c = Some l → position c l k pos → is_Some (objs m !! this) →
  let a := new_address m in
  if new_throws (clock m) v || negb (address_ok a)
  then InsertAfter this pos v m = Throws (mkMemory (heap m) (objs m) (S (clock m)))
  else ∃ m',
    InsertAfter this pos v m = Returns (Iterator (cell a)) m' ∧
    models m' (<[c := take k l ++ (a, v) :: drop k l]> M) ∧
    heap m !! a = None ∧
    clock m' = S (clock m) ∧
    (∀ d, size_of m' d =
          if decide (d = this) then (λ z, size_t (z + 1)) <$> size_of m d
          else size_of m d) ∧
    (∀ b, b ≠ a → cell b ≠ node_ pos → heap m' !! b = heap m !! b).
Proof.
  intros HM Hl Hpos [o Ho] a.
  pose proof (models_chain _ _ _ _ HM Hl) as Hcl.
  destruct (position_node _ _ _ _ _ Hcl Hpos) as (n & Hn & Hrest & Hk).
  pose proof (new_address_fresh m) as Hfresh. fold a in Hfresh.
  pose proof (models_NoDup _ _ _ _ HM Hl) as Hnd.
  unfold InsertAfter. rewrite (bind_returns _ _ _ _ _ (run_load _ _ _ Hn)).
  pose proof (run_new_Node m v (next_node n)) as Hnew. fold a in Hnew.
  destruct (new_throws (clock m) v || negb (address_ok a)) eqn:Hthrow.
  { by rewrite (bind_throws _ _ _ _ Hnew). }
  apply orb_false_iff in Hthrow as [_ Haok]. apply negb_false_iff in Haok.
  rewrite (bind_returns _ _ _ _ _ Hnew). clear Hnew.
  set (m1 := mkMemory (<[a := mkNode v (next_node n)]> (heap m)) (objs m) (S (clock m))).
  assert (Hnot_in : ∀ d ld, M !! d = Some ld → a ∉ ld.*1).
  { intros d ld Hld Hin.
    destruct (models_in_heap _ _ _ _ _ HM Hld Hin) as [? Hsome]. congruence. }
  assert (HM1 : models m1 M).
  { apply models_heap_frame; [done| |].
    - intros d ld b Hld Hb. apply lookup_insert_ne. intros ->. by eapply Hnot_in.
    - intros b nb Hb. destruct (decide (a = b)) as [<-|Hne]; [done|].
      rewrite lookup_insert_ne in Hb by done. destruct HM as (Hok & _). by eapply Hok. }
  assert (Hn1 : node_at m1 (node_ pos) = Some n).
  { destruct (node_ pos) as [|c'|b]; simpl in *; try done.
    rewrite lookup_insert_ne; [done|]. intros ->. congruence. }
  rewrite (bind_returns _ _ _ _ _ (run_set_next_node _ _ (cell a) _ Hn1)).
  set (m2 := put_node m1 (node_ pos) (mkNode (value n) (cell a))).
  assert (HM2 : models m2 (<[c := take k l ++ (a, v) :: drop k l]> M)).
  { apply models_relink; try done.
    - split; [done|]. exists (next_node n). simpl. rewrite lookup_insert_eq.
      split; [done|]. eapply segment_frame; [|exact Hrest].
      intros b Hb. apply lookup_insert_ne. intros ->.
      apply (Hnot_in c l Hl). rewrite <- (take_drop k l), fmap_app.
      apply elem_of_app. by right.
    - intros d ld Hd Hld b Hb1 Hb2. simpl in Hb2.
      apply elem_of_cons in Hb2 as [->|Hb2]; [by eapply Hnot_in|].
      destruct HM as (_ & _ & _ & Hdis).
      apply (Hdis d c ld l Hd Hld Hl b Hb1).
      rewrite <- (take_drop k l), fmap_app. apply elem_of_app. by right.
    - intros b Hb1 Hb2. simpl in Hb2.
      apply elem_of_cons in Hb2 as [->|Hb2].
      + apply (Hnot_in c l Hl). rewrite <- (take_drop k l), fmap_app.
        apply elem_of_app. by left.
      + rewrite <- (take_drop k l), fmap_app in Hnd.
        apply NoDup_app in Hnd as (_ & Hnd & _). by apply (Hnd b). }
  assert (Ho2 : ∃ o2, objs m2 !! this = Some o2 ∧ size_ o2 = size_ o).
  { assert (Hs : size_of m2 this = size_of m this).
    { unfold m2. rewrite size_of_put_node. unfold size_of, m1. done. }
    unfold size_of in Hs. rewrite Ho in Hs.
    destruct (objs m2 !! this) as [o2|]; [|done]. injection Hs as Hs. eauto. }
  destruct Ho2 as (o2 & Ho2 & Hsz).
  rewrite (bind_returns _ _ _ _ _ (run_incr_size _ _ _ Ho2)).
  eexists. split; [reflexivity|]. split; [by apply models_set_size|].
  split; [done|]. split; [simpl; unfold m2; by rewrite clock_put_node|].
  split.
  - intros d. rewrite (size_of_set_size _ _ _ _ _ _ Ho2).
    destruct (decide (d = this)) as [->|Hne].
    + unfold size_of. rewrite Ho. simpl. by rewrite Hsz.
    + unfold m2. rewrite size_of_put_node. done.
  - intros b Hb1 Hb2. cbn [heap]. unfold m2.
    destruct (node_ pos) as [|c'|b']; simpl.
    + by rewrite lookup_insert_ne.
    + by rewrite lookup_insert_ne.
    + rewrite lookup_insert_ne by congruence. by rewrite lookup_insert_ne.
Qed.

Lemma chain_first_ptr h p l : chain h p l → p = first_ptr l.
Proof. destruct l as [|[a v] l]; simpl; [done|]. by intros (-> & _). Qed.

Lemma position_delete this l k pos :
  position this l k pos → position this (delete k l) k pos.
Proof.
  unfold position. destruct k as [|j]; simpl; [done|].
  rewrite list_lookup_delete_lt by lia. done.
Qed.

Lemma drop_delete_same {A} (l : list A) k :
  (k ≤ length l)%nat → drop k (delete k l) = drop (S k) l.
Proof.
  intros Hk. rewrite delete_take_drop. rewrite drop_app_length'; [done|].
  rewrite length_take. lia.
Qed.

(** Where [EraseAfter] unlinks a node, whatever container [this] is. *)
Lemma EraseAfter_general m M this c l k pos a v :
  models m M → M !! c = Some l → position c l k pos → l !! k = Some (a, v) →
  is_Some (objs m !! this) →
  ∃ m',
    EraseAfter this pos m = Returns (Iterator (first_ptr (drop (S k) l))) m' ∧
    models m' (<[c := delete k l]> M) ∧
    heap m' !! a = None ∧
    clock m' = clock m ∧
    (∀ d, size_of m' d =
          if decide (d = this) then (λ z, size_t (z - 1)) <$> size_of m d
          else size_of m d).
Proof.
  intros HM Hl Hpos Hk [o Ho].
  pose proof (models_chain _ _ _ _ HM Hl) as Hcl.
  destruct (position_node _ _ _ _ _ Hcl Hpos) as (n & Hn & Hrest & _).
  pose proof (models_NoDup _ _ _ _ HM Hl) as Hnd.
  pose proof (take_drop_middle l k (a, v) Hk) as Hsplit.
  rewrite <- Hsplit in Hnd. rewrite fmap_app, fmap_cons in Hnd. simpl in Hnd.
  apply NoDup_app in Hnd as (_ & Hnd1 & Hnd2). apply NoDup_cons in Hnd2 as (Hnd2 & _).
  rewrite (drop_S l (a, v) k Hk) in Hrest.
  destruct Hrest as (Hnext & r & Ha & Hr).
  unfold EraseAfter. rewrite (bind_returns _ _ _ _ _ (run_load _ _ _ Hn)).
  rewrite Hnext.
  rewrite (bind_returns _ _ _ _ _ (run_load m (cell a) _ Ha)). simpl next_node.
  rewrite (bind_returns _ _ _ _ _ (run_set_next_node _ _ r _ Hn)).
  set (m1 := put_node m (node_ pos) (mkNode (value n) r)).
  assert (HM1 : models m1 (<[c := delete k l]> M)).
  { rewrite delete_take_drop. apply models_relink; try done.
    - intros d ld Hd Hld b Hb1 Hb2. destruct HM as (_ & _ & _ & Hdis).
      apply (Hdis d c ld l Hd Hld Hl b Hb1).
      rewrite <- Hsplit, fmap_app, fmap_cons.
      apply elem_of_app. right. by right.
    - intros b Hb1 Hb2. apply (Hnd1 b Hb1). by right. }
  assert (Ha1 : heap m1 !! a = Some (mkNode v r)).
  { unfold m1. destruct (node_ pos) as [|c'|b] eqn:Epos; simpl in *; try done.
    rewrite lookup_insert_ne; [done|]. intros ->.
    unfold position in Hpos. destruct k as [|j]; simpl in Hpos; [congruence|].
    destruct (l !! j) as [[a' v']|] eqn:E; [|done]. simpl in Hpos.
    rewrite Epos in Hpos. injection Hpos as ->.
    apply (Hnd1 a); [|by left].
    apply list_elem_of_fmap. exists (a, v'). split; [done|].
    apply list_elem_of_lookup. exists j. rewrite lookup_take_lt by lia. done. }
  assert (Hdel : delete_Node (cell a) m1 =
            Returns tt (mkMemory (delete a (heap m1)) (objs m1) (clock m1))).
  { unfold delete_Node. by rewrite Ha1. }
  rewrite (bind_returns _ _ _ _ _ Hdel).
  set (m2 := mkMemory (delete a (heap m1)) (objs m1) (clock m1)).
  assert (HM2 : models m2 (<[c := delete k l]> M)).
  { apply models_heap_frame; [done| |].
    - intros d ld b Hld Hb. apply lookup_delete_ne. intros <-.
      destruct (decide (c = d)) as [<-|Hne].
      + rewrite lookup_insert_eq in Hld. injection Hld as <-.
        rewrite delete_take_drop, fmap_app in Hb.
        apply elem_of_app in Hb as [Hb|Hb]; [|done].
        apply (Hnd1 a Hb). by left.
      + rewrite lookup_insert_ne in Hld by done.
        destruct HM as (_ & _ & _ & Hdis).
        apply (Hdis c d l ld Hne Hl Hld a); [|done].
        apply list_elem_of_fmap. exists (a, v). split; [done|].
        by eapply list_elem_of_lookup_2.
    - intros b nb Hb. apply lookup_delete_Some in Hb as [_ Hb].
      destruct HM1 as (Hok & _). by eapply Hok. }
  assert (Ho2 : ∃ o2, objs m2 !! this = Some o2 ∧ size_ o2 = size_ o).
  { assert (Hs : size_of m2 this = size_of m this).
    { unfold size_of, m2. simpl. fold (size_of m1 this). unfold m1.
      by rewrite size_of_put_node. }
    unfold size_of in Hs. rewrite Ho in Hs.
    destruct (objs m2 !! this) as [o2|]; [|done]. injection Hs as Hs. eauto. }
  destruct Ho2 as (o2 & Ho2 & Hsz).
  rewrite (bind_returns _ _ _ _ _ (run_decr_size _ _ _ Ho2)).
  set (m3 := mkMemory (heap m2) _ (clock m2)).
  assert (HM3 : models m3 (<[c := delete k l]> M)) by by apply models_set_size.
  assert (Hc3 : chain_of m3 c (delete k l)).
  { eapply models_chain; [done|]. by rewrite lookup_insert_eq. }
  destruct (position_node _ _ _ _ _ Hc3 (position_delete _ _ _ _ Hpos))
    as (n' & Hn' & Hrest' & _).
  rewrite (bind_returns _ _ _ _ _ (run_load _ _ _ Hn')).
  rewrite drop_delete_same in Hrest' by (apply lookup_lt_Some in Hk; lia).
  apply chain_first_ptr in Hrest'. rewrite Hrest'.
  exists m3. split; [done|]. split; [done|].
  split; [simpl; by rewrite lookup_delete_eq|].
  split; [simpl; unfold m1; by rewrite clock_put_node|].
  intros d. unfold m3. rewrite (size_of_set_size _ _ _ _ _ _ Ho2).
  destruct (decide (d = this)) as [->|Hne].
  - unfold size_of. rewrite Ho. simpl. by rewrite Hsz.
  - unfold size_of, m2. simpl. fold (size_of m1 d). unfold m1.
    by rewrite size_of_put_node.
Qed.

(** ** swap *)

Lemma swap_run m this other a b :
  objs m !! this = Some a → objs m !! other = Some b →
  ∃ m',
    swap this other m = Returns tt m' ∧
    heap m' = heap m ∧ clock m' = clock m ∧
    (∃ v, objs m' !! other = Some (mkList (mkNode v (next_node (head_ a))) (size_ a))) ∧
    (this ≠ other →
     ∃ v, objs m' !! this = Some (mkList (mkNode v (next_node (head_ b))) (size_ b))) ∧
    (∀ d, d ≠ this → d ≠ other → objs m' !! d = objs m !! d).
Proof.
  intros Ha Hb. unfold swap.
  rewrite (bind_returns _ _ _ _ _ (run_object _ _ _ Ha)).
  rewrite (bind_returns _ _ _ _ _ (run_object _ _ _ Hb)).
  assert (H1 : node_at m (sentinel_of this) = Some (head_ a)) by (simpl; by rewrite Ha).
  rewrite (bind_returns _ _ _ _ _ (run_set_next_node _ _ _ _ H1)).
  set (m1 := put_node m _ _).
  assert (H2 : ∃ n2, node_at m1 (sentinel_of other) = Some n2).
  { simpl. destruct (decide (this = other)) as [<-|Hne].
    - rewrite lookup_alter_eq, Ha. simpl. eauto.
    - rewrite lookup_alter_ne by done. rewrite Hb. simpl. eauto. }
  destruct H2 as (n2 & H2).
  rewrite (bind_returns _ _ _ _ _ (run_set_next_node _ _ _ _ H2)).
  set (m2 := put_node m1 _ _).
  assert (Hother2 : objs m2 !! other =
            Some (mkList (mkNode (value n2) (next_node (head_ a))) (size_ b))).
  { simpl. rewrite lookup_alter_eq. destruct (decide (this = other)) as [<-|Hne].
    - rewrite lookup_alter_eq, Ha. simpl. rewrite Ha in Hb. by injection Hb as <-.
    - rewrite lookup_alter_ne by done. by rewrite Hb. }
  assert (H3 : ∃ o3, objs m2 !! this = Some o3 ∧
            (this ≠ other → next_node (head_ o3) = next_node (head_ b)) ∧
            (this = other → next_node (head_ o3) = next_node (head_ a))).
  { destruct (decide (this = other)) as [<-|Hne].
    - rewrite Hother2. eexists. split; [done|]. simpl. split; [done|]. done.
    - simpl. rewrite lookup_alter_ne by done. rewrite lookup_alter_eq, Ha. simpl.
      eexists. split; [done|]. simpl. split; [done|]. done. }
  destruct H3 as (o3 & H3 & Hne3 & Heq3).
  rewrite (bind_returns _ _ _ _ _ (run_set_size _ _ _ _ H3)).
  set (m3 := mkMemory _ _ _).
  assert (H4 : ∃ o4, objs m3 !! other = Some o4 ∧
                next_node (head_ o4) = next_node (head_ a)).
  { unfold m3. cbn [objs]. destruct (decide (this = other)) as [<-|Hne].
    - rewrite lookup_insert_eq. eexists. split; [done|]. simpl. by apply Heq3.
    - rewrite lookup_insert_ne by done. rewrite Hother2.
      eexists. split; [done|]. done. }
  destruct H4 as (o4 & H4 & Hn4).
  rewrite (run_set_size _ _ _ _ H4).
  eexists. split; [done|]. simpl. repeat split.
  - rewrite lookup_insert_eq. exists (value (head_ o4)).
    destruct o4 as [[v4 p4] s4]. simpl in *. by rewrite Hn4.
  - intros Hne. rewrite lookup_insert_ne by done. rewrite lookup_insert_eq.
    exists (value (head_ o3)). destruct o3 as [[v3 p3] s3]. simpl in *.
    by rewrite (Hne3 Hne).
  - intros d Hd1 Hd2. rewrite !lookup_insert_ne by done.
    by rewrite !lookup_alter_ne.
Qed.

Lemma swap_spec m M this other la lb :
  models m M → M !! this = Some la → M !! other = Some lb →
  ∃ m',
    swap this other m = Returns tt m' ∧
    models m' (<[other := la]> (<[this := lb]> M)) ∧
    heap m' = heap m ∧ clock m' = clock m ∧
    (∀ d, size_of m' d =
          if decide (d = other) then size_of m this
          else if decide (d = this) then size_of m other
          else size_of m d).
Proof.
  intros HM Hla Hlb.
  destruct (models_chain _ _ _ _ HM Hla) as (a & Ha & Hca).
  destruct (models_chain _ _ _ _ HM Hlb) as (b & Hb & Hcb).
  destruct (swap_run _ _ _ _ _ Ha Hb)
    as (m' & Hrun & Hheap & Hclock & (vo & Hother) & Hthis & Hrest).
  exists m'. split; [done|]. destruct HM as (Hok & Hobj & Hch & Hdis).
  split; [|split; [done|split; [done|]]].
  - repeat split.
    + rewrite Hheap. done.
    + intros d Hd. destruct (decide (other = d)) as [<-|Hne1].
      { rewrite lookup_insert_eq. by eauto. }
      rewrite lookup_insert_ne by done.
      destruct (decide (this = d)) as [<-|Hne2].
      { rewrite lookup_insert_eq. by eauto. }
      rewrite lookup_insert_ne by done. apply Hobj.
      rewrite Hrest in Hd by done. done.
    + intros d ld Hld. destruct (decide (other = d)) as [<-|Hne1].
      { rewrite lookup_insert_eq in Hld. injection Hld as <-.
        eexists. split; [done|]. simpl. by rewrite Hheap. }
      rewrite lookup_insert_ne in Hld by done.
      destruct (decide (this = d)) as [<-|Hne2].
      { rewrite lookup_insert_eq in Hld. injection Hld as <-.
        destruct (Hthis ltac:(done)) as (vt & Ht).
        eexists. split; [done|]. simpl. by rewrite Hheap. }
      rewrite lookup_insert_ne in Hld by done.
      destruct (Hch d ld Hld) as (o & Ho & Hc).
      exists o. rewrite Hrest by done. rewrite Hheap. done.
    + intros c1 c2 l1 l2 Hne H1 H2.
      set (σ := λ c : N, if decide (c = other) then this
                         else if decide (c = this) then other else c).
      assert (Hsrc : ∀ c, <[other := la]> (<[this := lb]> M) !! c = M !! σ c).
      { intros c. unfold σ. destruct (decide (c = other)) as [->|Hn1].
        { by rewrite lookup_insert_eq. }
        rewrite lookup_insert_ne by done.
        destruct (decide (c = this)) as [->|Hn2].
        { by rewrite lookup_insert_eq. }
        by rewrite lookup_insert_ne. }
      rewrite Hsrc in H1. rewrite Hsrc in H2.
      apply (Hdis (σ c1) (σ c2) l1 l2); [|done|done].
      unfold σ. repeat case_decide; congruence.
  - intros d. unfold size_of.
    destruct (decide (d = other)) as [->|Hne1].
    { rewrite Hother, Ha. done. }
    destruct (decide (d = this)) as [->|Hne2].
    { destruct (Hthis ltac:(done)) as (vt & Ht). rewrite Ht, Hb. done. }
    by rewrite Hrest.
Qed.

(** ** PopFront, Clear and the destructor *)

Lemma chain_length_heap h p l : chain h p l → (length l ≤ size h)%nat.
Proof.
  intros Hc. pose proof (chain_NoDup _ _ _ Hc) as Hnd.
  rewrite <- (length_fmap fst), <- size_dom.
  rewrite <- (size_list_to_set (C := gset N) _ Hnd).
  apply subseteq_size. intros a Ha. apply elem_of_list_to_set in Ha.
  apply elem_of_dom. by eapply segment_dom.
Qed.

Lemma Clear_loop_spec fuel m M this l :
  models m M → M !! this = Some l → (length l ≤ fuel)%nat →
  ∃ m',
    Clear_loop fuel this m = Returns tt m' ∧
    models m' (<[this := []]> M) ∧
    clock m' = clock m ∧
    (∀ d, d ≠ this → size_of m' d = size_of m d) ∧
    (size_of m this = Some (Z.of_nat (length l)) → size_of m' this = Some 0).
Proof.
  revert fuel m M. induction l as [|[a v] l IH]; intros fuel m M HM Hl Hfuel.
  - destruct (models_chain _ _ _ _ HM Hl) as (o & Ho & Hc). simpl in Hc.
    exists m. split.
    + destruct fuel; simpl; rewrite (bind_returns _ _ _ _ _ (run_object _ _ _ Ho));
        rewrite Hc; done.
    + rewrite insert_id by done. done.
  - destruct fuel as [|fuel]; [simpl in Hfuel; lia|].
    destruct (models_chain _ _ _ _ HM Hl) as (o & Ho & Hc).
    pose proof (models_length _ _ _ _ HM Hl) as Hbound.
    destruct (EraseAfter_general m M this this _ 0 (before_begin this) a v HM Hl)
      as (m1 & Hrun & HM1 & _ & Hclock & Hsize); [done|done|by eauto|].
    simpl in HM1.
    destruct (IH fuel m1 (<[this := l]> M) HM1) as (m' & Hrun' & HM' & Hclock' & Hsize' & Hzero).
    { by rewrite lookup_insert_eq. }
    { simpl in Hfuel. lia. }
    exists m'. split.
    + simpl. rewrite (bind_returns _ _ _ _ _ (run_object _ _ _ Ho)).
      destruct Hc as (-> & _). simpl.
      unfold PopFront. unfold bind at 1. unfold bind at 1. rewrite Hrun. done.
    + rewrite insert_insert_eq in HM'. split; [done|]. split; [congruence|]. split.
      * intros d Hd. rewrite Hsize' by done. rewrite Hsize.
        by destruct (decide (d = this)).
      * intros Hs. apply Hzero. rewrite Hsize. destruct (decide (this = this)); [|done].
        rewrite Hs. simpl. f_equal. simpl length in *.
        rewrite size_t_small; lia.
Qed.

Lemma Clear_spec m M this l :
  models m M → M !! this = Some l →
  ∃ m',
    Clear this m = Returns tt m' ∧
    models m' (<[this := []]> M) ∧
    clock m' = clock m ∧
    (∀ d, d ≠ this → size_of m' d = size_of m d) ∧
    (size_of m this = Some (Z.of_nat (length l)) → size_of m' this = Some 0).
Proof.
  intros HM Hl. unfold Clear. apply Clear_loop_spec; [done|done|].
  destruct (models_chain _ _ _ _ HM Hl) as (o & Ho & Hc).
  by eapply chain_length_heap.
Qed.

Lemma destroy_spec m M this l :
  models m M → M !! this = Some l →
  ∃ m',
    destroy this m = Returns tt m' ∧
    models m' (delete this M) ∧
    clock m' = clock m ∧
    size_of m' this = None ∧
    (∀ d, d ≠ this → size_of m' d = size_of m d).
Proof.
  intros HM Hl.
  destruct (Clear_spec _ _ _ _ HM Hl) as (m1 & Hrun & HM1 & Hclock & Hsize & _).
  unfold destroy. rewrite (bind_returns _ _ _ _ _ Hrun). unfold release.
  eexists. split; [done|]. split; [|split; [done|split]].
  - rewrite <- (delete_insert_eq M this []). by apply models_release.
  - unfold size_of. simpl. by rewrite lookup_delete_eq.
  - intros d Hd. rewrite <- Hsize by done. unfold size_of. simpl.
    by rewrite lookup_delete_ne.
Qed.

(** ** The two ranges satisfy the laws *)

#[global, refine] Instance initializer_list_TListOk : TListOk (list T) := {
  range_denotes := initializer_list_denotes;
  iter_denotes := initializer_list_denotes }.
Proof.
  - intros other m fp vs (-> & ->). exists other. done.
  - intros other m fp vs (-> & ->). done.
  - intros other m m' fp vs (-> & ->) _ _. done.
  - intros it m fp vs (-> & ->). simpl. destruct it; split; done.
  - intros it m fp v vs (-> & <-). done.
  - intros it m fp v vs (-> & <-). exists vs. done.
  - intros it m m' fp vs (-> & ->) _. done.
  - intros it m fp vs a (-> & _) Ha. by apply elem_of_nil in Ha.
Defined.

#[global, refine] Instance SingleLinkedList_TListOk : TListOk ListRef := {
  range_denotes := ListRef_denotes;
  iter_denotes := ConstIterator_denotes }.
Proof.
  - intros other m fp vs (l & (o & Ho & Hc) & -> & ->). simpl.
    exists (Iterator (next_node (head_ o))). split.
    + unfold begin. by rewrite (bind_returns _ _ _ _ _ (run_object _ _ _ Ho)).
    + exists l. simpl. repeat split; try done.
      intros a Ha. by eapply segment_dom.
  - intros other m fp vs (l & (o & Ho & Hc) & -> & ->). simpl.
    rewrite length_fmap. by eapply chain_length_heap.
  - intros other m m' fp vs (l & (o & Ho & Hc) & -> & ->) Hheap Hobjs.
    exists l. repeat split; try done. exists o. rewrite Hheap. eauto.
  - intros it m fp vs (l & Hc & _ & -> & _). simpl.
    unfold iterator_eq. simpl. rewrite bool_decide_eq_true.
    destruct l as [|[a v] l]; simpl in *.
    + done.
    + destruct Hc as (-> & _). split; done.
  - intros it m fp v vs (l & Hc & _ & Hvs & _). simpl.
    destruct l as [|[a w] l]; [done|]. simpl in Hvs. injection Hvs as <- ->.
    destruct Hc as (Hit & r & Ha & Hr). unfold operator_deref.
    assert (Hn : node_at m (node_ it) = Some (mkNode v r)) by (by rewrite Hit).
    by rewrite (bind_returns _ _ _ _ _ (run_load _ _ _ Hn)).
  - intros it m fp v vs (l & Hc & Hsub & Hvs & Hdom). simpl.
    destruct l as [|[a w] l]; [done|]. simpl in Hvs. injection Hvs as <- ->.
    destruct Hc as (Hit & r & Ha & Hr). exists (Iterator r). split.
    + unfold operator_incr. rewrite Hit. simpl.
      assert (Hn : node_at m (cell a) = Some (mkNode v r)) by done.
      unfold bind at 1. simpl.
      by rewrite (bind_returns _ _ _ _ _ (run_load _ _ _ Hn)).
    + exists l. repeat split; try done. intros b Hb. apply Hsub. simpl. by right.
  - intros it m m' fp vs (l & Hc & Hsub & Hvs & Hdom) Hagree.
    exists l. repeat split; try done.
    + eapply segment_frame; [|done]. intros a Ha. apply Hagree. by apply Hsub.
    + intros a Ha. rewrite Hagree by done. by apply Hdom.
  - intros it m fp vs a (l & _ & _ & _ & Hdom) Ha. by apply Hdom.
Defined.

(** ** Scopes and constructors *)

Lemma finally_returns {A} (body : Exec A) cleanup m a m1 m2 :
  body m = Returns a m1 → cleanup m1 = Returns tt m2 →
  finally body cleanup m = Returns a m2.
Proof. intros Hb Hc. unfold finally. rewrite Hb. unfold bind. by rewrite Hc. Qed.

Lemma finally_throws {A} (body : Exec A) cleanup m m1 m2 :
  body m = Throws m1 → cleanup m1 = Returns tt m2 →
  finally body cleanup m = Throws m2.
Proof. intros Hb Hc. unfold finally. rewrite Hb. by rewrite Hc. Qed.

Lemma fresh_object m : objs m !! fresh (dom (objs m)) = None.
Proof. apply not_elem_of_dom, is_fresh. Qed.

Lemma models_no_object m M this : models m M → objs m !! this = None → M !! this = None.
Proof.
  intros HM Hnone. destruct (M !! this) as [l|] eqn:E; [|done].
  destruct (models_chain _ _ _ _ HM E) as (o & Ho & _). congruence.
Qed.

(** The memory in which the body of a constructor starts. *)
Lemma models_construct m M :
  models m M →
  let this := fresh (dom (objs m)) in
  let m0 := mkMemory (heap m) (<[this := empty_object]> (objs m)) (clock m) in
  models m0 (<[this := []]> M) ∧ M !! this = None ∧
  size_of m0 this = Some 0 ∧
  (∀ d, d ≠ this → size_of m0 d = size_of m d) ∧
  (∀ d o, objs m !! d = Some o → objs m0 !! d = Some o).
Proof.
  intros HM this m0. pose proof (fresh_object m) as Hfresh. fold this in Hfresh.
  split; [by apply models_new_object|]. split; [by eapply models_no_object|].
  split; [unfold size_of, m0; simpl; by rewrite lookup_insert_eq|]. split.
  - intros d Hd. unfold size_of, m0. simpl. by rewrite lookup_insert_ne.
  - intros d o Ho. unfold m0. simpl. rewrite lookup_insert_ne; [done|].
    intros <-. congruence.
Qed.

(** ** CopyList *)

Lemma operator_incr_position m this l k pos :
  chain_of m this l → position this l k pos →
  ∃ it', operator_incr pos m = Returns it' m.
Proof.
  intros Hc Hpos. destruct (position_node _ _ _ _ _ Hc Hpos) as (n & Hn & _).
  unfold operator_incr. assert (Hnn : node_ pos ≠ nullptr).
  { intros E. rewrite E in Hn. done. }
  rewrite (bool_decide_eq_true_2 _ Hnn). unfold bind at 1. simpl.
  rewrite (bind_returns _ _ _ _ _ (run_load _ _ _ Hn)). eauto.
Qed.

Lemma position_last this (l : list (N * T)) a v :
  position this (l ++ [(a, v)]) (S (length l)) (Iterator (cell a)).
Proof. unfold position. simpl. by rewrite list_lookup_middle. Qed.

Lemma position_app this (l l' : list (N * T)) k pos :
  position this l k pos → position this (l ++ l') k pos.
Proof.
  unfold position. destruct k as [|j]; simpl; [done|].
  destruct (l !! j) eqn:E; [|done].
  by rewrite (lookup_app_l_Some _ _ _ _ E).
Qed.

Lemma models_tick m M k : models m M → models (mkMemory (heap m) (objs m) k) M.
Proof.
  intros HM. apply models_heap_frame; [done|done|]. destruct HM as (Hok & _). done.
Qed.

Lemma CopyList_loop_spec `{TListOk L} vs :
  ∀ fuel m M this tmp node_it it fp lt,
  models m M → M !! tmp = Some lt → this ≠ tmp →
  size_of m this = Some (Z.of_nat (length lt)) →
  size_of m tmp = Some (Z.of_nat (length lt)) →
  position tmp lt (length lt) node_it →
  iter_denotes it m fp vs → fp ## lt.*1 → (length vs ≤ fuel)%nat →
  ∃ m',
    (CopyList_loop fuel this tmp node_it it m = Throws m' ∧
     ∃ lt', models m' (<[tmp := lt']> M) ∧
       ∀ d, d ≠ this → d ≠ tmp → size_of m' d = size_of m d)
    ∨
    (CopyList_loop fuel this tmp node_it it m = Returns tt m' ∧
     ∃ lt', models m' (<[tmp := lt ++ lt']> M) ∧ lt'.*2 = vs ∧
       size_of m' this = Some (Z.of_nat (length (lt ++ lt'))) ∧
       size_of m' tmp = Some (Z.of_nat (length (lt ++ lt'))) ∧
       ∀ d, d ≠ this → d ≠ tmp → size_of m' d = size_of m d).
Proof.
  induction vs as [|v vs IH];
    intros fuel m M this tmp node_it it fp lt HM Hlt Hne Hsthis Hstmp Hpos Hit Hfp Hfuel.
  - assert (Hend : range_at_end it = true) by (by eapply ok_at_end).
    exists m. right. split.
    + destruct fuel; simpl; by rewrite Hend.
    + exists []. rewrite app_nil_r, insert_id by done. done.
  - assert (Hend : range_at_end it = false).
    { destruct (range_at_end it) eqn:E; [|done]. by apply (ok_at_end _ _ _ _ Hit) in E. }
    destruct fuel as [|fuel]; [simpl in Hfuel; lia|].
    simpl. rewrite Hend.
    rewrite (bind_returns _ _ _ _ _ (ok_deref _ _ _ _ _ Hit)).
    assert (Hthis : is_Some (objs m !! this)).
    { unfold size_of in Hsthis. destruct (objs m !! this); [eauto|done]. }
    pose proof (InsertAfter_general m M this tmp lt (length lt) node_it v
                  HM Hlt Hpos Hthis) as Hins.
    simpl in Hins.
    destruct (new_throws (clock m) v || negb (address_ok (new_address m))).
    { (* the copy throws *)
      rewrite (bind_throws _ _ _ _ Hins). eexists. left. split; [done|].
      exists lt. rewrite insert_id by done. split; [by apply models_tick|]. done. }
    destruct Hins as (m1 & Hrun1 & HM1 & Hfresh & _ & Hsize1 & Hframe1).
    rewrite take_ge, drop_ge in HM1 by lia.
    set (a := new_address m) in *.
    rewrite (bind_returns _ _ _ _ _ Hrun1).
    (* ++node_it *)
    assert (Hlt1 : <[tmp := lt ++ [(a, v)]]> M !! tmp = Some (lt ++ [(a, v)]))
      by (by rewrite lookup_insert_eq).
    destruct (operator_incr_position m1 tmp (lt ++ [(a, v)]) (length lt) node_it)
      as (it1 & Hrun2).
    { by eapply models_chain. }
    { by apply position_app. }
    rewrite (bind_returns _ _ _ _ _ Hrun2).
    (* ++tmp.size_ *)
    pose proof (models_length _ _ _ _ HM1 Hlt1) as Hbound. rewrite length_app in Hbound.
    simpl in Hbound.
    assert (Htmp1 : size_of m1 tmp = Some (Z.of_nat (length lt))).
    { rewrite Hsize1. destruct (decide (tmp = this)); [congruence|done]. }
    assert (Hthis1 : size_of m1 this = Some (Z.of_nat (length lt) + 1)).
    { rewrite Hsize1. destruct (decide (this = this)); [|done].
      rewrite Hsthis. simpl. f_equal. apply size_t_small. lia. }
    unfold size_of in Htmp1.
    destruct (objs m1 !! tmp) as [o1|] eqn:Ho1; [|done].
    simpl in Htmp1. injection Htmp1 as Htmp1.
    rewrite (bind_returns _ _ _ _ _ (run_incr_size _ _ _ Ho1)).
    set (m2 := mkMemory _ _ _).
    assert (HM2 : models m2 (<[tmp := lt ++ [(a, v)]]> M)) by (by apply models_set_size).
    assert (Hsize2 : ∀ d, size_of m2 d =
              if decide (d = tmp) then Some (Z.of_nat (length lt) + 1) else size_of m1 d).
    { intros d. unfold m2. rewrite (size_of_set_size _ _ _ _ _ _ Ho1).
      destruct (decide (d = tmp)); [|done]. f_equal. rewrite Htmp1.
      apply size_t_small. lia. }
    (* ++it *)
    assert (Hagree : ∀ b, b ∈ fp → heap m2 !! b = heap m !! b).
    { intros b Hb. unfold m2. cbn [heap]. apply Hframe1.
      - intros ->. destruct (ok_in_heap _ _ _ _ _ Hit Hb) as [? Hsome]. congruence.
      - intros Hcell. unfold position in Hpos.
        destruct (length lt) as [|j]; simpl in Hpos; [congruence|].
        destruct (lt !! j) as [[b' w]|] eqn:E; [|done]. simpl in Hpos.
        rewrite <- Hcell in Hpos. injection Hpos as ->.
        apply (Hfp b Hb). apply list_elem_of_fmap. exists (b, w). split; [done|].
        by eapply list_elem_of_lookup_2. }
    pose proof (ok_frame _ _ m2 _ _ Hit Hagree) as Hit2.
    destruct (ok_incr _ _ _ _ _ Hit2) as (it' & Hrun3 & Hit').
    rewrite (bind_returns _ _ _ _ _ Hrun3).
    (* the rest of the loop *)
    destruct (IH fuel m2 (<[tmp := lt ++ [(a, v)]]> M) this tmp (Iterator (cell a)) it' fp
                (lt ++ [(a, v)])) as (m' & Hres); try done.
    { rewrite Hsize2. destruct (decide (this = tmp)); [done|].
      rewrite Hthis1, length_app. simpl. f_equal. lia. }
    { rewrite Hsize2. destruct (decide (tmp = tmp)); [|done].
      rewrite length_app. simpl. f_equal. lia. }
    { rewrite length_app. simpl. replace (length lt + 1)%nat with (S (length lt)) by lia.
      apply position_last. }
    { intros b Hb1 Hb2. rewrite fmap_app in Hb2. apply elem_of_app in Hb2 as [Hb2|Hb2].
      - by apply (Hfp b).
      - simpl in Hb2. apply list_elem_of_singleton in Hb2 as ->.
        destruct (ok_in_heap _ _ _ _ _ Hit Hb1) as [? Hsome]. congruence. }
    { simpl in Hfuel. lia. }
    assert (Hothers : ∀ d, d ≠ this → d ≠ tmp → size_of m2 d = size_of m d).
    { intros d Hd1 Hd2. rewrite Hsize2. destruct (decide (d = tmp)); [done|].
      rewrite Hsize1. by destruct (decide (d = this)). }
    exists m'. destruct Hres as [(Hrun & lt' & HM' & Hsz)|(Hrun & lt' & HM' & Hvs & Hs1 & Hs2 & Hsz)].
    + left. split; [done|]. exists lt'. rewrite insert_insert_eq in HM'.
      split; [done|]. intros d Hd1 Hd2. rewrite Hsz by done. by apply Hothers.
    + right. split; [done|]. exists ((a, v) :: lt').
      rewrite insert_insert_eq, <- app_assoc in HM'. simpl in HM'.
      rewrite <- app_assoc in Hs1, Hs2. simpl in Hs1, Hs2.
      split; [done|]. split; [by rewrite fmap_cons, Hvs|].
      split; [done|]. split; [done|].
      intros d Hd1 Hd2. rewrite Hsz by done. by apply Hothers.
Qed.

Ltac map_lookups :=
  apply map_eq; intros ?;
  repeat (rewrite lookup_insert || rewrite lookup_delete);
  repeat case_decide; subst; try done; try congruence.

Lemma size_of_None_model m M this : models m M → M !! this = None → size_of m this = None.
Proof.
  intros HM Hnone. unfold size_of. destruct (objs m !! this) as [o|] eqn:E; [|done].
  destruct HM as (_ & Hobj & _). destruct (Hobj this) as [l Hl]; [by eauto|]. congruence.
Qed.

(** [CopyList] into an object under construction: either every element
    was copied and the object owns the new chain, or a copy threw and
    nothing is left behind. *)
Lemma CopyList_spec `{TListOk L} m M this (other : L) fp vs :
  models m M → M !! this = Some [] → size_of m this = Some 0 →
  range_denotes other m fp vs →
  ∃ m',
    (CopyList this other m = Throws m' ∧ models m' M ∧
     ∀ d, d ≠ this → size_of m' d = size_of m d)
    ∨
    (CopyList this other m = Returns tt m' ∧
     ∃ l, models m' (<[this := l]> M) ∧ l.*2 = vs ∧
       size_of m' this = Some (Z.of_nat (length l)) ∧
       ∀ d, d ≠ this → size_of m' d = size_of m d).
Proof.
  intros HM Hthis Hsize Hden.
  destruct (models_construct m M HM) as (HM0 & Hnone & Hs0 & Hsz0 & Hobjs0).
  set (tmp := fresh (dom (objs m))) in *.
  set (m0 := mkMemory (heap m) (<[tmp := empty_object]> (objs m)) (clock m)) in *.
  assert (Hne : this ≠ tmp) by congruence.
  assert (Hconstruct : construct default_constructor m = Returns tmp m0) by done.
  unfold CopyList. rewrite (bind_returns _ _ _ _ _ Hconstruct).
  pose proof (ok_stable other m m0 fp vs Hden eq_refl Hobjs0) as Hden0.
  destruct (ok_begin _ _ _ _ Hden0) as (it & Hbegin & Hit).
  pose proof (ok_bound _ _ _ _ Hden0) as Hbound.
  destruct (CopyList_loop_spec vs (range_bound other m0) m0 (<[tmp := []]> M) this tmp
              (before_begin tmp) it fp []) as (m1 & Hloop); try done.
  { by rewrite lookup_insert_eq. }
  { rewrite Hsz0 by done. done. }
  { intros b _ Hb. by apply elem_of_nil in Hb. }
  set (body := (it <~ range_begin other;; _)).
  destruct Hloop as [(Hrun & lt' & HM1 & Hsz1)|(Hrun & lt' & HM1 & Hvs & Hs1 & Hs2 & Hsz1)].
  - (* a copy threw: the temporary frees what was built *)
    assert (Hbody : body m0 = Throws m1).
    { unfold body. rewrite (bind_returns _ _ _ _ _ Hbegin).
      unfold bind at 1. by rewrite (bind_throws _ _ _ _ Hrun). }
    rewrite insert_insert_eq in HM1.
    destruct (destroy_spec m1 _ tmp lt' HM1) as (m2 & Hdestroy & HM2 & _ & Hgone & Hsz2).
    { by rewrite lookup_insert_eq. }
    exists m2. left. split; [by eapply finally_throws|].
    rewrite delete_insert_eq, delete_id in HM2 by done. split; [done|].
    intros d Hd. destruct (decide (d = tmp)) as [->|Hd'].
    + rewrite Hgone. symmetry. by eapply size_of_None_model.
    + rewrite Hsz2, Hsz1, Hsz0 by done. done.
  - (* every element was copied: swap, then the temporary goes *)
    simpl in HM1, Hs1, Hs2. rewrite insert_insert_eq in HM1.
    destruct (swap_spec m1 _ this tmp [] lt' HM1) as (m2 & Hswap & HM2 & _ & _ & Hsz2).
    { rewrite lookup_insert_ne by done. done. }
    { by rewrite lookup_insert_eq. }
    assert (Hbody : body m0 = Returns tt m2).
    { unfold body. rewrite (bind_returns _ _ _ _ _ Hbegin).
      unfold bind at 1. by rewrite (bind_returns _ _ _ _ _ Hrun). }
    destruct (destroy_spec m2 _ tmp [] HM2) as (m3 & Hdestroy & HM3 & _ & Hgone & Hsz3).
    { by rewrite lookup_insert_eq. }
    exists m3. right. split; [by eapply finally_returns|].
    exists lt'. split; [|split; [done|split]].
    + replace (<[this := lt']> M)
        with (delete tmp (<[tmp := []]> (<[this := lt']> (<[tmp := lt']> M)))); [done|].
      map_lookups.
    + rewrite Hsz3, Hsz2 by done.
      destruct (decide (this = tmp)); [done|].
      destruct (decide (this = this)); done.
    + intros d Hd. destruct (decide (d = tmp)) as [->|Hd'].
      * rewrite Hgone. symmetry. by eapply size_of_None_model.
      * rewrite Hsz3, Hsz2 by done.
        destruct (decide (d = tmp)); [done|]. destruct (decide (d = this)); [done|].
        rewrite Hsz1, Hsz0 by done. done.
Qed.

(** ** The constructors that copy, and copy assignment *)

Lemma construct_CopyList_spec `{TListOk L} m M (other : L) fp vs (body : N → Exec unit) :
  models m M → range_denotes other m fp vs →
  (∀ this m0, objs m0 !! this = Some empty_object → body this m0 = CopyList this other m0) →
  let this := fresh (dom (objs m)) in
  M !! this = None ∧
  ∃ m',
    (construct body m = Throws m' ∧ models m' M ∧ ∀ d, size_of m' d = size_of m d)
    ∨
    (construct body m = Returns this m' ∧
     ∃ l, models m' (<[this := l]> M) ∧ l.*2 = vs ∧
       size_of m' this = Some (Z.of_nat (length l)) ∧
       ∀ d, d ≠ this → size_of m' d = size_of m d).
Proof.
  intros HM Hden Hbody this.
  destruct (models_construct m M HM) as (HM0 & Hnone & Hs0 & Hsz0 & Hobjs0).
  fold this in HM0, Hnone, Hs0, Hsz0, Hobjs0.
  set (m0 := mkMemory (heap m) (<[this := empty_object]> (objs m)) (clock m)) in *.
  split; [done|].
  pose proof (ok_stable other m m0 fp vs Hden eq_refl Hobjs0) as Hden0.
  destruct (CopyList_spec m0 (<[this := []]> M) this other fp vs HM0) as (m1 & Hcopy);
    [by rewrite lookup_insert_eq|done|done|].
  assert (Hb : body this m0 = CopyList this other m0).
  { apply Hbody. unfold m0. simpl. by rewrite lookup_insert_eq. }
  unfold construct. fold this. fold m0. rewrite Hb.
  destruct Hcopy as [(Hrun & HM1 & Hsz1)|(Hrun & l & HM1 & Hvs & Hs1 & Hsz1)].
  - rewrite Hrun. eexists. left. split; [done|]. split.
    + rewrite <- (delete_id M this Hnone), <- (delete_insert_eq M this []).
      by apply models_release.
    + intros d. unfold size_of at 1. simpl. destruct (decide (d = this)) as [->|Hd].
      * rewrite lookup_delete_eq. symmetry. by eapply size_of_None_model.
      * rewrite lookup_delete_ne by done. fold (size_of m1 d).
        rewrite Hsz1, Hsz0 by done. done.
  - rewrite Hrun. exists m1. right. split; [done|]. exists l.
    rewrite insert_insert_eq in HM1. split; [done|]. split; [done|]. split; [done|].
    intros d Hd. rewrite Hsz1, Hsz0 by done. done.
Qed.

Lemma copy_constructor_fresh other this m0 :
  objs m0 !! this = Some empty_object →
  copy_constructor other this m0 = CopyList this (Ref other) m0.
Proof.
  intros Ho. unfold copy_constructor.
  rewrite (bind_returns _ _ _ _ _ (run_object _ _ _ Ho)). done.
Qed.

Lemma ListRef_denotes_model m M other l :
  models m M → M !! other = Some l →
  range_denotes (Ref other) m l.*1 l.*2.
Proof. intros HM Hl. exists l. split; [by eapply models_chain|done]. Qed.

Lemma operator_assign_spec m M this rhs la lb :
  models m M → counted m M → M !! this = Some la → M !! rhs = Some lb →
  ∃ m',
    (operator_assign this rhs m = Throws m' ∧ models m' M ∧
     ∀ d, size_of m' d = size_of m d)
    ∨
    (operator_assign this rhs m = Returns tt m' ∧
     ∃ l, models m' (<[this := l]> M) ∧ l.*2 = lb.*2 ∧
       size_of m' this = Some (Z.of_nat (length l)) ∧
       ∀ d, d ≠ this → size_of m' d = size_of m d).
Proof.
  intros HM HC Hla Hlb. unfold operator_assign.
  destruct (decide (this = rhs)) as [->|Hne].
  - rewrite bool_decide_eq_true_2 by done. exists m. right. split; [done|].
    exists la. rewrite insert_id by done. split; [done|].
    split; [congruence|]. split; [by apply HC|done].
  - rewrite bool_decide_eq_false_2 by done.
    destruct (construct_CopyList_spec m M (Ref rhs) lb.*1 lb.*2 (copy_constructor rhs) HM)
      as (Hnone & m1 & Hcons).
    { by eapply ListRef_denotes_model. }
    { intros. by apply copy_constructor_fresh. }
    set (tmp := fresh (dom (objs m))) in *.
    assert (Hthis : this ≠ tmp) by congruence.
    destruct Hcons as [(Hrun & HM1 & Hsz1)|(Hrun & l & HM1 & Hvs & Hs1 & Hsz1)].
    + exists m1. left. by rewrite (bind_throws _ _ _ _ Hrun).
    + rewrite (bind_returns _ _ _ _ _ Hrun).
      destruct (swap_spec m1 _ this tmp la l HM1) as (m2 & Hswap & HM2 & _ & _ & Hsz2).
      { by rewrite lookup_insert_ne. }
      { by rewrite lookup_insert_eq. }
      destruct (destroy_spec m2 _ tmp la HM2) as (m3 & Hdestroy & HM3 & _ & Hgone & Hsz3).
      { by rewrite lookup_insert_eq. }
      exists m3. right. split; [by eapply finally_returns|].
      exists l. split; [|split; [done|split]].
      * replace (<[this := l]> M)
          with (delete tmp (<[tmp := la]> (<[this := l]> (<[tmp := l]> M)))); [done|].
        map_lookups.
      * rewrite Hsz3, Hsz2 by done.
        destruct (decide (this = tmp)); [done|].
        destruct (decide (this = this)); done.
      * intros d Hd. destruct (decide (d = tmp)) as [->|Hd'].
        -- rewrite Hgone. symmetry. by eapply size_of_None_model.
        -- rewrite Hsz3, Hsz2 by done.
           destruct (decide (d = tmp)); [done|]. destruct (decide (d = this)); [done|].
           by rewrite Hsz1.
Qed.

(** ** The public operations keep the invariant *)

Lemma counted_update m m' M this l' :
  counted m M →
  size_of m' this = Some (Z.of_nat (length l')) →
  (∀ d, d ≠ this → size_of m' d = size_of m d) →
  counted m' (<[this := l']> M).
Proof.
  intros HC Hthis Hrest d l Hl. destruct (decide (this = d)) as [<-|Hne].
  - rewrite lookup_insert_eq in Hl. by injection Hl as <-.
  - rewrite lookup_insert_ne in Hl by done. rewrite Hrest by done. by apply HC.
Qed.

Lemma counted_same m m' M :
  counted m M → (∀ d, size_of m' d = size_of m d) → counted m' M.
Proof. intros HC Hsame d l Hl. rewrite Hsame. by apply HC. Qed.

Lemma InsertAfter_Inv m M this l k pos v :
  models m M → counted m M → M !! this = Some l → position this l k pos →
  let a := new_address m in
  if new_throws (clock m) v || negb (address_ok a)
  then InsertAfter this pos v m = Throws (mkMemory (heap m) (objs m) (S (clock m)))
  else ∃ m',
    InsertAfter this pos v m = Returns (Iterator (cell a)) m' ∧
    models m' (<[this := take k l ++ (a, v) :: drop k l]> M) ∧
    counted m' (<[this := take k l ++ (a, v) :: drop k l]> M) ∧
    heap m !! a = None ∧
    size_of m' this = Some (Z.of_nat (length l) + 1) ∧
    (∀ d, d ≠ this → size_of m' d = size_of m d).
Proof.
  intros HM HC Hl Hpos a.
  assert (Hlive : is_Some (objs m !! this)).
  { destruct (models_chain _ _ _ _ HM Hl) as (o & Ho & _). eauto. }
  pose proof (InsertAfter_general m M this this l k pos v HM Hl Hpos Hlive) as H.
  simpl in H. fold a in H.
  destruct (new_throws (clock m) v || negb (address_ok a)); [done|].
  destruct H as (m' & Hrun & HM' & Hfresh & _ & Hsize & _).
  assert (Hlen : length (take k l ++ (a, v) :: drop k l) = S (length l)).
  { rewrite length_app. simpl. rewrite length_take, length_drop.
    apply position_split in Hpos. lia. }
  assert (Hthis : size_of m' this = Some (Z.of_nat (length l) + 1)).
  { rewrite Hsize. destruct (decide (this = this)); [|done].
    rewrite (HC _ _ Hl). simpl. f_equal. apply size_t_small.
    pose proof (models_length _ _ _ _ HM' (lookup_insert_eq _ _ _)) as Hb.
    rewrite Hlen in Hb. lia. }
  assert (Hrest : ∀ d, d ≠ this → size_of m' d = size_of m d).
  { intros d Hd. rewrite Hsize. by destruct (decide (d = this)). }
  exists m'. split; [done|]. split; [done|]. split; [|done].
  apply (counted_update m m' M this _ HC); [|done]. rewrite Hthis, Hlen. f_equal. lia.
Qed.

Lemma EraseAfter_Inv m M this l k pos a v :
  models m M → counted m M → M !! this = Some l → position this l k pos →
  l !! k = Some (a, v) →
  ∃ m',
    EraseAfter this pos m = Returns (Iterator (first_ptr (drop (S k) l))) m' ∧
    models m' (<[this := delete k l]> M) ∧
    counted m' (<[this := delete k l]> M) ∧
    heap m' !! a = None ∧
    size_of m' this = Some (Z.of_nat (length l) - 1) ∧
    (∀ d, d ≠ this → size_of m' d = size_of m d).
Proof.
  intros HM HC Hl Hpos Hk.
  assert (Hlive : is_Some (objs m !! this)).
  { destruct (models_chain _ _ _ _ HM Hl) as (o & Ho & _). eauto. }
  destruct (EraseAfter_general m M this this l k pos a v HM Hl Hpos Hk Hlive)
    as (m' & Hrun & HM' & Hgone & _ & Hsize).
  pose proof (lookup_lt_Some _ _ _ Hk) as Hlt.
  assert (Hlen : length (delete k l) = (length l - 1)%nat).
  { rewrite length_delete by (by eauto). done. }
  assert (Hthis : size_of m' this = Some (Z.of_nat (length l) - 1)).
  { rewrite Hsize. destruct (decide (this = this)); [|done].
    rewrite (HC _ _ Hl). simpl. f_equal. apply size_t_small.
    pose proof (models_length _ _ _ _ HM Hl) as Hb. lia. }
  assert (Hrest : ∀ d, d ≠ this → size_of m' d = size_of m d).
  { intros d Hd. rewrite Hsize. by destruct (decide (d = this)). }
  exists m'. split; [done|]. split; [done|]. split; [|done].
  apply (counted_update m m' M this _ HC); [|done]. rewrite Hthis, Hlen. f_equal. lia.
Qed.

(** [PushFront] is [InsertAfter] at the sentinel. *)
Lemma PushFront_InsertAfter m this v :
  PushFront this v m = (InsertAfter this (before_begin this) v ;;; ret tt) m.
Proof.
  unfold PushFront, InsertAfter, bind, object, load, node_at, before_begin. simpl.
  destruct (objs m !! this) as [o|]; simpl; [|done].
  destruct (new_Node v (next_node (head_ o)) m) as [p m1| | |]; try done.
  destruct (set_next_node (sentinel_of this) p m1) as [? m2| | |]; try done.
  destruct (incr_size this m2) as [[] ?| | |]; done.
Qed.

Lemma size_of_tick m k d : size_of (mkMemory (heap m) (objs m) k) d = size_of m d.
Proof. done. Qed.

Lemma models_object m M this : models m M → is_Some (objs m !! this) → is_Some (M !! this).
Proof. intros (_ & Hobj & _). apply Hobj. Qed.

Lemma construct_default_spec m M :
  models m M → counted m M →
  let this := fresh (dom (objs m)) in
  M !! this = None ∧
  ∃ m', construct default_constructor m = Returns this m' ∧
    models m' (<[this := []]> M) ∧ counted m' (<[this := []]> M) ∧
    (∀ d, d ≠ this → size_of m' d = size_of m d).
Proof.
  intros HM HC this.
  destruct (models_construct m M HM) as (HM0 & Hnone & Hs0 & Hsz0 & _).
  split; [done|]. eexists. split; [done|]. split; [done|]. split; [|done].
  by apply (counted_update m _ M _ _ HC).
Qed.

(** Every call of a public operation that keeps the caller's side of the
    contract returns or throws, keeps the invariant, and leaves every
    container it does not touch as it was. *)
Lemma run_preserves m M c :
  models m M → counted m M → callable m c →
  ∃ m' M',
    (run c m = Returns tt m' ∨ run c m = Throws m') ∧
    models m' M' ∧ counted m' M' ∧
    (∀ d, d ∉ touched c → is_Some (M !! d) →
          M' !! d = M !! d ∧ size_of m' d = size_of m d).
Proof.
  intros HM HC Hcall. destruct c; simpl in Hcall.
  - (* default constructor *)
    destruct (construct_default_spec m M HM HC) as (Hnone & m' & Hrun & HM' & HC' & Hsz).
    exists m', (<[fresh (dom (objs m)) := []]> M). split.
    { left. simpl. by rewrite (bind_returns _ _ _ _ _ Hrun). }
    split; [done|]. split; [done|]. intros d _ [ld Hd].
    assert (d ≠ fresh (dom (objs m))) by congruence.
    rewrite lookup_insert_ne by done. split; [done|]. by apply Hsz.
  - (* constructor from an initializer list *)
    destruct (construct_CopyList_spec m M values [] values
                (initializer_list_constructor values) HM)
      as (Hnone & m' & [(Hrun & HM' & Hsz)|(Hrun & l & HM' & Hvs & Hs & Hsz)]);
      [done|done| |].
    + exists m', M. split; [right; simpl; by rewrite (bind_throws _ _ _ _ Hrun)|].
      split; [done|]. split; [by apply (counted_same m)|]. done.
    + exists m', (<[fresh (dom (objs m)) := l]> M).
      split; [left; simpl; by rewrite (bind_returns _ _ _ _ _ Hrun)|].
      split; [done|]. split; [by apply (counted_update m _ M _ _ HC)|].
      intros d _ [ld Hd]. assert (d ≠ fresh (dom (objs m))) by congruence.
      rewrite lookup_insert_ne by done. split; [done|]. by apply Hsz.
  - (* copy constructor *)
    destruct (models_object _ _ _ HM Hcall) as [lo Hlo].
    destruct (construct_CopyList_spec m M (Ref other) lo.*1 lo.*2
                (copy_constructor other) HM)
      as (Hnone & m' & [(Hrun & HM' & Hsz)|(Hrun & l & HM' & Hvs & Hs & Hsz)]).
    { by eapply ListRef_denotes_model. }
    { intros. by apply copy_constructor_fresh. }
    + exists m', M. split; [right; simpl; by rewrite (bind_throws _ _ _ _ Hrun)|].
      split; [done|]. split; [by apply (counted_same m)|]. done.
    + exists m', (<[fresh (dom (objs m)) := l]> M).
      split; [left; simpl; by rewrite (bind_returns _ _ _ _ _ Hrun)|].
      split; [done|]. split; [by apply (counted_update m _ M _ _ HC)|].
      intros d _ [ld Hd]. assert (d ≠ fresh (dom (objs m))) by congruence.
      rewrite lookup_insert_ne by done. split; [done|]. by apply Hsz.
  - (* destructor *)
    destruct (models_object _ _ _ HM Hcall) as [l Hl].
    destruct (destroy_spec m M this l HM Hl) as (m' & Hrun & HM' & _ & _ & Hsz).
    exists m', (delete this M). split; [by left|]. split; [done|]. split.
    + intros d ld Hd. apply lookup_delete_Some in Hd as [Hne Hd].
      rewrite Hsz by done. by apply HC.
    + intros d Hd _. assert (d ≠ this) by (intros ->; apply Hd; by left).
      rewrite lookup_delete_ne by done. split; [done|]. by apply Hsz.
  - (* PushFront *)
    destruct (models_object _ _ _ HM Hcall) as [l Hl].
    pose proof (InsertAfter_Inv m M this l 0 (before_begin this) val HM HC Hl eq_refl) as H.
    simpl in H. simpl run. rewrite PushFront_InsertAfter.
    destruct (new_throws (clock m) val || negb (address_ok (new_address m))).
    + eexists _, M. split; [right; by rewrite (bind_throws _ _ _ _ H)|].
      split; [by apply models_tick|]. split; [by apply (counted_same m)|]. done.
    + destruct H as (m' & Hrun & HM' & HC' & _ & _ & Hsz).
      eexists m', _. split; [left; by rewrite (bind_returns _ _ _ _ _ Hrun)|].
      split; [done|]. split; [done|].
      intros d Hd _. assert (d ≠ this) by (intros ->; apply Hd; by left).
      rewrite lookup_insert_ne by done. split; [done|]. by apply Hsz.
  - (* PopFront *)
    destruct Hcall as (l & Hc & Hlen). pose proof (models_lookup _ _ _ _ HM Hc) as Hl.
    destruct l as [|[a v] l]; [simpl in Hlen; lia|].
    destruct (EraseAfter_Inv m M this _ 0 (before_begin this) a v HM HC Hl eq_refl eq_refl)
      as (m' & Hrun & HM' & HC' & _ & _ & Hsz).
    eexists m', _. split.
    { left. simpl. unfold PopFront. by rewrite (bind_returns _ _ _ _ _ Hrun). }
    split; [done|]. split; [done|].
    intros d Hd _. assert (d ≠ this) by (intros ->; apply Hd; by left).
    rewrite lookup_insert_ne by done. split; [done|]. by apply Hsz.
  - (* InsertAfter *)
    destruct Hcall as (l & k & Hc & Hpos). pose proof (models_lookup _ _ _ _ HM Hc) as Hl.
    pose proof (InsertAfter_Inv m M this l k pos val HM HC Hl Hpos) as H.
    simpl in H. simpl run.
    destruct (new_throws (clock m) val || negb (address_ok (new_address m))).
    + eexists _, M. split; [right; by rewrite (bind_throws _ _ _ _ H)|].
      split; [by apply models_tick|]. split; [by apply (counted_same m)|]. done.
    + destruct H as (m' & Hrun & HM' & HC' & _ & _ & Hsz).
      eexists m', _. split; [left; by rewrite (bind_returns _ _ _ _ _ Hrun)|].
      split; [done|]. split; [done|].
      intros d Hd _. assert (d ≠ this) by (intros ->; apply Hd; by left).
      rewrite lookup_insert_ne by done. split; [done|]. by apply Hsz.
  - (* EraseAfter *)
    destruct Hcall as (l & k & Hc & Hpos & Hk).
    pose proof (models_lookup _ _ _ _ HM Hc) as Hl.
    destruct (lookup_lt_is_Some_2 l k Hk) as [[a v] Hlk].
    destruct (EraseAfter_Inv m M this l k pos a v HM HC Hl Hpos Hlk)
      as (m' & Hrun & HM' & HC' & _ & _ & Hsz).
    eexists m', _. split.
    { left. simpl. by rewrite (bind_returns _ _ _ _ _ Hrun). }
    split; [done|]. split; [done|].
    intros d Hd _. assert (d ≠ this) by (intros ->; apply Hd; by left).
    rewrite lookup_insert_ne by done. split; [done|]. by apply Hsz.
  - (* Clear *)
    destruct (models_object _ _ _ HM Hcall) as [l Hl].
    destruct (Clear_spec m M this l HM Hl) as (m' & Hrun & HM' & _ & Hsz & Hzero).
    eexists m', _. split; [by left|]. split; [done|]. split.
    + apply (counted_update m _ M _ _ HC); [|done]. apply Hzero. by apply HC.
    + intros d Hd _. assert (d ≠ this) by (intros ->; apply Hd; by left).
      rewrite lookup_insert_ne by done. split; [done|]. by apply Hsz.
  - (* swap *)
    destruct Hcall as (H1 & H2).
    destruct (models_object _ _ _ HM H1) as [la Hla].
    destruct (models_object _ _ _ HM H2) as [lb Hlb].
    destruct (swap_spec m M this other la lb HM Hla Hlb) as (m' & Hrun & HM' & _ & _ & Hsz).
    eexists m', _. split; [by left|]. split; [done|]. split.
    + intros d ld Hd. rewrite Hsz. destruct (decide (d = other)) as [->|Hn1].
      { rewrite lookup_insert_eq in Hd. injection Hd as <-. by apply HC. }
      rewrite lookup_insert_ne in Hd by done.
      destruct (decide (d = this)) as [->|Hn2].
      { rewrite lookup_insert_eq in Hd. injection Hd as <-. by apply HC. }
      rewrite lookup_insert_ne in Hd by done. by apply HC.
    + intros d Hd _.
      assert (d ≠ this) by (intros ->; apply Hd; by left).
      assert (d ≠ other) by (intros ->; apply Hd; right; by left).
      rewrite !lookup_insert_ne by done. split; [done|]. rewrite Hsz.
      destruct (decide (d = other)); [done|]. by destruct (decide (d = this)).
  - (* copy assignment *)
    destruct Hcall as (H1 & H2).
    destruct (models_object _ _ _ HM H1) as [la Hla].
    destruct (models_object _ _ _ HM H2) as [lb Hlb].
    destruct (operator_assign_spec m M this rhs la lb HM HC Hla Hlb)
      as (m' & [(Hrun & HM' & Hsz)|(Hrun & l & HM' & Hvs & Hs & Hsz)]).
    + exists m', M. split; [by right|]. split; [done|].
      split; [by apply (counted_same m)|]. done.
    + eexists m', _. split; [by left|]. split; [done|].
      split; [by apply (counted_update m _ M _ _ HC)|].
      intros d Hd _. assert (d ≠ this) by (intros ->; apply Hd; by left).
      rewrite lookup_insert_ne by done. split; [done|]. by apply Hsz.
Qed.

(** ** Traversal and comparison *)

Lemma run_operator_deref m a v r :
  heap m !! a = Some (mkNode v r) → operator_deref (Iterator (cell a)) m = Returns v m.
Proof.
  intros Ha. unfold operator_deref.
  assert (Hn : node_at m (node_ (Iterator (cell a))) = Some (mkNode v r)) by done.
  by rewrite (bind_returns _ _ _ _ _ (run_load _ _ _ Hn)).
Qed.

Lemma run_operator_incr m a v r :
  heap m !! a = Some (mkNode v r) →
  operator_incr (Iterator (cell a)) m = Returns (Iterator r) m.
Proof.
  intros Ha. unfold operator_incr. simpl. unfold bind at 1. simpl.
  assert (Hn : node_at m (cell a) = Some (mkNode v r)) by done.
  by rewrite (bind_returns _ _ _ _ _ (run_load _ _ _ Hn)).
Qed.

Lemma traverse_loop_spec m l : ∀ fuel p,
  chain (heap m) p l → (length l ≤ fuel)%nat →
  traverse_loop fuel (Iterator p) m = Returns l.*2 m.
Proof.
  induction l as [|[a v] l IH]; intros fuel p Hc Hfuel; unfold chain in Hc; simpl in Hc.
  - subst p. by destruct fuel.
  - destruct Hc as (-> & r & Ha & Hr).
    destruct fuel as [|fuel]; [simpl in Hfuel; lia|]. simpl.
    rewrite (bind_returns _ _ _ _ _ (run_operator_deref _ _ _ _ Ha)).
    rewrite (bind_returns _ _ _ _ _ (run_operator_incr _ _ _ _ Ha)).
    rewrite (bind_returns _ _ _ _ _ (IH fuel r Hr ltac:(simpl in Hfuel; lia))).
    done.
Qed.

Lemma run_begin m this l :
  chain_of m this l →
  ∃ p, begin this m = Returns (Iterator p) m ∧ chain (heap m) p l.
Proof.
  intros (o & Ho & Hc). exists (next_node (head_ o)). split; [|done].
  unfold begin. by rewrite (bind_returns _ _ _ _ _ (run_object _ _ _ Ho)).
Qed.

Lemma traverse_spec m this l :
  chain_of m this l → traverse this m = Returns l.*2 m.
Proof.
  intros H. destruct (run_begin _ _ _ H) as (p & Hb & Hc). unfold traverse.
  rewrite (bind_returns _ _ _ _ _ Hb).
  unfold bind. apply traverse_loop_spec; [done|]. by eapply chain_length_heap.
Qed.

Lemma GetSize_spec m this z : size_of m this = Some z → GetSize this m = Returns z m.
Proof.
  unfold size_of, GetSize. intros H. destruct (objs m !! this) as [o|] eqn:E; [|done].
  injection H as <-. by rewrite (bind_returns _ _ _ _ _ (run_object _ _ _ E)).
Qed.

Lemma IsEmpty_spec m this z :
  size_of m this = Some z → IsEmpty this m = Returns (z =? 0) m.
Proof.
  unfold size_of, IsEmpty. intros H. destruct (objs m !! this) as [o|] eqn:E; [|done].
  injection H as <-. by rewrite (bind_returns _ _ _ _ _ (run_object _ _ _ E)).
Qed.

Lemma std_equal_spec m l1 : ∀ fuel p1 p2 l2,
  chain (heap m) p1 l1 → chain (heap m) p2 l2 → (length l1 ≤ fuel)%nat →
  std_equal fuel (Iterator p1) end_ (Iterator p2) m =
    match equal_along l1.*2 l2.*2 with
    | Some b => Returns b m
    | None => Undefined
    end.
Proof.
  induction l1 as [|[a x] l1 IH]; intros fuel p1 p2 l2 H1 H2 Hfuel; unfold chain in H1, H2; simpl in H1.
  - subst p1. by destruct fuel.
  - destruct H1 as (-> & r1 & Ha & Hr1).
    destruct fuel as [|fuel]; [simpl in Hfuel; lia|]. simpl.
    rewrite (bind_returns _ _ _ _ _ (run_operator_deref _ _ _ _ Ha)).
    destruct l2 as [|[b y] l2]; simpl in H2.
    + subst p2. done.
    + destruct H2 as (-> & r2 & Hb & Hr2).
      rewrite (bind_returns _ _ _ _ _ (run_operator_deref _ _ _ _ Hb)).
      simpl. destruct (T_eq x y); simpl; [|done].
      rewrite (bind_returns _ _ _ _ _ (run_operator_incr _ _ _ _ Ha)).
      rewrite (bind_returns _ _ _ _ _ (run_operator_incr _ _ _ _ Hb)).
      apply IH; [done|done|]. simpl in Hfuel. lia.
Qed.

Lemma std_lexicographical_compare_spec m l1 : ∀ fuel p1 p2 l2,
  chain (heap m) p1 l1 → chain (heap m) p2 l2 → (length l1 ≤ fuel)%nat →
  std_lexicographical_compare fuel (Iterator p1) end_ (Iterator p2) end_ m =
    Returns (lexicographical_lt l1.*2 l2.*2) m.
Proof.
  induction l1 as [|[a x] l1 IH]; intros fuel p1 p2 l2 H1 H2 Hfuel; unfold chain in H1, H2; simpl in H1.
  - subst p1. destruct l2 as [|[b y] l2]; simpl in H2.
    + subst p2. by destruct fuel.
    + destruct H2 as (-> & _). by destruct fuel.
  - destruct H1 as (-> & r1 & Ha & Hr1).
    destruct l2 as [|[b y] l2]; simpl in H2.
    + subst p2. by destruct fuel.
    + destruct H2 as (-> & r2 & Hb & Hr2).
      destruct fuel as [|fuel]; [simpl in Hfuel; lia|]. simpl.
      rewrite (bind_returns _ _ _ _ _ (run_operator_deref _ _ _ _ Ha)).
      rewrite (bind_returns _ _ _ _ _ (run_operator_deref _ _ _ _ Hb)).
      destruct (T_lt x y); [done|]. destruct (T_lt y x); [done|].
      rewrite (bind_returns _ _ _ _ _ (run_operator_incr _ _ _ _ Ha)).
      rewrite (bind_returns _ _ _ _ _ (run_operator_incr _ _ _ _ Hb)).
      apply IH; [done|done|]. simpl in Hfuel. lia.
Qed.

Lemma operator_eq_spec m lhs rhs l1 l2 :
  chain_of m lhs l1 → chain_of m rhs l2 →
  operator_eq lhs rhs m =
    match equal_along l1.*2 l2.*2 with
    | Some b => Returns b m
    | None => Undefined
    end.
Proof.
  intros H1 H2. destruct (run_begin _ _ _ H1) as (p1 & Hb1 & Hc1).
  destruct (run_begin _ _ _ H2) as (p2 & Hb2 & Hc2). unfold operator_eq.
  rewrite (bind_returns _ _ _ _ _ Hb1), (bind_returns _ _ _ _ _ Hb2).
  unfold bind. apply std_equal_spec; [done|done|]. by eapply chain_length_heap.
Qed.

Lemma operator_lt_spec m lhs rhs l1 l2 :
  chain_of m lhs l1 → chain_of m rhs l2 →
  operator_lt lhs rhs m = Returns (lexicographical_lt l1.*2 l2.*2) m.
Proof.
  intros H1 H2. destruct (run_begin _ _ _ H1) as (p1 & Hb1 & Hc1).
  destruct (run_begin _ _ _ H2) as (p2 & Hb2 & Hc2). unfold operator_lt.
  rewrite (bind_returns _ _ _ _ _ Hb1), (bind_returns _ _ _ _ _ Hb2).
  unfold bind. apply std_lexicographical_compare_spec; [done|done|].
  by eapply chain_length_heap.
Qed.

(** With a reflexive [==], sequences of the same length are compared as
    the specification says. *)
Lemma equal_along_same_length xs ys :
  length xs = length ys → equal_along xs ys = Some (same_elements xs ys).
Proof.
  revert ys. induction xs as [|x xs IH]; intros [|y ys] Hlen; simpl in *; try done.
  destruct (T_eq x y); simpl; [|done]. apply IH. lia.
Qed.

(** ** Programs *)

Lemma Inv_start k : Inv (mkMemory ∅ ∅ k).
Proof.
  exists ∅. split; [|done]. repeat split; simpl; try done.
  intros this [o Ho]. by rewrite lookup_empty in Ho.
Qed.


Lemma same_list_trans m1 m2 m3 d :
  same_list m1 m2 d → same_list m2 m3 d → same_list m1 m3 d.
Proof.
  intros (Hs1 & Hc1) (Hs2 & Hc2). split; [congruence|]. intros l Hl. by apply Hc2, Hc1.
Qed.

Lemma same_list_models m m' M M' d :
  models m M → models m' M' → M' !! d = M !! d → size_of m' d = size_of m d →
  same_list m m' d.
Proof.
  intros HM HM' Hd Hs. split; [done|]. intros l Hl.
  apply (models_chain _ _ _ _ HM'). rewrite Hd. by eapply models_lookup.
Qed.


Lemma Inv_size m this l :
  Inv m → chain_of m this l → size_of m this = Some (Z.of_nat (length l)).
Proof. intros (M & HM & HC) Hl. apply HC. by eapply models_lookup. Qed.

(** A call changes only the containers it is called on. *)
Lemma run_frame m c m' :
  Inv m → callable m c → run c m = Returns tt m' ∨ run c m = Throws m' →
  Inv m' ∧ ∀ d, d ∉ touched c → is_Some (objs m !! d) → same_list m m' d.
Proof.
  intros (M & HM & HC) Hcall Hrun.
  destruct (run_preserves m M c HM HC Hcall) as (m'' & M' & Hrun' & HM' & HC' & Hframe).
  assert (m'' = m') as ->.
  { destruct Hrun as [Hrun|Hrun], Hrun' as [Hrun'|Hrun']; congruence. }
  split; [by exists M'|]. intros d Hd Hlive.
  destruct (Hframe d Hd (models_object _ _ _ HM Hlive)) as (HMd & Hsd).
  by eapply same_list_models.
Qed.

Lemma execution_Inv m tr m' : Inv m → execution m tr m' → Inv m'.
Proof.
  intros HI Hex. induction Hex as [m|m c m1 tr m' Hcall Hrun _ IH|m c m1 tr m' Hcall Hrun _ IH].
  - done.
  - apply IH. eapply run_frame; eauto.
  - apply IH. eapply run_frame; eauto.
Qed.

Lemma reachable_Inv m : reachable m → Inv m.
Proof. intros (tr & Hex). eapply execution_Inv; [apply Inv_start|done]. Qed.


(** What an insertion or a removal does to the stored counts. *)
Lemma element_call_size m c m' :
  Inv m → callable m c → element_call c = true →
  (run c m = Returns tt m' →
   ∀ d z, size_of m d = Some z → size_of m' d = Some (z + net_change d c)) ∧
  (run c m = Throws m' → ∀ d, size_of m' d = size_of m d).
Proof.
  intros (M & HM & HC) Hcall Helem. destruct c; try done; simpl in Hcall.
  - (* PushFront *)
    destruct (models_object _ _ _ HM Hcall) as [l Hl].
    pose proof (InsertAfter_Inv m M this l 0 (before_begin this) val HM HC Hl eq_refl) as H.
    simpl in H. simpl run. rewrite PushFront_InsertAfter.
    destruct (new_throws (clock m) val || negb (address_ok (new_address m))).
    + rewrite (bind_throws _ _ _ _ H). split; [done|]. by intros [= <-].
    + destruct H as (m1 & Hrun & _ & _ & _ & Hs & Hsz).
      rewrite (bind_returns _ _ _ _ _ Hrun). split; [|done].
      intros [= <-] d z Hz. simpl. destruct (decide (this = d)) as [<-|Hne].
      * rewrite (HC _ _ Hl) in Hz. injection Hz as <-. done.
      * rewrite Hsz by done. rewrite Hz. f_equal. lia.
  - (* PopFront *)
    destruct Hcall as (l & Hc & Hlen). pose proof (models_lookup _ _ _ _ HM Hc) as Hl.
    destruct l as [|[a v] l]; [simpl in Hlen; lia|].
    destruct (EraseAfter_Inv m M this _ 0 (before_begin this) a v HM HC Hl eq_refl eq_refl)
      as (m1 & Hrun & _ & _ & _ & Hs & Hsz).
    simpl run. unfold PopFront. rewrite (bind_returns _ _ _ _ _ Hrun). split; [|done].
    intros [= <-] d z Hz. simpl. destruct (decide (this = d)) as [<-|Hne].
    + rewrite (HC _ _ Hl) in Hz. injection Hz as <-. rewrite Hs. f_equal.
    + rewrite Hsz by done. rewrite Hz. f_equal. lia.
  - (* InsertAfter *)
    destruct Hcall as (l & k & Hc & Hpos). pose proof (models_lookup _ _ _ _ HM Hc) as Hl.
    pose proof (InsertAfter_Inv m M this l k pos val HM HC Hl Hpos) as H.
    simpl in H. simpl run.
    destruct (new_throws (clock m) val || negb (address_ok (new_address m))).
    + rewrite (bind_throws _ _ _ _ H). split; [done|]. by intros [= <-].
    + destruct H as (m1 & Hrun & _ & _ & _ & Hs & Hsz).
      rewrite (bind_returns _ _ _ _ _ Hrun). split; [|done].
      intros [= <-] d z Hz. simpl. destruct (decide (this = d)) as [<-|Hne].
      * rewrite (HC _ _ Hl) in Hz. injection Hz as <-. done.
      * rewrite Hsz by done. rewrite Hz. f_equal. lia.
  - (* EraseAfter *)
    destruct Hcall as (l & k & Hc & Hpos & Hk).
    pose proof (models_lookup _ _ _ _ HM Hc) as Hl.
    destruct (lookup_lt_is_Some_2 l k Hk) as [[a v] Hlk].
    destruct (EraseAfter_Inv m M this l k pos a v HM HC Hl Hpos Hlk)
      as (m1 & Hrun & _ & _ & _ & Hs & Hsz).
    simpl run. rewrite (bind_returns _ _ _ _ _ Hrun). split; [|done].
    intros [= <-] d z Hz. simpl. destruct (decide (this = d)) as [<-|Hne].
    + rewrite (HC _ _ Hl) in Hz. injection Hz as <-. rewrite Hs. f_equal.
    + rewrite Hsz by done. rewrite Hz. f_equal. lia.
Qed.

(** The count follows the insertions and removals. *)
Lemma execution_count m tr m' this z :
  Inv m → execution m tr m' → forallb (λ ct, element_call ct.1) tr = true →
  size_of m this = Some z → size_of m' this = Some (z + net_count this tr).
Proof.
  intros HI Hex. revert z.
  induction Hex as [m|m c m1 tr m' Hcall Hrun _ IH|m c m1 tr m' Hcall Hrun _ IH];
    intros z Hall Hz; simpl in *.
  - rewrite Hz. f_equal. lia.
  - apply andb_true_iff in Hall as (Hc & Hall).
    destruct (element_call_size m c m1 HI Hcall Hc) as (Hret & _).
    destruct (run_frame m c m1 HI Hcall (or_introl Hrun)) as (HI1 & _).
    rewrite (IH HI1 _ Hall (Hret Hrun this z Hz)). f_equal. lia.
  - apply andb_true_iff in Hall as (Hc & Hall).
    destruct (element_call_size m c m1 HI Hcall Hc) as (_ & Hthrow).
    destruct (run_frame m c m1 HI Hcall (or_intror Hrun)) as (HI1 & _).
    rewrite (IH HI1 z Hall); [f_equal; lia|]. rewrite Hthrow by done. done.
Qed.

(** ** The computed chain is the chain *)

Lemma chain_from_sound fuel : ∀ h p l, chain_from fuel h p = Some l → chain h p l.
Proof.
  induction fuel as [|fuel IH]; intros h p l; destruct p as [| |a]; simpl; try done.
  - by intros [= <-].
  - by intros [= <-].
  - destruct (h !! a) as [[v r]|] eqn:Ha; [|done]. simpl.
    destruct (chain_from fuel h r) as [l'|] eqn:E; [|done]. simpl. intros [= <-].
    split; [done|]. exists r. split; [done|]. by apply IH.
Qed.

Lemma nodes_of_sound m this l : nodes_of m this = Some l → chain_of m this l.
Proof.
  unfold nodes_of. destruct (objs m !! this) as [o|] eqn:Ho; [|done].
  intros H. exists o. split; [done|]. by eapply chain_from_sound.
Qed.

Lemma chain_from_complete h p l : ∀ fuel,
  chain h p l → (length l ≤ fuel)%nat → chain_from fuel h p = Some l.
Proof.
  revert p. induction l as [|[a v] l IH]; intros p fuel Hc Hfuel;
    unfold chain in Hc; simpl in Hc.
  - subst p. by destruct fuel.
  - destruct Hc as (-> & r & Ha & Hr).
    destruct fuel as [|fuel]; [simpl in Hfuel; lia|]. simpl. rewrite Ha. simpl.
    rewrite (IH r fuel Hr); [done|]. simpl in Hfuel. lia.
Qed.

Lemma nodes_of_complete m this l : chain_of m this l → nodes_of m this = Some l.
Proof.
  intros (o & Ho & Hc). unfold nodes_of. rewrite Ho.
  apply chain_from_complete; [done|]. by eapply chain_length_heap.
Qed.

(** * The claims *)

Lemma Inv_models m this l :
  Inv m → chain_of m this l → ∃ M, models m M ∧ counted m M ∧ M !! this = Some l.
Proof.
  intros (M & HM & HC) Hl. exists M. split; [done|]. split; [done|].
  by eapply models_lookup.
Qed.

Lemma same_list_insert m m' M l' this d :
  models m M → models m' (<[this := l']> M) → d ≠ this →
  size_of m' d = size_of m d → same_list m m' d.
Proof.
  intros HM HM' Hne Hs. eapply same_list_models; [done|done| |done].
  by rewrite lookup_insert_ne.
Qed.

(** C5.  [InsertAfter(pos, v)] with [pos] at a node of the container (the
    sentinel, [k = 0], or the [k]-th real node) either throws because
    [new Node] throws, or returns a handle to a new node that holds [v] and
    sits right after that node: the chain is the old one, same nodes, same
    values, same order, with the new node after the first [k]; the count is
    one more; every other container is as before.  At [before_begin()] the
    value becomes the first one of the traversal. *)
Theorem InsertAfter_splices m this l k pos v :
  Inv m → chain_of m this l → position this l k pos →
  match InsertAfter this pos v m with
  | Returns r m' =>
      ∃ a, r = Iterator (cell a) ∧ heap m !! a = None ∧
        chain_of m' this (take k l ++ (a, v) :: drop k l) ∧
        traverse this m' = Returns (take k l.*2 ++ v :: drop k l.*2) m' ∧
        GetSize this m = Returns (Z.of_nat (length l)) m ∧
        GetSize this m' = Returns (Z.of_nat (length l) + 1) m' ∧
        (∀ d, d ≠ this → is_Some (objs m !! d) → same_list m m' d) ∧
        Inv m' ∧
        (pos = before_begin this → traverse this m' = Returns (v :: l.*2) m')
  | Throws _ => new_throws (clock m) v || negb (address_ok (new_address m)) = true
  | Undefined | OutOfFuel => False
  end.
Proof.
  intros HI Hl Hpos. destruct (Inv_models _ _ _ HI Hl) as (M & HM & HC & HMl).
  pose proof (InsertAfter_Inv m M this l k pos v HM HC HMl Hpos) as H. simpl in H.
  destruct (new_throws (clock m) v || negb (address_ok (new_address m))).
  { by rewrite H. }
  destruct H as (m' & -> & HM' & HC' & Hfresh & Hs & Hsz).
  set (a := new_address m) in *. exists a.
  assert (Hc' : chain_of m' this (take k l ++ (a, v) :: drop k l)).
  { eapply models_chain; [done|]. by rewrite lookup_insert_eq. }
  assert (Htr : traverse this m' = Returns (take k l.*2 ++ v :: drop k l.*2) m').
  { rewrite (traverse_spec _ _ _ Hc'). by rewrite fmap_app, fmap_cons, fmap_take, fmap_drop. }
  split; [done|]. split; [done|]. split; [done|]. split; [done|].
  split; [by apply GetSize_spec, HC|]. split; [by apply GetSize_spec|].
  split; [|split; [by exists (<[this := take k l ++ (a, v) :: drop k l]> M)|]].
  - intros d Hd _. eapply same_list_insert; eauto.
  - intros ->. unfold position in Hpos. destruct k as [|j]; simpl in Hpos.
    + by rewrite take_0, drop_0 in Htr.
    + destruct (l !! j); done.
Qed.

(** C6.  [EraseAfter(pos)] with [pos] at a node of the container that has a
    successor (the real node number [k], [(a, v)]) returns; that node is
    gone from the chain and from the heap, all other nodes are in the chain
    as before and in the same order, the count is one less, the handle
    returned references the node that now follows [pos] (or nothing, the
    end), and every other container is as before.  At [before_begin()]
    the first element goes, and a container of one element becomes
    empty. *)
Theorem EraseAfter_unlinks m this l k pos a v :
  Inv m → chain_of m this l → position this l k pos → l !! k = Some (a, v) →
  ∃ r m',
    EraseAfter this pos m = Returns r m' ∧
    r = Iterator (first_ptr (drop k (delete k l))) ∧
    chain_of m' this (delete k l) ∧
    heap m' !! a = None ∧
    traverse this m' = Returns (delete k l.*2) m' ∧
    GetSize this m = Returns (Z.of_nat (length l)) m ∧
    GetSize this m' = Returns (Z.of_nat (length l) - 1) m' ∧
    (∀ d, d ≠ this → is_Some (objs m !! d) → same_list m m' d) ∧
    Inv m' ∧
    (pos = before_begin this →
       traverse this m' = Returns (tail l.*2) m' ∧
       (length l = 1%nat →
          IsEmpty this m' = Returns true m' ∧ begin this m' = Returns end_ m')).
Proof.
  intros HI Hl Hpos Hk. destruct (Inv_models _ _ _ HI Hl) as (M & HM & HC & HMl).
  destruct (EraseAfter_Inv m M this l k pos a v HM HC HMl Hpos Hk)
    as (m' & Hrun & HM' & HC' & Hgone & Hs & Hsz).
  pose proof (lookup_lt_Some _ _ _ Hk) as Hlt.
  assert (Hc' : chain_of m' this (delete k l)).
  { eapply models_chain; [done|]. by rewrite lookup_insert_eq. }
  assert (Htr : traverse this m' = Returns (delete k l.*2) m').
  { rewrite (traverse_spec _ _ _ Hc'). by rewrite !delete_take_drop, fmap_app, fmap_take, fmap_drop. }
  eexists _, m'. split; [done|]. split; [by rewrite drop_delete_same by lia|].
  split; [done|]. split; [done|]. split; [done|].
  split; [by apply GetSize_spec, HC|]. split; [by apply GetSize_spec|].
  split; [|split; [by exists (<[this := delete k l]> M)|]].
  - intros d Hd _. eapply same_list_insert; eauto.
  - intros ->. unfold position in Hpos. destruct k as [|j]; simpl in Hpos.
    + destruct l as [|x l]; [done|]. simpl in *. split; [done|].
      intros Hlen. destruct l; [|done]. split.
      * rewrite (IsEmpty_spec _ _ _ Hs). done.
      * destruct (run_begin _ _ _ Hc') as (p & Hb & Hp). by rewrite Hb, Hp.
    + destruct (l !! j); done.
Qed.

(** C10.  When [new Node(v, ...)] throws in [InsertAfter(pos, v)], and only
    then, the call throws, and nothing has been linked or counted yet: the
    heap and every container object are exactly as before the call. *)
Theorem InsertAfter_throw_atomic m this l k pos v :
  Inv m → chain_of m this l → position this l k pos →
  if new_throws (clock m) v || negb (address_ok (new_address m))
  then ∃ m',
    InsertAfter this pos v m = Throws m' ∧
    heap m' = heap m ∧ objs m' = objs m ∧
    chain_of m' this l ∧ traverse this m' = Returns l.*2 m' ∧
    GetSize this m' = Returns (Z.of_nat (length l)) m' ∧
    ∀ d, same_list m m' d
  else ∃ r m', InsertAfter this pos v m = Returns r m'.
Proof.
  intros HI Hl Hpos. destruct (Inv_models _ _ _ HI Hl) as (M & HM & HC & HMl).
  pose proof (InsertAfter_Inv m M this l k pos v HM HC HMl Hpos) as H. simpl in H.
  destruct (new_throws (clock m) v || negb (address_ok (new_address m))).
  - eexists. split; [done|]. simpl. split; [done|]. split; [done|].
    assert (Hl' : chain_of (mkMemory (heap m) (objs m) (S (clock m))) this l) by done.
    split; [done|]. split; [by apply traverse_spec|].
    split; [apply GetSize_spec; by apply (HC _ _ HMl)|]. done.
  - destruct H as (m' & Hrun & _). eauto.
Qed.




Lemma same_list_all m m' M :
  models m M → models m' M → (∀ d, size_of m' d = size_of m d) → ∀ d, same_list m m' d.
Proof. intros HM HM' Hs d. by eapply same_list_models. Qed.





(** C2.  In every memory a program can reach with the public operations,
    called within their contract, every container has a chain that starts
    at the link of its sentinel, visits no node twice and ends in an empty
    link, and its stored count is the number of nodes of that chain.
    After further insertions and removals, [GetSize()] is the count before
    plus the insertions that returned minus the removals. *)
Theorem count_is_chain_length m this o tr m' :
  reachable m → objs m !! this = Some o →
  execution m tr m' → forallb (λ ct, element_call ct.1) tr = true →
  (∃ l, chain (heap m) (next_node (head_ o)) l ∧ NoDup l.*1 ∧
        size_ o = Z.of_nat (length l) ∧
        GetSize this m = Returns (Z.of_nat (length l)) m) ∧
  GetSize this m' = Returns (size_ o + net_count this tr) m' ∧
  reachable m'.
Proof.
  intros Hreach Ho Hex Hall. pose proof (reachable_Inv _ Hreach) as HI.
  split; [|split].
  - destruct HI as (M & HM & HC).
    destruct (models_object _ _ this HM) as [l Hl]; [by eauto|].
    pose proof (models_chain _ _ _ _ HM Hl) as Hc.
    pose proof (chain_of_lookup _ _ _ _ Ho Hc) as Hc'.
    pose proof (HC _ _ Hl) as Hs.
    exists l. split; [done|]. split; [by eapply chain_NoDup|].
    split; [|by apply GetSize_spec].
    unfold size_of in Hs. rewrite Ho in Hs. by injection Hs.
  - apply GetSize_spec. eapply execution_count; [done|done|done|].
    unfold size_of. by rewrite Ho.
  - destruct Hreach as (tr0 & Hex0). exists (tr0 ++ tr).
    clear -Hex0 Hex. induction Hex0; simpl; [done| |]; econstructor; eauto.
Qed.

Lemma lexicographical_lt_last xs x y :
  (∀ z, T_lt z z = false) →
  lexicographical_lt (xs ++ [x]) (xs ++ [y]) = T_lt x y.
Proof.
  intros Hirr. induction xs as [|z xs IH]; simpl.
  - destruct (T_lt x y); [done|]. by destruct (T_lt y x).
  - rewrite Hirr. done.
Qed.

Lemma equal_along_last xs x y :
  (∀ z, T_eq z z = true) →
  equal_along (xs ++ [x]) (xs ++ [y]) = Some (T_eq x y).
Proof.
  intros Hrefl. induction xs as [|z xs IH]; simpl.
  - by destruct (T_eq x y).
  - rewrite Hrefl. done.
Qed.

Lemma equal_along_prefix xs ys :
  (∀ z, T_eq z z = true) → equal_along xs (xs ++ ys) = Some true.
Proof.
  intros Hrefl. induction xs as [|z xs IH]; simpl; [done|]. by rewrite Hrefl.
Qed.

(** What [operator==] does with a left operand that is a prefix of the
    right one: it never looks at the rest of the right operand. *)
Lemma operator_eq_prefix m lhs rhs l1 l2 extra :
  (∀ z, T_eq z z = true) →
  chain_of m lhs l1 → chain_of m rhs l2 → l2.*2 = l1.*2 ++ extra →
  operator_eq lhs rhs m = Returns true m.
Proof.
  intros Hrefl H1 H2 Hpre. rewrite (operator_eq_spec _ _ _ _ _ H1 H2), Hpre.
  by rewrite equal_along_prefix.
Qed.

(** C9.  [operator<] is the lexicographic order of the two traversals,
    built from the elementwise [<]; [<=], [>] and [>=] are derived from it:
    [a <= b] is [!(b < a)], [a > b] is [b < a], [a >= b] is [!(a < b)].
    Two empty containers compare equal.  Two containers that differ in
    the last element only compare as their last elements do: for [==],
    [!=] and [<] (with an irreflexive [<] and a reflexive [==] on the
    elements). *)
Theorem ordering_is_lexicographical m lhs rhs l1 l2 :
  chain_of m lhs l1 → chain_of m rhs l2 →
  operator_lt lhs rhs m = Returns (lexicographical_lt l1.*2 l2.*2) m ∧
  operator_le lhs rhs m = Returns (negb (lexicographical_lt l2.*2 l1.*2)) m ∧
  operator_gt lhs rhs m = Returns (lexicographical_lt l2.*2 l1.*2) m ∧
  operator_ge lhs rhs m = Returns (negb (lexicographical_lt l1.*2 l2.*2)) m ∧
  (l1 = [] → l2 = [] →
     operator_eq lhs rhs m = Returns true m ∧ operator_ne lhs rhs m = Returns false m ∧
     operator_lt lhs rhs m = Returns false m ∧ operator_lt rhs lhs m = Returns false m) ∧
  (∀ xs x y,
     (∀ z, T_lt z z = false) → (∀ z, T_eq z z = true) →
     l1.*2 = xs ++ [x] → l2.*2 = xs ++ [y] →
     operator_eq lhs rhs m = Returns (T_eq x y) m ∧
     operator_ne lhs rhs m = Returns (negb (T_eq x y)) m ∧
     operator_lt lhs rhs m = Returns (T_lt x y) m ∧
     operator_gt lhs rhs m = Returns (T_lt y x) m).
Proof.
  intros H1 H2.
  pose proof (operator_lt_spec _ _ _ _ _ H1 H2) as Hlt.
  pose proof (operator_lt_spec _ _ _ _ _ H2 H1) as Hgt.
  pose proof (operator_eq_spec _ _ _ _ _ H1 H2) as Heq.
  split; [done|].
  split; [unfold operator_le; by rewrite (bind_returns _ _ _ _ _ Hgt)|].
  split; [done|].
  split; [unfold operator_ge; by rewrite (bind_returns _ _ _ _ _ Hlt)|].
  split.
  - intros -> ->. simpl in *. split; [done|].
    split; [unfold operator_ne; by rewrite (bind_returns _ _ _ _ _ Heq)|]. done.
  - intros xs x y Hirr Hrefl E1 E2. rewrite E1, E2 in *.
    rewrite equal_along_last in Heq by done.
    rewrite lexicographical_lt_last in Hlt, Hgt by done.
    split; [done|].
    split; [unfold operator_ne; by rewrite (bind_returns _ _ _ _ _ Heq)|]. done.
Qed.

(** * Further properties *)

(** ** Heap nodes and chains *)

(** The node at a place of a chain: its value, and a link to what
    follows. *)
Lemma chain_node h p l i b v :
  chain h p l → l !! i = Some (b, v) →
  h !! b = Some (mkNode v (first_ptr (drop (S i) l))).
Proof.
  intros Hc Hi. rewrite <- (take_drop_middle l i (b, v) Hi) in Hc.
  apply segment_app in Hc as (r & _ & (_ & q & Hb & Hq)).
  by rewrite (chain_first_ptr _ _ _ Hq) in Hb.
Qed.

Lemma models_unique m M1 M2 : models m M1 → models m M2 → M1 = M2.
Proof.
  intros H1 H2. apply map_eq. intros c.
  destruct (M1 !! c) as [l1|] eqn:E1; destruct (M2 !! c) as [l2|] eqn:E2; try done.
  - f_equal.
    exact (chain_of_functional m c l1 l2 (models_chain _ _ _ _ H1 E1)
             (models_chain _ _ _ _ H2 E2)).
  - pose proof (models_chain _ _ _ _ H1 E1) as Hc.
    by rewrite (models_lookup _ _ _ _ H2 Hc) in E2.
  - pose proof (models_chain _ _ _ _ H2 E2) as Hc.
    by rewrite (models_lookup _ _ _ _ H1 Hc) in E1.
Qed.

(** Two memories with the same chains and no other nodes have the same
    heap. *)
Lemma heap_determined m m' M :
  models m M → models m' M → tidy m M → tidy m' M → heap m' = heap m.
Proof.
  intros HM HM' Ht Ht'.
  assert (Hin : ∀ m1 m2, models m1 M → models m2 M → tidy m1 M →
            ∀ b n, heap m1 !! b = Some n → heap m2 !! b = Some n).
  { intros m1 m2 H1 H2 Htidy b n Hb.
    destruct (Htidy b) as (c & l & Hl & Hbl); [by eauto|].
    apply list_elem_of_fmap in Hbl as ([b' v] & Heq & Hbl). simpl in Heq. subst b'.
    apply list_elem_of_lookup in Hbl as (i & Hi).
    destruct (models_chain _ _ _ _ H1 Hl) as (o1 & _ & Hc1).
    destruct (models_chain _ _ _ _ H2 Hl) as (o2 & _ & Hc2).
    rewrite (chain_node _ _ _ _ _ _ Hc1 Hi) in Hb. injection Hb as <-.
    by apply (chain_node _ _ _ _ _ _ Hc2 Hi). }
  apply map_eq. intros b.
  destruct (heap m !! b) as [n|] eqn:E.
  - by apply (Hin m m').
  - destruct (heap m' !! b) as [n'|] eqn:E'; [|done].
    rewrite (Hin m' m HM' HM Ht' b n' E') in E. done.
Qed.

Lemma tidy_no_leak m M : models m M → tidy m M → no_leak m.
Proof.
  intros HM Ht b Hb. destruct (Ht b Hb) as (c & l & Hl & Hbl).
  exists c, l. split; [by eapply models_chain|done].
Qed.

(** [EraseAfter] makes no node. *)
Lemma EraseAfter_heap_shrinks this pos m r m' :
  EraseAfter this pos m = Returns r m' →
  ∀ b, is_Some (heap m' !! b) → is_Some (heap m !! b).
Proof.
  unfold EraseAfter, bind, load, set_next_node, delete_Node, decr_size, bind, object, set_size.
  destruct (node_at m (node_ pos)) as [n|] eqn:Hn; [|done].
  destruct (node_at m (next_node n)) as [t|] eqn:Ht; [|done].
  rewrite ?Hn. destruct (next_node n) as [| |a] eqn:En; try done.
  repeat (simpl; match goal with
          | |- context [match ?x with Some _ => _ | None => _ end] =>
              destruct x eqn:?; try done
          end).
  intros [= _ <-] b Hb. simpl in Hb.
  destruct (decide (a = b)) as [<-|Hne].
  - rewrite lookup_delete_eq in Hb. by destruct Hb.
  - rewrite lookup_delete_ne in Hb by done.
    destruct (node_ pos) as [|c|b0]; simpl in *; try done.
    destruct (decide (b0 = b)) as [<-|Hne'].
    + by eauto.
    + by rewrite lookup_insert_ne in Hb.
Qed.

(** ** No node is lost *)

Lemma tidy_tick m M k : tidy m M → tidy (mkMemory (heap m) (objs m) k) M.
Proof. done. Qed.

Lemma tidy_same_heap m m' M : heap m' = heap m → tidy m M → tidy m' M.
Proof. intros Hh Ht b Hb. rewrite Hh in Hb. by apply Ht. Qed.

Lemma elem_of_delete_other (l : list (N * T)) k a v b :
  l !! k = Some (a, v) → b ∈ l.*1 → b ≠ a → b ∈ (delete k l).*1.
Proof.
  intros Hk Hb Hne. apply list_elem_of_fmap in Hb as ([b' w] & Heq & Hb).
  simpl in Heq. subst b'. apply list_elem_of_lookup in Hb as (i & Hi).
  apply list_elem_of_fmap. exists (b, w). split; [done|].
  apply list_elem_of_lookup. destruct (decide (i < k)%nat) as [Hlt|Hge].
  - exists i. by rewrite list_lookup_delete_lt.
  - assert (i ≠ k) by (intros ->; congruence).
    exists (i - 1)%nat. rewrite list_lookup_delete_ge by lia.
    by replace (S (i - 1)) with i by lia.
Qed.

Lemma elem_of_insert_middle (l : list (N * T)) k x b :
  b ∈ l.*1 → b ∈ (take k l ++ x :: drop k l).*1.
Proof.
  intros Hb. rewrite <- (take_drop k l), fmap_app in Hb.
  rewrite fmap_app, fmap_cons. apply elem_of_app in Hb as [Hb|Hb].
  - apply elem_of_app. by left.
  - apply elem_of_app. right. by right.
Qed.

Lemma tidy_update m m' M c l l' :
  tidy m M → M !! c = Some l →
  (∀ b, is_Some (heap m' !! b) → b ∈ l'.*1 ∨ (is_Some (heap m !! b) ∧ (b ∈ l.*1 → b ∈ l'.*1))) →
  tidy m' (<[c := l']> M).
Proof.
  intros Ht Hl Hheap b Hb. destruct (Hheap b Hb) as [Hin|(Hold & Hkeep)].
  - exists c, l'. by rewrite lookup_insert_eq.
  - destruct (Ht b Hold) as (c' & lc & Hc' & Hbc).
    destruct (decide (c = c')) as [<-|Hne].
    + exists c, l'. rewrite lookup_insert_eq. split; [done|].
      apply Hkeep. congruence.
    + exists c', lc. by rewrite lookup_insert_ne.
Qed.

Lemma InsertAfter_tidy m M this c l k pos v r m' :
  models m M → tidy m M → M !! c = Some l → position c l k pos →
  is_Some (objs m !! this) →
  InsertAfter this pos v m = Returns r m' →
  tidy m' (<[c := take k l ++ (new_address m, v) :: drop k l]> M).
Proof.
  intros HM Ht Hl Hpos Hlive Hrun.
  pose proof (InsertAfter_general m M this c l k pos v HM Hl Hpos Hlive) as H. simpl in H.
  destruct (new_throws (clock m) v || negb (address_ok (new_address m))); [congruence|].
  destruct H as (m'' & Hrun' & _ & _ & _ & _ & Hframe).
  assert (m'' = m') as -> by congruence.
  apply (tidy_update m _ _ _ l); [done|done|]. intros b Hb.
  destruct (decide (b = new_address m)) as [->|Hne].
  { left. rewrite fmap_app, fmap_cons. apply elem_of_app. right. by left. }
  destruct (decide (cell b = node_ pos)) as [Heq|Hne'].
  { left. unfold position in Hpos. destruct k as [|j]; simpl in Hpos; [congruence|].
    destruct (l !! j) as [[b' w]|] eqn:E; [|done]. simpl in Hpos.
    rewrite <- Heq in Hpos. injection Hpos as ->.
    apply elem_of_insert_middle, list_elem_of_fmap. exists (b, w). split; [done|].
    by eapply list_elem_of_lookup_2. }
  right. rewrite Hframe in Hb by done. split; [done|]. apply elem_of_insert_middle.
Qed.

Lemma EraseAfter_tidy m M this c l k pos a v r m' :
  models m M → tidy m M → M !! c = Some l → position c l k pos →
  l !! k = Some (a, v) → is_Some (objs m !! this) →
  EraseAfter this pos m = Returns r m' →
  tidy m' (<[c := delete k l]> M).
Proof.
  intros HM Ht Hl Hpos Hk Hlive Hrun.
  destruct (EraseAfter_general m M this c l k pos a v HM Hl Hpos Hk Hlive)
    as (m'' & Hrun' & _ & Hgone & _).
  assert (m'' = m') as -> by congruence.
  apply (tidy_update m _ _ _ l); [done|done|]. intros b Hb. right.
  split; [by eapply EraseAfter_heap_shrinks|]. intros Hbl.
  apply (elem_of_delete_other _ _ a v); [done|done|].
  intros ->. rewrite Hgone in Hb. by destruct Hb.
Qed.

Lemma Clear_loop_tidy fuel m M this l :
  models m M → tidy m M → M !! this = Some l → (length l ≤ fuel)%nat →
  ∃ m', Clear_loop fuel this m = Returns tt m' ∧
    models m' (<[this := []]> M) ∧ tidy m' (<[this := []]> M).
Proof.
  revert fuel m M. induction l as [|[a v] l IH]; intros fuel m M HM Ht Hl Hfuel.
  - destruct (Clear_loop_spec fuel m M this [] HM Hl Hfuel) as (m' & Hrun & HM' & _).
    destruct (models_chain _ _ _ _ HM Hl) as (o & Ho & Hc). simpl in Hc.
    assert (Hrun0 : Clear_loop fuel this m = Returns tt m).
    { destruct fuel; simpl; rewrite (bind_returns _ _ _ _ _ (run_object _ _ _ Ho));
        rewrite Hc; done. }
    exists m. split; [done|]. rewrite insert_id by done. done.
  - destruct fuel as [|fuel]; [simpl in Hfuel; lia|].
    destruct (models_chain _ _ _ _ HM Hl) as (o & Ho & Hc).
    assert (Hlive : is_Some (objs m !! this)) by eauto.
    destruct (EraseAfter_general m M this this _ 0 (before_begin this) a v HM Hl)
      as (m1 & Hrun & HM1 & _); [done|done|done|].
    pose proof (EraseAfter_tidy m M this this _ 0 (before_begin this) a v _ m1
                  HM Ht Hl eq_refl eq_refl Hlive Hrun) as Ht1.
    simpl in HM1, Ht1.
    destruct (IH fuel m1 (<[this := l]> M) HM1 Ht1) as (m' & Hrun' & HM' & Ht').
    { by rewrite lookup_insert_eq. }
    { simpl in Hfuel. lia. }
    exists m'. rewrite insert_insert_eq in HM', Ht'. split; [|done].
    simpl. rewrite (bind_returns _ _ _ _ _ (run_object _ _ _ Ho)).
    destruct Hc as (-> & _). simpl.
    unfold PopFront. unfold bind at 1. unfold bind at 1. rewrite Hrun. done.
Qed.

Lemma Clear_tidy m M this l m' :
  models m M → tidy m M → M !! this = Some l → Clear this m = Returns tt m' →
  tidy m' (<[this := []]> M).
Proof.
  intros HM Ht Hl Hrun. unfold Clear in Hrun.
  destruct (Clear_loop_tidy (size (heap m)) m M this l HM Ht Hl) as (m'' & Hrun' & _ & Ht').
  { destruct (models_chain _ _ _ _ HM Hl) as (o & Ho & Hc). by eapply chain_length_heap. }
  assert (m'' = m') as -> by congruence. done.
Qed.

Lemma tidy_drop_empty m M this :
  tidy m (<[this := []]> M) → tidy m (delete this M).
Proof.
  intros Ht b Hb. destruct (Ht b Hb) as (c & l & Hl & Hbl).
  destruct (decide (this = c)) as [<-|Hne].
  - rewrite lookup_insert_eq in Hl. injection Hl as <-. by apply elem_of_nil in Hbl.
  - rewrite lookup_insert_ne in Hl by done. exists c, l. by rewrite lookup_delete_ne.
Qed.

Lemma destroy_tidy m M this l m' :
  models m M → tidy m M → M !! this = Some l → destroy this m = Returns tt m' →
  tidy m' (delete this M).
Proof.
  intros HM Ht Hl Hrun.
  destruct (Clear_spec _ _ _ _ HM Hl) as (m1 & Hrun1 & _).
  pose proof (Clear_tidy _ _ _ _ _ HM Ht Hl Hrun1) as Ht1.
  unfold destroy in Hrun. rewrite (bind_returns _ _ _ _ _ Hrun1) in Hrun.
  unfold release in Hrun. injection Hrun as <-.
  apply tidy_drop_empty. by apply (tidy_same_heap m1).
Qed.

Lemma tidy_new_empty m M this : tidy m M → M !! this = None → tidy m (<[this := []]> M).
Proof.
  intros Ht Hnone b Hb. destruct (Ht b Hb) as (c & l & Hl & Hbl).
  exists c, l. rewrite lookup_insert_ne; [done|]. intros <-. congruence.
Qed.

Lemma tidy_swap m M this other la lb :
  tidy m M → M !! this = Some la → M !! other = Some lb →
  tidy m (<[other := la]> (<[this := lb]> M)).
Proof.
  intros Ht Hla Hlb b Hb. destruct (Ht b Hb) as (c & l & Hl & Hbl).
  destruct (decide (c = this)) as [->|Hn1].
  { exists other, l. rewrite lookup_insert_eq. split; [congruence|done]. }
  destruct (decide (c = other)) as [->|Hn2].
  { exists this, l. rewrite lookup_insert_ne by done. rewrite lookup_insert_eq.
    split; [congruence|done]. }
  exists c, l. by rewrite !lookup_insert_ne.
Qed.

Lemma CopyList_loop_tidy `{TListOk L} vs :
  ∀ fuel m M this tmp node_it it fp lt m',
  models m M → tidy m M → M !! tmp = Some lt → this ≠ tmp →
  size_of m this = Some (Z.of_nat (length lt)) →
  size_of m tmp = Some (Z.of_nat (length lt)) →
  position tmp lt (length lt) node_it →
  iter_denotes it m fp vs → fp ## lt.*1 → (length vs ≤ fuel)%nat →
  CopyList_loop fuel this tmp node_it it m = Throws m' ∨
  CopyList_loop fuel this tmp node_it it m = Returns tt m' →
  ∃ lt', models m' (<[tmp := lt ++ lt']> M) ∧ tidy m' (<[tmp := lt ++ lt']> M).
Proof.
  induction vs as [|v vs IH];
    intros fuel m M this tmp node_it it fp lt m' HM Ht Hlt Hne Hsthis Hstmp Hpos Hit Hfp
      Hfuel Hrun.
  - assert (Hend : range_at_end it = true) by (by eapply ok_at_end).
    assert (m' = m) as ->.
    { destruct fuel; simpl in Hrun; rewrite Hend in Hrun; destruct Hrun as [Hrun|Hrun];
        try done; by injection Hrun. }
    exists []. rewrite app_nil_r, insert_id by done. done.
  - assert (Hend : range_at_end it = false).
    { destruct (range_at_end it) eqn:E; [|done]. by apply (ok_at_end _ _ _ _ Hit) in E. }
    destruct fuel as [|fuel]; [simpl in Hfuel; lia|].
    simpl in Hrun. rewrite Hend in Hrun.
    rewrite (bind_returns _ _ _ _ _ (ok_deref _ _ _ _ _ Hit)) in Hrun.
    assert (Hthis : is_Some (objs m !! this)).
    { unfold size_of in Hsthis. destruct (objs m !! this); [eauto|done]. }
    pose proof (InsertAfter_general m M this tmp lt (length lt) node_it v
                  HM Hlt Hpos Hthis) as Hins.
    simpl in Hins.
    destruct (new_throws (clock m) v || negb (address_ok (new_address m))).
    { rewrite (bind_throws _ _ _ _ Hins) in Hrun.
      assert (m' = mkMemory (heap m) (objs m) (S (clock m))) as ->
        by (destruct Hrun as [Hrun|Hrun]; [by injection Hrun|done]).
      exists []. rewrite app_nil_r, insert_id by done.
      split; [by apply models_tick|done]. }
    destruct Hins as (m1 & Hrun1 & HM1 & Hfresh & _ & Hsize1 & Hframe1).
    pose proof (InsertAfter_tidy _ _ _ _ _ _ _ _ _ _ HM Ht Hlt Hpos Hthis Hrun1) as Ht1.
    rewrite take_ge, drop_ge in HM1, Ht1 by lia.
    set (a := new_address m) in *.
    rewrite (bind_returns _ _ _ _ _ Hrun1) in Hrun.
    assert (Hlt1 : <[tmp := lt ++ [(a, v)]]> M !! tmp = Some (lt ++ [(a, v)]))
      by (by rewrite lookup_insert_eq).
    destruct (operator_incr_position m1 tmp (lt ++ [(a, v)]) (length lt) node_it)
      as (it1 & Hrun2).
    { by eapply models_chain. }
    { by apply position_app. }
    rewrite (bind_returns _ _ _ _ _ Hrun2) in Hrun.
    pose proof (models_length _ _ _ _ HM1 Hlt1) as Hbound. rewrite length_app in Hbound.
    simpl in Hbound.
    assert (Htmp1 : size_of m1 tmp = Some (Z.of_nat (length lt))).
    { rewrite Hsize1. destruct (decide (tmp = this)); [congruence|done]. }
    assert (Hthis1 : size_of m1 this = Some (Z.of_nat (length lt) + 1)).
    { rewrite Hsize1. destruct (decide (this = this)); [|done].
      rewrite Hsthis. simpl. f_equal. apply size_t_small. lia. }
    unfold size_of in Htmp1.
    destruct (objs m1 !! tmp) as [o1|] eqn:Ho1; [|done].
    simpl in Htmp1. injection Htmp1 as Htmp1.
    rewrite (bind_returns _ _ _ _ _ (run_incr_size _ _ _ Ho1)) in Hrun.
    set (m2 := mkMemory _ _ _) in Hrun.
    assert (HM2 : models m2 (<[tmp := lt ++ [(a, v)]]> M)) by (by apply models_set_size).
    assert (Ht2 : tidy m2 (<[tmp := lt ++ [(a, v)]]> M)) by (by apply (tidy_same_heap m1)).
    assert (Hsize2 : ∀ d, size_of m2 d =
              if decide (d = tmp) then Some (Z.of_nat (length lt) + 1) else size_of m1 d).
    { intros d. unfold m2. rewrite (size_of_set_size _ _ _ _ _ _ Ho1).
      destruct (decide (d = tmp)); [|done]. f_equal. rewrite Htmp1.
      apply size_t_small. lia. }
    assert (Hagree : ∀ b, b ∈ fp → heap m2 !! b = heap m !! b).
    { intros b Hb. unfold m2. cbn [heap]. apply Hframe1.
      - intros ->. destruct (ok_in_heap _ _ _ _ _ Hit Hb) as [? Hsome]. congruence.
      - intros Hcell. unfold position in Hpos.
        destruct (length lt) as [|j]; simpl in Hpos; [congruence|].
        destruct (lt !! j) as [[b' w]|] eqn:E; [|done]. simpl in Hpos.
        rewrite <- Hcell in Hpos. injection Hpos as ->.
        apply (Hfp b Hb). apply list_elem_of_fmap. exists (b, w). split; [done|].
        by eapply list_elem_of_lookup_2. }
    pose proof (ok_frame _ _ m2 _ _ Hit Hagree) as Hit2.
    destruct (ok_incr _ _ _ _ _ Hit2) as (it' & Hrun3 & Hit').
    rewrite (bind_returns _ _ _ _ _ Hrun3) in Hrun.
    destruct (IH fuel m2 (<[tmp := lt ++ [(a, v)]]> M) this tmp (Iterator (cell a)) it' fp
                (lt ++ [(a, v)]) m') as (lt' & HM' & Ht'); try done.
    { rewrite Hsize2. destruct (decide (this = tmp)); [done|].
      rewrite Hthis1, length_app. simpl. f_equal. lia. }
    { rewrite Hsize2. destruct (decide (tmp = tmp)); [|done].
      rewrite length_app. simpl. f_equal. lia. }
    { rewrite length_app. simpl. replace (length lt + 1)%nat with (S (length lt)) by lia.
      apply position_last. }
    { intros b Hb1 Hb2. rewrite fmap_app in Hb2. apply elem_of_app in Hb2 as [Hb2|Hb2].
      - by apply (Hfp b).
      - simpl in Hb2. apply list_elem_of_singleton in Hb2 as ->.
        destruct (ok_in_heap _ _ _ _ _ Hit Hb1) as [? Hsome]. congruence. }
    { simpl in Hfuel. lia. }
    exists ((a, v) :: lt'). rewrite insert_insert_eq, <- app_assoc in HM', Ht'. done.
Qed.

Lemma CopyList_tidy `{TListOk L} m M this (other : L) fp vs m' :
  models m M → tidy m M → M !! this = Some [] → size_of m this = Some 0 →
  range_denotes other m fp vs →
  (CopyList this other m = Throws m' → tidy m' M) ∧
  (CopyList this other m = Returns tt m' →
   ∃ l, models m' (<[this := l]> M) ∧ tidy m' (<[this := l]> M)).
Proof.
  intros HM Ht Hthis Hsize Hden.
  destruct (models_construct m M HM) as (HM0 & Hnone & Hs0 & Hsz0 & Hobjs0).
  set (tmp := fresh (dom (objs m))) in *.
  set (m0 := mkMemory (heap m) (<[tmp := empty_object]> (objs m)) (clock m)) in *.
  assert (Ht0 : tidy m0 (<[tmp := []]> M)).
  { apply (tidy_same_heap m); [done|]. by apply tidy_new_empty. }
  assert (Hne : this ≠ tmp) by congruence.
  assert (Hconstruct : construct default_constructor m = Returns tmp m0) by done.
  unfold CopyList. rewrite (bind_returns _ _ _ _ _ Hconstruct).
  pose proof (ok_stable other m m0 fp vs Hden eq_refl Hobjs0) as Hden0.
  destruct (ok_begin _ _ _ _ Hden0) as (it & Hbegin & Hit).
  pose proof (ok_bound _ _ _ _ Hden0) as Hbound.
  destruct (CopyList_loop_spec vs (range_bound other m0) m0 (<[tmp := []]> M) this tmp
              (before_begin tmp) it fp []) as (m1 & Hloop); try done.
  { by rewrite lookup_insert_eq. }
  { rewrite Hsz0 by done. done. }
  { intros b _ Hb. by apply elem_of_nil in Hb. }
  assert (Hloop' : CopyList_loop (range_bound other m0) this tmp (before_begin tmp) it m0
                     = Throws m1 ∨
                   CopyList_loop (range_bound other m0) this tmp (before_begin tmp) it m0
                     = Returns tt m1).
  { destruct Hloop as [(Hrun & _)|(Hrun & _)]; eauto. }
  destruct (CopyList_loop_tidy vs (range_bound other m0) m0 (<[tmp := []]> M) this tmp
              (before_begin tmp) it fp [] m1) as (lt' & HM1 & Ht1); try done.
  { by rewrite lookup_insert_eq. }
  { rewrite Hsz0 by done. done. }
  { intros b _ Hb. by apply elem_of_nil in Hb. }
  simpl in HM1, Ht1. rewrite insert_insert_eq in HM1, Ht1.
  set (body := (it <~ range_begin other;; _)).
  destruct Hloop as [(Hrun & _)|(Hrun & _)].
  - assert (Hbody : body m0 = Throws m1).
    { unfold body. rewrite (bind_returns _ _ _ _ _ Hbegin).
      unfold bind at 1. by rewrite (bind_throws _ _ _ _ Hrun). }
    destruct (destroy_spec m1 _ tmp lt' HM1) as (m2 & Hdestroy & _).
    { by rewrite lookup_insert_eq. }
    pose proof (destroy_tidy m1 _ tmp lt' m2 HM1 Ht1 (lookup_insert_eq _ _ _) Hdestroy) as Ht2.
    rewrite delete_insert_eq, delete_id in Ht2 by done.
    rewrite (finally_throws _ _ _ _ _ Hbody Hdestroy). split; [|done].
    by intros [= <-].
  - destruct (swap_spec m1 _ this tmp [] lt' HM1) as (m2 & Hswap & HM2 & Hheap2 & _).
    { rewrite lookup_insert_ne by done. done. }
    { by rewrite lookup_insert_eq. }
    assert (Ht2 : tidy m2 (<[tmp := []]> (<[this := lt']> (<[tmp := lt']> M)))).
    { apply (tidy_same_heap m1); [done|]. apply tidy_swap; [done| |by rewrite lookup_insert_eq].
      by rewrite lookup_insert_ne. }
    assert (Hbody : body m0 = Returns tt m2).
    { unfold body. rewrite (bind_returns _ _ _ _ _ Hbegin).
      unfold bind at 1. by rewrite (bind_returns _ _ _ _ _ Hrun). }
    destruct (destroy_spec m2 _ tmp [] HM2) as (m3 & Hdestroy & HM3 & _).
    { by rewrite lookup_insert_eq. }
    pose proof (destroy_tidy m2 _ tmp [] m3 HM2 Ht2 (lookup_insert_eq _ _ _) Hdestroy) as Ht3.
    rewrite (finally_returns _ _ _ _ _ _ Hbody Hdestroy). split; [done|].
    intros [= <-]. exists lt'.
    assert (Heq : delete tmp (<[tmp := []]> (<[this := lt']> (<[tmp := lt']> M)))
                  = <[this := lt']> M) by map_lookups.
    rewrite Heq in HM3, Ht3. done.
Qed.

Lemma construct_CopyList_tidy `{TListOk L} m M (other : L) fp vs (body : N → Exec unit) :
  models m M → tidy m M → range_denotes other m fp vs →
  (∀ this m0, objs m0 !! this = Some empty_object → body this m0 = CopyList this other m0) →
  ∀ m',
  (construct body m = Throws m' → tidy m' M) ∧
  (∀ this, construct body m = Returns this m' →
     ∃ l, models m' (<[this := l]> M) ∧ tidy m' (<[this := l]> M)).
Proof.
  intros HM Ht Hden Hbody m'.
  destruct (models_construct m M HM) as (HM0 & Hnone & Hs0 & Hsz0 & Hobjs0).
  set (this := fresh (dom (objs m))) in *.
  set (m0 := mkMemory (heap m) (<[this := empty_object]> (objs m)) (clock m)) in *.
  assert (Ht0 : tidy m0 (<[this := []]> M)).
  { apply (tidy_same_heap m); [done|]. by apply tidy_new_empty. }
  pose proof (ok_stable other m m0 fp vs Hden eq_refl Hobjs0) as Hden0.
  assert (Hb : body this m0 = CopyList this other m0).
  { apply Hbody. unfold m0. simpl. by rewrite lookup_insert_eq. }
  unfold construct. fold this. fold m0. rewrite Hb.
  destruct (CopyList this other m0) as [[] m1|m1| |] eqn:E; try done.
  - split; [done|]. intros this' [= <- <-].
    destruct (CopyList_tidy m0 (<[this := []]> M) this other fp vs m1 HM0 Ht0) as (_ & Hret);
      [by rewrite lookup_insert_eq|done|done|].
    destruct (Hret E) as (l & HM1 & Ht1). exists l.
    rewrite insert_insert_eq in HM1, Ht1. done.
  - split; [|done]. intros [= <-].
    destruct (CopyList_tidy m0 (<[this := []]> M) this other fp vs m1 HM0 Ht0) as (Hthr & _);
      [by rewrite lookup_insert_eq|done|done|].
    pose proof (Hthr E) as Ht1.
    apply (tidy_same_heap m1); [done|].
    rewrite <- (delete_id M this Hnone), <- (delete_insert_eq M this []).
    by apply tidy_drop_empty; rewrite insert_insert_eq.
Qed.

Lemma operator_assign_tidy m M this rhs la lb m' :
  models m M → counted m M → tidy m M → M !! this = Some la → M !! rhs = Some lb →
  (operator_assign this rhs m = Throws m' → tidy m' M) ∧
  (operator_assign this rhs m = Returns tt m' →
   ∃ l, models m' (<[this := l]> M) ∧ tidy m' (<[this := l]> M)).
Proof.
  intros HM HC Ht Hla Hlb. unfold operator_assign.
  destruct (decide (this = rhs)) as [->|Hne].
  - rewrite bool_decide_eq_true_2 by done. split; [done|]. intros [= <-].
    exists la. rewrite insert_id by done. done.
  - rewrite bool_decide_eq_false_2 by done.
    pose proof (ListRef_denotes_model m M rhs lb HM Hlb) as Hden.
    assert (Hbody : ∀ this0 m0, objs m0 !! this0 = Some empty_object →
              copy_constructor rhs this0 m0 = CopyList this0 (Ref rhs) m0)
      by (intros; by apply copy_constructor_fresh).
    destruct (construct_CopyList_spec m M (Ref rhs) lb.*1 lb.*2 (copy_constructor rhs)
                HM Hden Hbody) as (Hnone & m1 & Hcons).
    destruct (construct_CopyList_tidy m M (Ref rhs) lb.*1 lb.*2 (copy_constructor rhs)
                HM Ht Hden Hbody m1) as (Hthr & Hret).
    set (tmp := fresh (dom (objs m))) in *.
    assert (Hthis : this ≠ tmp) by congruence.
    destruct Hcons as [(Hrun & _)|(Hrun & l0 & _)].
    + rewrite (bind_throws _ _ _ _ Hrun). split; [|done]. intros [= <-]. by apply Hthr.
    + rewrite (bind_returns _ _ _ _ _ Hrun).
      destruct (Hret _ Hrun) as (l & HM1 & Ht1).
      destruct (swap_spec m1 _ this tmp la l HM1) as (m2 & Hswap & HM2 & Hheap2 & _).
      { by rewrite lookup_insert_ne. }
      { by rewrite lookup_insert_eq. }
      assert (Ht2 : tidy m2 (<[tmp := la]> (<[this := l]> (<[tmp := l]> M)))).
      { apply (tidy_same_heap m1); [done|].
        apply tidy_swap; [done|by rewrite lookup_insert_ne|by rewrite lookup_insert_eq]. }
      destruct (destroy_spec m2 _ tmp la HM2) as (m3 & Hdestroy & HM3 & _).
      { by rewrite lookup_insert_eq. }
      pose proof (destroy_tidy m2 _ tmp la m3 HM2 Ht2 (lookup_insert_eq _ _ _) Hdestroy) as Ht3.
      rewrite (finally_returns _ _ _ _ _ _ Hswap Hdestroy). split; [done|].
      intros [= <-]. exists l.
      assert (Heq : delete tmp (<[tmp := la]> (<[this := l]> (<[tmp := l]> M)))
                    = <[this := l]> M) by map_lookups.
      rewrite Heq in HM3, Ht3. done.
Qed.

(** A call that throws has changed no chain and no count. *)
Lemma run_throws_same m M c m' :
  models m M → counted m M → callable m c → run c m = Throws m' →
  models m' M ∧ ∀ d, size_of m' d = size_of m d.
Proof.
  intros HM HC Hcall Hrun. destruct c; simpl in Hcall, Hrun.
  - done.
  - destruct (construct_CopyList_spec m M values [] values
                (initializer_list_constructor values) HM)
      as (_ & m1 & [(Hrun1 & HM' & Hsz)|(Hrun1 & _)]); [done|done| |].
    + rewrite (bind_throws _ _ _ _ Hrun1) in Hrun. by injection Hrun as <-.
    + by rewrite (bind_returns _ _ _ _ _ Hrun1) in Hrun.
  - destruct (models_object _ _ _ HM Hcall) as [lo Hlo].
    destruct (construct_CopyList_spec m M (Ref other) lo.*1 lo.*2
                (copy_constructor other) HM)
      as (_ & m1 & [(Hrun1 & HM' & Hsz)|(Hrun1 & _)]).
    { by eapply ListRef_denotes_model. }
    { intros. by apply copy_constructor_fresh. }
    + rewrite (bind_throws _ _ _ _ Hrun1) in Hrun. by injection Hrun as <-.
    + by rewrite (bind_returns _ _ _ _ _ Hrun1) in Hrun.
  - destruct (models_object _ _ _ HM Hcall) as [l Hl].
    destruct (destroy_spec m M this l HM Hl) as (m1 & Hrun1 & _). congruence.
  - destruct (models_object _ _ _ HM Hcall) as [l Hl].
    pose proof (InsertAfter_Inv m M this l 0 (before_begin this) val HM HC Hl eq_refl) as H.
    simpl in H. rewrite PushFront_InsertAfter in Hrun.
    destruct (new_throws (clock m) val || negb (address_ok (new_address m))).
    + rewrite (bind_throws _ _ _ _ H) in Hrun. injection Hrun as <-.
      split; [by apply models_tick|done].
    + destruct H as (m1 & Hrun1 & _). by rewrite (bind_returns _ _ _ _ _ Hrun1) in Hrun.
  - destruct Hcall as (l & Hc & Hlen). pose proof (models_lookup _ _ _ _ HM Hc) as Hl.
    destruct l as [|[a v] l]; [simpl in Hlen; lia|].
    destruct (EraseAfter_Inv m M this _ 0 (before_begin this) a v HM HC Hl eq_refl eq_refl)
      as (m1 & Hrun1 & _).
    unfold PopFront in Hrun. by rewrite (bind_returns _ _ _ _ _ Hrun1) in Hrun.
  - destruct Hcall as (l & k & Hc & Hpos). pose proof (models_lookup _ _ _ _ HM Hc) as Hl.
    pose proof (InsertAfter_Inv m M this l k pos val HM HC Hl Hpos) as H. simpl in H.
    destruct (new_throws (clock m) val || negb (address_ok (new_address m))).
    + rewrite (bind_throws _ _ _ _ H) in Hrun. injection Hrun as <-.
      split; [by apply models_tick|done].
    + destruct H as (m1 & Hrun1 & _). by rewrite (bind_returns _ _ _ _ _ Hrun1) in Hrun.
  - destruct Hcall as (l & k & Hc & Hpos & Hk).
    pose proof (models_lookup _ _ _ _ HM Hc) as Hl.
    destruct (lookup_lt_is_Some_2 l k Hk) as [[a v] Hlk].
    destruct (EraseAfter_Inv m M this l k pos a v HM HC Hl Hpos Hlk) as (m1 & Hrun1 & _).
    by rewrite (bind_returns _ _ _ _ _ Hrun1) in Hrun.
  - destruct (models_object _ _ _ HM Hcall) as [l Hl].
    destruct (Clear_spec m M this l HM Hl) as (m1 & Hrun1 & _). congruence.
  - destruct Hcall as (H1 & H2).
    destruct (models_object _ _ _ HM H1) as [la Hla].
    destruct (models_object _ _ _ HM H2) as [lb Hlb].
    destruct (swap_spec m M this other la lb HM Hla Hlb) as (m1 & Hrun1 & _). congruence.
  - destruct Hcall as (H1 & H2).
    destruct (models_object _ _ _ HM H1) as [la Hla].
    destruct (models_object _ _ _ HM H2) as [lb Hlb].
    destruct (operator_assign_spec m M this rhs la lb HM HC Hla Hlb)
      as (m1 & [(Hrun1 & HM' & Hsz)|(Hrun1 & _)]).
    + assert (m1 = m') as -> by congruence. done.
    + congruence.
Qed.

(** Every call keeps the heap free of lost nodes. *)
Lemma run_tidy m M c m' :
  models m M → counted m M → tidy m M → callable m c →
  run c m = Returns tt m' ∨ run c m = Throws m' →
  ∃ M', models m' M' ∧ tidy m' M'.
Proof.
  intros HM HC Ht Hcall Hrun. destruct c; simpl in Hcall, Hrun.
  - destruct (construct_default_spec m M HM HC) as (Hnone & m1 & Hrun1 & HM' & _).
    rewrite (bind_returns _ _ _ _ _ Hrun1) in Hrun.
    assert (m1 = m') as -> by (destruct Hrun as [Hrun|Hrun]; [by injection Hrun|done]).
    eexists. split; [done|]. unfold construct in Hrun1. simpl in Hrun1.
    injection Hrun1 as <-. apply (tidy_same_heap m); [done|]. by apply tidy_new_empty.
  - assert (Hbody : ∀ this m0, objs m0 !! this = Some empty_object →
              initializer_list_constructor values this m0 = CopyList this values m0) by done.
    destruct (construct_CopyList_tidy m M values [] values
                (initializer_list_constructor values) HM Ht) with (m' := m')
      as (Hthr & Hret); [done|done|].
    destruct (construct (initializer_list_constructor values) m) as [this m1|m1| |] eqn:E;
      unfold bind in Hrun; rewrite E in Hrun; destruct Hrun as [Hrun|Hrun]; try done.
    + injection Hrun as <-. destruct (Hret _ eq_refl) as (l & ? & ?). eauto.
    + injection Hrun as <-. exists M. split; [|by apply Hthr].
      by destruct (run_throws_same m M (call_initializer_list values) m1 HM HC I
                     ltac:(simpl; unfold bind; by rewrite E)).
  - destruct (models_object _ _ _ HM Hcall) as [lo Hlo].
    destruct (construct_CopyList_tidy m M (Ref other) lo.*1 lo.*2
                (copy_constructor other) HM Ht) with (m' := m') as (Hthr & Hret).
    { by eapply ListRef_denotes_model. }
    { intros. by apply copy_constructor_fresh. }
    destruct (construct (copy_constructor other) m) as [this m1|m1| |] eqn:E;
      unfold bind in Hrun; rewrite E in Hrun; destruct Hrun as [Hrun|Hrun]; try done.
    + injection Hrun as <-. destruct (Hret _ eq_refl) as (l & ? & ?). eauto.
    + injection Hrun as <-. exists M. split; [|by apply Hthr].
      by destruct (run_throws_same m M (call_copy other) m1 HM HC Hcall
                     ltac:(simpl; unfold bind; by rewrite E)).
  - destruct (models_object _ _ _ HM Hcall) as [l Hl].
    destruct (destroy_spec m M this l HM Hl) as (m1 & Hrun1 & HM' & _).
    assert (m1 = m') as -> by (destruct Hrun; congruence).
    exists (delete this M). split; [done|]. by eapply destroy_tidy.
  - destruct (models_object _ _ _ HM Hcall) as [l Hl].
    pose proof (InsertAfter_Inv m M this l 0 (before_begin this) val HM HC Hl eq_refl) as H.
    simpl in H. rewrite PushFront_InsertAfter in Hrun.
    destruct (new_throws (clock m) val || negb (address_ok (new_address m))).
    + rewrite (bind_throws _ _ _ _ H) in Hrun.
      assert (m' = mkMemory (heap m) (objs m) (S (clock m))) as ->
        by (destruct Hrun as [Hrun|Hrun]; [done|by injection Hrun]).
      exists M. split; [by apply models_tick|done].
    + destruct H as (m1 & Hrun1 & HM' & _). rewrite (bind_returns _ _ _ _ _ Hrun1) in Hrun.
      assert (m1 = m') as -> by (destruct Hrun as [Hrun|Hrun]; [by injection Hrun|done]).
      eexists. split; [done|].
      exact (InsertAfter_tidy m M this this l 0 (before_begin this) val _ m'
               HM Ht Hl eq_refl Hcall Hrun1).
  - destruct Hcall as (l & Hc & Hlen). pose proof (models_lookup _ _ _ _ HM Hc) as Hl.
    destruct l as [|[a v] l]; [simpl in Hlen; lia|].
    destruct (EraseAfter_Inv m M this _ 0 (before_begin this) a v HM HC Hl eq_refl eq_refl)
      as (m1 & Hrun1 & HM' & _).
    unfold PopFront in Hrun. rewrite (bind_returns _ _ _ _ _ Hrun1) in Hrun.
    assert (m1 = m') as -> by (destruct Hrun as [Hrun|Hrun]; [by injection Hrun|done]).
    eexists. split; [done|].
    assert (Hlive : is_Some (objs m !! this)) by (destruct Hc as (o & Ho & _); eauto).
    exact (EraseAfter_tidy m M this this _ 0 (before_begin this) a v _ m'
             HM Ht Hl eq_refl eq_refl Hlive Hrun1).
  - destruct Hcall as (l & k & Hc & Hpos). pose proof (models_lookup _ _ _ _ HM Hc) as Hl.
    pose proof (InsertAfter_Inv m M this l k pos val HM HC Hl Hpos) as H. simpl in H.
    destruct (new_throws (clock m) val || negb (address_ok (new_address m))).
    + rewrite (bind_throws _ _ _ _ H) in Hrun.
      assert (m' = mkMemory (heap m) (objs m) (S (clock m))) as ->
        by (destruct Hrun as [Hrun|Hrun]; [done|by injection Hrun]).
      exists M. split; [by apply models_tick|done].
    + destruct H as (m1 & Hrun1 & HM' & _). rewrite (bind_returns _ _ _ _ _ Hrun1) in Hrun.
      assert (m1 = m') as -> by (destruct Hrun as [Hrun|Hrun]; [by injection Hrun|done]).
      eexists. split; [done|].
      assert (Hlive : is_Some (objs m !! this)) by (destruct Hc as (o & Ho & _); eauto).
      exact (InsertAfter_tidy m M this this l k pos val _ m' HM Ht Hl Hpos Hlive Hrun1).
  - destruct Hcall as (l & k & Hc & Hpos & Hk).
    pose proof (models_lookup _ _ _ _ HM Hc) as Hl.
    destruct (lookup_lt_is_Some_2 l k Hk) as [[a v] Hlk].
    destruct (EraseAfter_Inv m M this l k pos a v HM HC Hl Hpos Hlk)
      as (m1 & Hrun1 & HM' & _).
    rewrite (bind_returns _ _ _ _ _ Hrun1) in Hrun.
    assert (m1 = m') as -> by (destruct Hrun as [Hrun|Hrun]; [by injection Hrun|done]).
    eexists. split; [done|].
    assert (Hlive : is_Some (objs m !! this)) by (destruct Hc as (o & Ho & _); eauto).
    exact (EraseAfter_tidy m M this this l k pos a v _ m' HM Ht Hl Hpos Hlk Hlive Hrun1).
  - destruct (models_object _ _ _ HM Hcall) as [l Hl].
    destruct (Clear_spec m M this l HM Hl) as (m1 & Hrun1 & HM' & _).
    assert (m1 = m') as -> by (destruct Hrun; congruence).
    eexists. split; [done|]. by eapply Clear_tidy.
  - destruct Hcall as (H1 & H2).
    destruct (models_object _ _ _ HM H1) as [la Hla].
    destruct (models_object _ _ _ HM H2) as [lb Hlb].
    destruct (swap_spec m M this other la lb HM Hla Hlb) as (m1 & Hrun1 & HM' & Hheap & _).
    assert (m1 = m') as -> by (destruct Hrun; congruence).
    eexists. split; [done|]. apply (tidy_same_heap m); [done|]. by apply tidy_swap.
  - destruct Hcall as (H1 & H2).
    destruct (models_object _ _ _ HM H1) as [la Hla].
    destruct (models_object _ _ _ HM H2) as [lb Hlb].
    destruct (operator_assign_tidy m M this rhs la lb m' HM HC Ht Hla Hlb) as (Hthr & Hret).
    destruct Hrun as [Hrun|Hrun].
    + destruct (Hret Hrun) as (l & ? & ?). eauto.
    + exists M. split; [|by apply Hthr].
      by destruct (run_throws_same m M (call_assign this rhs) m' HM HC (conj H1 H2) Hrun).
Qed.

Lemma Clear_loop_shrinks fuel this m m' b :
  Clear_loop fuel this m = Returns tt m' →
  is_Some (heap m' !! b) → is_Some (heap m !! b).
Proof.
  revert m. induction fuel as [|fuel IH]; intros m; simpl; unfold bind, object.
  - destruct (objs m !! this) as [o|]; [|done]. case_bool_decide; [done|].
    by intros [= <-].
  - destruct (objs m !! this) as [o|]; [|done]. case_bool_decide; [|by intros [= <-]].
    unfold PopFront, bind.
    destruct (EraseAfter this (before_begin this) m) as [r m2| | |] eqn:E; try done.
    simpl. intros Hloop Hb. eapply EraseAfter_heap_shrinks; [done|]. by eapply IH.
Qed.

(** ** What holds in every memory a program reaches *)

Lemma execution_tight m tr m' :
  (∃ M, models m M ∧ counted m M ∧ tidy m M) → execution m tr m' →
  ∃ M', models m' M' ∧ counted m' M' ∧ tidy m' M'.
Proof.
  intros Htight Hex.
  induction Hex as [m|m c m1 tr m' Hcall Hrun _ IH|m c m1 tr m' Hcall Hrun _ IH].
  - done.
  - apply IH. destruct Htight as (M & HM & HC & Ht).
    destruct (run_preserves m M c HM HC Hcall) as (m2 & M1 & Hrun' & HM1 & HC1 & _).
    assert (m2 = m1) as -> by (destruct Hrun'; congruence).
    destruct (run_tidy m M c m1 HM HC Ht Hcall (or_introl Hrun)) as (M2 & HM2 & Ht2).
    rewrite <- (models_unique _ _ _ HM1 HM2) in Ht2. eauto.
  - apply IH. destruct Htight as (M & HM & HC & Ht).
    destruct (run_preserves m M c HM HC Hcall) as (m2 & M1 & Hrun' & HM1 & HC1 & _).
    assert (m2 = m1) as -> by (destruct Hrun'; congruence).
    destruct (run_tidy m M c m1 HM HC Ht Hcall (or_intror Hrun)) as (M2 & HM2 & Ht2).
    rewrite <- (models_unique _ _ _ HM1 HM2) in Ht2. eauto.
Qed.

Lemma reachable_tight m : reachable m → ∃ M, models m M ∧ counted m M ∧ tidy m M.
Proof.
  intros (tr & Hex). eapply execution_tight; [|done].
  exists ∅. destruct (Inv_start 0) as (M0 & HM0 & HC0).
  assert (M0 = ∅) as ->.
  { apply map_eq. intros c. rewrite lookup_empty.
    destruct (M0 !! c) as [l|] eqn:E; [|done].
    destruct (models_chain _ _ _ _ HM0 E) as (o & Ho & _). simpl in Ho.
    by rewrite lookup_empty in Ho. }
  split; [done|]. split; [done|]. intros b [n Hb]. simpl in Hb.
  by rewrite lookup_empty in Hb.
Qed.

(** X1. No leak, no sharing: in every memory a program reaches, every
    node of the heap is a node of the chain of exactly one live container,
    and occurs there once. *)
Theorem every_node_is_owned m b :
  reachable m → is_Some (heap m !! b) →
  ∃ this l i v,
    chain_of m this l ∧ l !! i = Some (b, v) ∧
    (∀ j w, l !! j = Some (b, w) → j = i) ∧
    (∀ that l', chain_of m that l' → b ∈ l'.*1 → that = this).
Proof.
  intros Hreach Hb. destruct (reachable_tight m Hreach) as (M & HM & HC & Ht).
  destruct (Ht b Hb) as (c & l & Hl & Hbl).
  apply list_elem_of_fmap in Hbl as ([b' v] & Heq & Hbl). simpl in Heq. subst b'.
  apply list_elem_of_lookup in Hbl as (i & Hi).
  exists c, l, i, v. split; [by eapply models_chain|]. split; [done|]. split.
  - intros j w Hj. pose proof (models_NoDup _ _ _ _ HM Hl) as Hnd.
    apply (NoDup_lookup _ j i b Hnd); rewrite list_lookup_fmap.
    + by rewrite Hj.
    + by rewrite Hi.
  - intros that l' Hl' Hb'. destruct (decide (that = c)) as [->|Hne]; [done|].
    exfalso. pose proof (models_lookup _ _ _ _ HM Hl') as Hl''.
    destruct HM as (_ & _ & Hch & Hdis).
    apply (Hdis that c l' l Hne Hl'' Hl b Hb').
    apply list_elem_of_fmap. exists (b, v). split; [done|].
    by eapply list_elem_of_lookup_2.
Qed.

(** X2. Strong guarantee.  In a memory a program reaches, a call that
    throws is one of those that allocate, and it has changed nothing but
    the count of allocations: the heap is the same and every container has
    the same nodes, values, order and count. *)
Theorem a_call_that_throws_changes_nothing m c m' :
  reachable m → callable m c → run c m = Throws m' →
  allocates c = true ∧ heap m' = heap m ∧
  (∀ d, same_list m m' d) ∧ (∀ d, nodes_of m' d = nodes_of m d) ∧ reachable m'.
Proof.
  intros Hreach Hcall Hrun. destruct (reachable_tight m Hreach) as (M & HM & HC & Ht).
  destruct (run_throws_same m M c m' HM HC Hcall Hrun) as (HM' & Hsz).
  destruct (run_tidy m M c m' HM HC Ht Hcall (or_intror Hrun)) as (M' & HM'' & Ht').
  rewrite <- (models_unique _ _ _ HM' HM'') in Ht'.
  assert (Hsame : ∀ d, same_list m m' d) by (by eapply same_list_all).
  split; [|split; [by eapply heap_determined|split; [done|split]]].
  - destruct c; try done; simpl in Hrun, Hcall.
    + destruct (models_object _ _ _ HM Hcall) as [l Hl].
      destruct (destroy_spec m M this l HM Hl) as (m1 & Hrun1 & _). congruence.
    + destruct Hcall as (l & Hc & Hlen). pose proof (models_lookup _ _ _ _ HM Hc) as Hl.
      destruct l as [|[a v] l]; [simpl in Hlen; lia|].
      destruct (EraseAfter_Inv m M this _ 0 (before_begin this) a v HM HC Hl eq_refl eq_refl)
        as (m1 & Hrun1 & _).
      unfold PopFront in Hrun. by rewrite (bind_returns _ _ _ _ _ Hrun1) in Hrun.
    + destruct Hcall as (l & k & Hc & Hpos & Hk).
      pose proof (models_lookup _ _ _ _ HM Hc) as Hl.
      destruct (lookup_lt_is_Some_2 l k Hk) as [[a v] Hlk].
      destruct (EraseAfter_Inv m M this l k pos a v HM HC Hl Hpos Hlk) as (m1 & Hrun1 & _).
      by rewrite (bind_returns _ _ _ _ _ Hrun1) in Hrun.
    + destruct (models_object _ _ _ HM Hcall) as [l Hl].
      destruct (Clear_spec m M this l HM Hl) as (m1 & Hrun1 & _). congruence.
    + destruct Hcall as (H1 & H2).
      destruct (models_object _ _ _ HM H1) as [la Hla].
      destruct (models_object _ _ _ HM H2) as [lb Hlb].
      destruct (swap_spec m M this other la lb HM Hla Hlb) as (m1 & Hrun1 & _). congruence.
  - intros d. destruct (nodes_of m d) as [l|] eqn:E.
    + apply nodes_of_complete. apply (proj2 (Hsame d)). by apply nodes_of_sound.
    + destruct (nodes_of m' d) as [l'|] eqn:E'; [|done].
      apply nodes_of_sound in E'. pose proof (models_lookup _ _ _ _ HM' E') as Hl'.
      pose proof (models_chain _ _ _ _ HM Hl') as Hc. apply nodes_of_complete in Hc.
      congruence.
  - destruct Hreach as (tr0 & Hex0). exists (tr0 ++ [(c, false)]).
    clear -Hex0 Hcall Hrun. induction Hex0; simpl.
    + eapply execution_throws; [done|done|apply execution_done].
    + eapply execution_returns; eauto.
    + eapply execution_throws; eauto.
Qed.

(** X3. The functions declared [noexcept], the destructor and the
    constructor that makes an empty container never throw and allocate
    nothing: called within their contract, in a memory a program reaches,
    they return, and every node of the heap afterwards was there before. *)
Theorem noexcept_calls_return m c :
  reachable m → callable m c → allocates c = false →
  ∃ m', run c m = Returns tt m' ∧ reachable m' ∧
    ∀ b, is_Some (heap m' !! b) → is_Some (heap m !! b).
Proof.
  intros Hreach Hcall Halloc. pose proof (reachable_Inv _ Hreach) as (M & HM & HC).
  destruct (run_preserves m M c HM HC Hcall) as (m' & M' & [Hrun|Hrun] & _).
  - exists m'. split; [done|]. split.
    + destruct Hreach as (tr0 & Hex0). exists (tr0 ++ [(c, true)]).
      clear -Hex0 Hcall Hrun. induction Hex0; simpl.
      * eapply execution_returns; [done|done|apply execution_done].
      * eapply execution_returns; eauto.
      * eapply execution_throws; eauto.
    + destruct c; try done; simpl in Hrun, Hcall.
      * unfold construct, bind in Hrun. simpl in Hrun. by injection Hrun as <-.
      * destruct (models_object _ _ _ HM Hcall) as [l Hl].
        destruct (Clear_spec m M this l HM Hl) as (m1 & Hrun1 & _).
        unfold destroy in Hrun. rewrite (bind_returns _ _ _ _ _ Hrun1) in Hrun.
        unfold release in Hrun. injection Hrun as <-. simpl.
        intros b Hb. by eapply Clear_loop_shrinks.
      * unfold PopFront, bind in Hrun.
        destruct (EraseAfter this (before_begin this) m) as [r m2| | |] eqn:E; try done.
        injection Hrun as <-. by eapply EraseAfter_heap_shrinks.
      * unfold bind in Hrun.
        destruct (EraseAfter this pos m) as [r m2| | |] eqn:E; try done.
        injection Hrun as <-. by eapply EraseAfter_heap_shrinks.
      * intros b Hb. by eapply Clear_loop_shrinks.
      * destruct Hcall as (H1 & H2).
        destruct (models_object _ _ _ HM H1) as [la Hla].
        destruct (models_object _ _ _ HM H2) as [lb Hlb].
        destruct (swap_spec m M this other la lb HM Hla Hlb) as (m1 & Hrun1 & _ & Hheap & _).
        assert (m1 = m') as -> by congruence. by rewrite Hheap.
  - destruct (reachable_tight m Hreach) as (M0 & HM0 & HC0 & Ht0).
    exfalso. destruct c; try done; simpl in Hrun, Hcall.
    + destruct (models_object _ _ _ HM Hcall) as [l Hl].
      destruct (destroy_spec m M this l HM Hl) as (m1 & Hrun1 & _). congruence.
    + destruct Hcall as (l & Hc & Hlen). pose proof (models_lookup _ _ _ _ HM Hc) as Hl.
      destruct l as [|[a v] l]; [simpl in Hlen; lia|].
      destruct (EraseAfter_Inv m M this _ 0 (before_begin this) a v HM HC Hl eq_refl eq_refl)
        as (m1 & Hrun1 & _).
      unfold PopFront in Hrun. by rewrite (bind_returns _ _ _ _ _ Hrun1) in Hrun.
    + destruct Hcall as (l & k & Hc & Hpos & Hk).
      pose proof (models_lookup _ _ _ _ HM Hc) as Hl.
      destruct (lookup_lt_is_Some_2 l k Hk) as [[a v] Hlk].
      destruct (EraseAfter_Inv m M this l k pos a v HM HC Hl Hpos Hlk) as (m1 & Hrun1 & _).
      by rewrite (bind_returns _ _ _ _ _ Hrun1) in Hrun.
    + destruct (models_object _ _ _ HM Hcall) as [l Hl].
      destruct (Clear_spec m M this l HM Hl) as (m1 & Hrun1 & _). congruence.
    + destruct Hcall as (H1 & H2).
      destruct (models_object _ _ _ HM H1) as [la Hla].
      destruct (models_object _ _ _ HM H2) as [lb Hlb].
      destruct (swap_spec m M this other la lb HM Hla Hlb) as (m1 & Hrun1 & _). congruence.
Qed.

(** ** Operation by operation *)

Lemma Clear_loop_frees fuel m M this l m' :
  models m M → M !! this = Some l → Clear_loop fuel this m = Returns tt m' →
  ∀ b, b ∈ l.*1 → heap m' !! b = None.
Proof.
  revert fuel m M. induction l as [|[a v] l IH]; intros fuel m M HM Hl Hrun b Hb.
  - by apply elem_of_nil in Hb.
  - destruct (models_chain _ _ _ _ HM Hl) as (o & Ho & Hc).
    destruct (EraseAfter_general m M this this _ 0 (before_begin this) a v HM Hl)
      as (m1 & Hrun1 & HM1 & Ha & _); [done|done|by eauto|].
    simpl in HM1.
    assert (Hrest : ∃ fuel', Clear_loop fuel' this m1 = Returns tt m').
    { destruct fuel as [|fuel]; simpl in Hrun;
        rewrite (bind_returns _ _ _ _ _ (run_object _ _ _ Ho)) in Hrun;
        destruct Hc as (Hp & _); rewrite Hp in Hrun; simpl in Hrun; [done|].
      exists fuel. unfold PopFront in Hrun. unfold bind at 1 in Hrun.
      unfold bind at 1 in Hrun. by rewrite Hrun1 in Hrun. }
    destruct Hrest as (fuel' & Hrun').
    rewrite fmap_cons in Hb. apply elem_of_cons in Hb as [->|Hb].
    + simpl. destruct (heap m' !! a) as [n|] eqn:E; [|done].
      destruct (Clear_loop_shrinks fuel' this m1 m' a Hrun') as [n' Hn']; [by eauto|].
      congruence.
    + apply (IH fuel' m1 (<[this := l]> M) HM1); [by rewrite lookup_insert_eq|done|done].
Qed.

(** X4. [Clear()] returns, whatever the container holds.  Afterwards the
    container is empty by every measure ([GetSize()] is 0, [IsEmpty()]
    holds, [begin()] is [end()], a traversal yields nothing), the nodes it
    had are deleted, every other container is as before, and a second
    [Clear()] changes nothing. *)
Theorem Clear_empties m this l :
  Inv m → chain_of m this l →
  ∃ m',
    Clear this m = Returns tt m' ∧
    chain_of m' this [] ∧
    GetSize this m' = Returns 0 m' ∧
    IsEmpty this m' = Returns true m' ∧
    begin this m' = Returns end_ m' ∧
    traverse this m' = Returns [] m' ∧
    (∀ b, b ∈ l.*1 → heap m' !! b = None) ∧
    (∀ d, d ≠ this → same_list m m' d) ∧
    Inv m' ∧
    Clear this m' = Returns tt m'.
Proof.
  intros HI Hc. destruct (Inv_models m this l HI Hc) as (M & HM & HC & Hl).
  destruct (Clear_spec m M this l HM Hl) as (m' & Hrun & HM' & Hclock & Hsz & Hzero).
  assert (Hs0 : size_of m' this = Some 0) by (apply Hzero; by apply HC).
  assert (Hc' : chain_of m' this []).
  { apply (models_chain _ _ _ _ HM'). by rewrite lookup_insert_eq. }
  exists m'. split; [done|]. split; [done|].
  split; [by apply GetSize_spec|].
  split; [by rewrite (IsEmpty_spec _ _ _ Hs0)|].
  split.
  { destruct (run_begin m' this [] Hc') as (p & Hp & Hch).
    unfold chain in Hch. simpl in Hch. by subst p. }
  split; [by rewrite (traverse_spec _ _ _ Hc')|].
  split; [exact (Clear_loop_frees _ m M this l m' HM Hl Hrun)|].
  split; [intros d Hd; exact (same_list_insert m m' M [] this d HM HM' Hd (Hsz d Hd))|].
  split.
  { exists (<[this := []]> M). split; [done|].
    by apply (counted_update m m' M this [] HC). }
  destruct Hc' as (o & Ho & Hch). unfold chain in Hch. simpl in Hch.
  unfold Clear. destruct (size (heap m')); simpl;
    rewrite (bind_returns _ _ _ _ _ (run_object _ _ _ Ho)); rewrite Hch; done.
Qed.

(** X5. The destructor returns; afterwards the object is gone, the nodes
    it had are deleted, and every other container is as before. *)
Theorem destructor_releases m this l :
  Inv m → chain_of m this l →
  ∃ m',
    destroy this m = Returns tt m' ∧
    objs m' !! this = None ∧
    (∀ b, b ∈ l.*1 → heap m' !! b = None) ∧
    (∀ d, d ≠ this → same_list m m' d) ∧
    Inv m'.
Proof.
  intros HI Hc. destruct (Inv_models m this l HI Hc) as (M & HM & HC & Hl).
  destruct (destroy_spec m M this l HM Hl) as (m' & Hrun & HM' & Hclock & Hnone & Hsz).
  exists m'. split; [done|]. split.
  { unfold size_of in Hnone. by apply fmap_None in Hnone. }
  split.
  { intros b Hb. unfold destroy in Hrun.
    destruct (Clear_spec m M this l HM Hl) as (m1 & Hrun1 & _).
    rewrite (bind_returns _ _ _ _ _ Hrun1) in Hrun. unfold release in Hrun.
    injection Hrun as <-. simpl.
    exact (Clear_loop_frees _ m M this l m1 HM Hl Hrun1 b Hb). }
  split.
  { intros d Hd. apply (same_list_models m m' M (delete this M)); [done|done| |by apply Hsz].
    by rewrite lookup_delete_ne. }
  exists (delete this M). split; [done|]. intros c lc Hlc.
  destruct (decide (c = this)) as [->|Hne]; [by rewrite lookup_delete_eq in Hlc|].
  rewrite lookup_delete_ne in Hlc by done. rewrite Hsz by done. by apply HC.
Qed.

(** X6. [swap] never fails, allocates nothing and copies no node: the two
    containers exchange their chains, node for node at the same addresses,
    and their counts; the heap and every other container are untouched.
    The free function [swap(lhs, rhs)] does the same, and swapping twice
    restores both containers. *)
Theorem swap_exchanges m this other la lb :
  Inv m → chain_of m this la → chain_of m other lb →
  ∃ m',
    swap this other m = Returns tt m' ∧
    swap_free this other m = Returns tt m' ∧
    chain_of m' this lb ∧ chain_of m' other la ∧
    size_of m' this = size_of m other ∧ size_of m' other = size_of m this ∧
    heap m' = heap m ∧ clock m' = clock m ∧
    (∀ d, d ≠ this → d ≠ other → same_list m m' d) ∧
    Inv m' ∧
    ∃ m'', swap this other m' = Returns tt m'' ∧ ∀ d, same_list m m'' d.
Proof.
  intros HI Ha Hb. destruct (Inv_models m this la HI Ha) as (M & HM & HC & Hla).
  pose proof (models_lookup _ _ _ _ HM Hb) as Hlb.
  destruct (swap_spec m M this other la lb HM Hla Hlb)
    as (m' & Hrun & HM' & Hheap & Hclock & Hsz).
  set (M' := <[other := la]> (<[this := lb]> M)) in *.
  assert (Hla' : M' !! other = Some la) by (unfold M'; by rewrite lookup_insert_eq).
  assert (Hlb' : M' !! this = Some lb).
  { unfold M'. destruct (decide (this = other)) as [->|Hne].
    - rewrite lookup_insert_eq. congruence.
    - rewrite lookup_insert_ne by done. by rewrite lookup_insert_eq. }
  assert (HC' : counted m' M').
  { intros c lc Hlc. rewrite Hsz. unfold M' in Hlc.
    destruct (decide (c = other)) as [->|Hne1].
    - rewrite lookup_insert_eq in Hlc. injection Hlc as <-. by apply HC.
    - rewrite lookup_insert_ne in Hlc by done.
      destruct (decide (c = this)) as [->|Hne2].
      + rewrite lookup_insert_eq in Hlc. injection Hlc as <-. by apply HC.
      + rewrite lookup_insert_ne in Hlc by done. by apply HC. }
  exists m'. split; [done|]. split; [done|].
  split; [by apply (models_chain _ _ _ _ HM')|].
  split; [by apply (models_chain _ _ _ _ HM')|].
  split.
  { rewrite Hsz. destruct (decide (this = other)) as [->|Hne]; [done|].
    by destruct (decide (this = this)). }
  split; [rewrite Hsz; by destruct (decide (other = other))|].
  split; [done|]. split; [done|]. split.
  { intros d Hd1 Hd2. apply (same_list_models m m' M M'); [done|done| |].
    - unfold M'. by rewrite !lookup_insert_ne.
    - rewrite Hsz. destruct (decide (d = other)); [done|]. by destruct (decide (d = this)). }
  split; [by exists M'|].
  destruct (swap_spec m' M' this other lb la HM' Hlb' Hla')
    as (m'' & Hrun' & HM'' & _ & _ & Hsz').
  exists m''. split; [done|].
  assert (HMM : <[other := lb]> (<[this := la]> M') = M).
  { apply map_eq. intros d. unfold M'.
    destruct (decide (d = other)) as [->|Hne1].
    - by rewrite lookup_insert_eq.
    - rewrite lookup_insert_ne by done.
      destruct (decide (d = this)) as [->|Hne2].
      + by rewrite lookup_insert_eq.
      + by rewrite !lookup_insert_ne. }
  rewrite HMM in HM''. apply (same_list_all m m'' M HM HM'').
  intros d. rewrite Hsz', !Hsz.
  destruct (decide (d = other)) as [->|Hne1].
  - destruct (decide (this = other)) as [->|Hne]; [done|].
    by destruct (decide (this = this)).
  - destruct (decide (d = this)) as [->|Hne2]; [|done].
    by destruct (decide (other = other)).
Qed.

(** X7. The default constructor makes a container at a new address that
    is empty by every measure; it allocates no node and never throws, and
    every container that existed is as before. *)
Theorem default_constructor_makes_empty m :
  Inv m →
  ∃ this m',
    construct default_constructor m = Returns this m' ∧
    objs m !! this = None ∧
    chain_of m' this [] ∧
    GetSize this m' = Returns 0 m' ∧
    IsEmpty this m' = Returns true m' ∧
    begin this m' = Returns end_ m' ∧
    heap m' = heap m ∧ clock m' = clock m ∧
    (∀ d, d ≠ this → same_list m m' d) ∧
    Inv m'.
Proof.
  intros (M & HM & HC).
  destruct (construct_default_spec m M HM HC) as (Hfresh & m' & Hrun & HM' & HC' & Hsz).
  set (this := fresh (dom (objs m))) in *.
  assert (Hc' : chain_of m' this []).
  { apply (models_chain _ _ _ _ HM'). by rewrite lookup_insert_eq. }
  assert (Hs0 : size_of m' this = Some 0).
  { rewrite (HC' this []); [done|]. by rewrite lookup_insert_eq. }
  exists this, m'. split; [done|]. split.
  { destruct (objs m !! this) as [o|] eqn:E; [|done].
    destruct HM as (_ & Hlive & _). destruct (Hlive this) as [l Hl]; [by eauto|].
    congruence. }
  split; [done|]. split; [by apply GetSize_spec|].
  split; [by rewrite (IsEmpty_spec _ _ _ Hs0)|].
  split.
  { destruct (run_begin m' this [] Hc') as (p & Hp & Hch).
    unfold chain in Hch. simpl in Hch. by subst p. }
  assert (Hm' : m' = mkMemory (heap m) (<[this := empty_object]> (objs m)) (clock m)).
  { unfold construct, default_constructor, ret in Hrun. fold this in Hrun. congruence. }
  split; [by rewrite Hm'|]. split; [by rewrite Hm'|].
  split; [intros d Hd; exact (same_list_insert m m' M [] this d HM HM' Hd (Hsz d Hd))|].
  by exists (<[this := []]> M).
Qed.

(** ** Position handles *)

Lemma position_bound this (l : list (N * T)) k pos :
  position this l k pos → (k ≤ length l)%nat.
Proof.
  unfold position. destruct k as [|j]; simpl; [lia|].
  destruct (l !! j) as [x|] eqn:E; [|done]. intros _.
  apply lookup_lt_Some in E. lia.
Qed.

Lemma position_unique this (l : list (N * T)) k pos pos' :
  position this l k pos → position this l k pos' → pos' = pos.
Proof.
  unfold position. destruct pos as [p], pos' as [p']. simpl. congruence.
Qed.

Lemma position_next this (l : list (N * T)) k a v :
  l !! k = Some (a, v) → position this l (S k) (Iterator (cell a)).
Proof. intros Hk. unfold position. simpl. by rewrite Hk. Qed.

Lemma first_ptr_drop (l : list (N * T)) k a v :
  l !! k = Some (a, v) → first_ptr (drop k l) = cell a.
Proof. intros Hk. by rewrite (drop_S _ _ _ Hk). Qed.

Lemma first_ptr_drop_end (l : list (N * T)) k :
  (length l ≤ k)%nat → first_ptr (drop k l) = nullptr.
Proof. intros Hk. by rewrite drop_ge. Qed.

Lemma incr_at m this l k pos :
  chain_of m this l → position this l k pos →
  operator_incr pos m = Returns (Iterator (first_ptr (drop k l))) m.
Proof.
  intros Hc Hpos. destruct (position_node m this l k pos Hc Hpos) as (n & Hn & Hch & _).
  apply chain_first_ptr in Hch. unfold operator_incr.
  assert (Hnn : node_ pos ≠ nullptr) by (intros E; by rewrite E in Hn).
  rewrite bool_decide_true by done. unfold assert, bind, ret, load. simpl.
  rewrite Hn. by rewrite Hch.
Qed.

Lemma deref_at m this l k a v :
  chain_of m this l → l !! k = Some (a, v) →
  operator_deref (Iterator (cell a)) m = Returns v m.
Proof.
  intros (o & Ho & Hch) Hk. eapply run_operator_deref. by eapply chain_node.
Qed.

Lemma advance_from m this l k : ∀ j pos,
  chain_of m this l → position this l j pos → (j + k ≤ length l)%nat →
  ∃ it, advance pos k m = Returns it m ∧ position this l (j + k) it.
Proof.
  induction k as [|k IH]; intros j pos Hc Hpos Hle.
  - exists pos. rewrite Nat.add_0_r. done.
  - destruct (lookup_lt_is_Some_2 l j) as [[a v] Hj]; [lia|].
    destruct (IH (S j) (Iterator (cell a)) Hc (position_next this l j a v Hj)) as (it & Hrun & Hit);
      [lia|].
    exists it. split.
    + simpl. rewrite (bind_returns _ _ _ _ _ (incr_at m this l j pos Hc Hpos)).
      by rewrite (first_ptr_drop l j a v Hj).
    + by replace (j + S k)%nat with (S j + k)%nat by lia.
Qed.

(** X8. Walking with [++].  The handle with [k] nodes before its successor
    is the one that [k] increments of [before_begin()] arrive at.  One more
    [++] gives the handle to the node that follows, whose [*] is the value
    stored there, or [end()] after the last node, and [++] on [end()] is
    undefined; [it++] returns the handle as it was and advances in the same
    way.  [begin()] is [++before_begin()].  None of this changes the memory. *)
Theorem increments_walk_the_chain m this l k pos :
  chain_of m this l → position this l k pos →
  advance (before_begin this) k m = Returns pos m ∧
  operator_incr pos m = Returns (Iterator (first_ptr (drop k l))) m ∧
  operator_post_incr pos m = Returns (pos, Iterator (first_ptr (drop k l))) m ∧
  (∀ a v, l !! k = Some (a, v) →
     first_ptr (drop k l) = cell a ∧
     position this l (S k) (Iterator (cell a)) ∧
     operator_deref (Iterator (cell a)) m = Returns v m) ∧
  (k = length l →
     advance (before_begin this) (S k) m = Returns end_ m ∧
     advance (before_begin this) (S (S k)) m = Undefined) ∧
  begin this m = advance (before_begin this) 1 m.
Proof.
  intros Hc Hpos. pose proof (position_bound this l k pos Hpos) as Hk.
  pose proof (incr_at m this l k pos Hc Hpos) as Hincr.
  assert (Hadv : advance (before_begin this) k m = Returns pos m).
  { destruct (advance_from m this l k 0 (before_begin this) Hc eq_refl) as (it & Hrun & Hit);
      [simpl; lia|].
    simpl in Hit. by rewrite (position_unique _ _ _ _ _ Hpos Hit) in Hrun. }
  assert (Hadv' : ∀ j it, advance (before_begin this) j m = Returns it m →
            advance (before_begin this) (S j) m = operator_incr it m).
  { intros j. generalize (before_begin this). induction j as [|j IH]; intros it0 it Hrun.
    - simpl in Hrun. unfold ret in Hrun. injection Hrun as ->. simpl. unfold bind.
      by destruct (operator_incr it m).
    - simpl in Hrun. unfold bind in Hrun.
      destruct (operator_incr it0 m) as [it1 m1| | |] eqn:E; try done.
      assert (m1 = m) as ->.
      { unfold operator_incr, assert, bind, load, ret, undefined in E.
        destruct (bool_decide (node_ it0 ≠ nullptr)); [|done].
        destruct (node_at m (node_ it0)); [|done]. congruence. }
      change (advance it0 (S (S j)) m) with (bind (operator_incr it0) (λ it', advance it' (S j)) m).
      unfold bind at 1. rewrite E. by apply IH. }
  split; [done|]. split; [done|]. split.
  { unfold operator_post_incr.
    assert (Hnn : node_ pos ≠ nullptr).
    { destruct (position_node m this l k pos Hc Hpos) as (n & Hn & _).
      intros E. by rewrite E in Hn. }
    rewrite bool_decide_true by done. unfold assert. unfold bind at 1. unfold ret at 1.
    by rewrite (bind_returns _ _ _ _ _ Hincr). }
  split.
  { intros a v Hlk. split; [by eapply first_ptr_drop|].
    split; [by eapply position_next|]. by eapply deref_at. }
  split.
  { intros ->. rewrite first_ptr_drop_end in Hincr by done.
    assert (Hend : advance (before_begin this) (S (length l)) m = Returns end_ m).
    { by rewrite (Hadv' _ _ Hadv). }
    split; [done|]. by rewrite (Hadv' _ _ Hend). }
  destruct Hc as (o & Ho & Hch). unfold begin.
  rewrite (bind_returns _ _ _ _ _ (run_object _ _ _ Ho)).
  rewrite (Hadv' 0%nat (before_begin this)) by done.
  unfold operator_incr, before_begin, assert, bind, load, ret. simpl. by rewrite Ho.
Qed.

(** X9. Empty, by every measure at once.  With the invariant, [IsEmpty()]
    holds exactly when [begin()] is [end()], exactly when [GetSize()] is 0,
    exactly when a traversal yields nothing; and when it does not hold,
    [*begin()] is the first value.  None of the four changes the memory. *)
Theorem empty_by_every_measure m this l :
  Inv m → chain_of m this l →
  ∃ b it,
    IsEmpty this m = Returns b m ∧
    begin this m = Returns it m ∧
    b = iterator_eq it end_ ∧
    (b = true ↔ GetSize this m = Returns 0 m) ∧
    (b = true ↔ traverse this m = Returns [] m) ∧
    (b = true ↔ l = []) ∧
    (∀ a v, l !! 0%nat = Some (a, v) → b = false ∧ operator_deref it m = Returns v m).
Proof.
  intros HI Hc. pose proof (Inv_size m this l HI Hc) as Hs.
  destruct (run_begin m this l Hc) as (p & Hp & Hch).
  pose proof (chain_first_ptr _ _ _ Hch) as ->.
  exists (Z.of_nat (length l) =? 0), (Iterator (first_ptr l)).
  split; [by apply IsEmpty_spec|]. split; [done|].
  rewrite (GetSize_spec _ _ _ Hs), (traverse_spec _ _ _ Hc).
  destruct l as [|[a v] l]; simpl.
  - split; [done|]. split; [done|]. split; [done|]. split; [done|]. by intros ? ? [=].
  - split; [done|]. split; [split; [done|intros [=]; lia]|].
    split; [split; [done|by intros [=]]|]. split; [done|].
    intros a' v' [= <- <-]. split; [done|]. by eapply (deref_at m this _ 0%nat).
Qed.

(** X10. Outside the contract.  [EraseAfter] with the handle to the last
    node (or, in an empty container, [before_begin()]) is undefined, and so
    is [PopFront()] on an empty container: they follow an empty link.
    [Clear()] on an empty container does nothing. *)
Theorem nothing_to_erase_is_undefined m this l pos :
  chain_of m this l → position this l (length l) pos →
  EraseAfter this pos m = Undefined ∧
  (l = [] → PopFront this m = Undefined ∧ Clear this m = Returns tt m).
Proof.
  intros Hc Hpos. destruct (position_node m this l _ pos Hc Hpos) as (n & Hn & Hch & _).
  rewrite drop_ge in Hch by done. unfold chain in Hch. simpl in Hch.
  assert (Herase : EraseAfter this pos m = Undefined).
  { unfold EraseAfter, bind, load. rewrite Hn, Hch. done. }
  split; [done|]. intros ->. simpl in Hpos.
  assert (pos = before_begin this) as ->.
  { symmetry. by eapply (position_unique this [] 0%nat). }
  split.
  - unfold PopFront, bind. by rewrite Herase.
  - destruct Hc as (o & Ho & Hc). unfold chain in Hc. simpl in Hc.
    unfold Clear. destruct (size (heap m)); simpl;
      rewrite (bind_returns _ _ _ _ _ (run_object _ _ _ Ho)); rewrite Hc; done.
Qed.

(** ** Splicing and handles *)

Lemma splice_lookup {A} (l : list A) k x :
  (k ≤ length l)%nat → (take k l ++ x :: drop k l) !! k = Some x.
Proof.
  intros Hk. rewrite lookup_app_r by (rewrite length_take; lia).
  rewrite length_take. by replace (k - k `min` length l)%nat with 0%nat by lia.
Qed.

Lemma splice_delete {A} (l : list A) k x :
  (k ≤ length l)%nat → delete k (take k l ++ x :: drop k l) = l.
Proof.
  intros Hk.
  assert (Hlen : length (take k l) = k) by (rewrite length_take; lia).
  rewrite <- Hlen at 1. rewrite delete_middle. by rewrite take_drop.
Qed.

Lemma splice_drop {A} (l : list A) k x :
  (k ≤ length l)%nat → drop (S k) (take k l ++ x :: drop k l) = drop k l.
Proof.
  intros Hk.
  assert (Hlen : length (take k l) = k) by (rewrite length_take; lia).
  change (take k l ++ x :: drop k l) with (take k l ++ [x] ++ drop k l).
  rewrite app_assoc. apply drop_app_length'. rewrite length_app, Hlen. simpl. lia.
Qed.

Lemma splice_old {A} (l : list A) k x j y :
  (k ≤ length l)%nat → l !! j = Some y →
  (take k l ++ x :: drop k l) !! (if decide (j < k)%nat then j else S j) = Some y.
Proof.
  intros Hk Hj. case_decide.
  - rewrite lookup_app_l by (rewrite length_take; lia). by rewrite lookup_take_lt.
  - rewrite lookup_app_r by (rewrite length_take; lia). rewrite length_take.
    replace (S j - k `min` length l)%nat with (S (j - k)) by lia. simpl.
    rewrite lookup_drop. by replace (k + (j - k))%nat with j by lia.
Qed.

(** X11. The handles around an insertion.  When [InsertAfter(pos, v)]
    returns, the handle returned refers to a node that did not exist
    before; [*] of it is [v], [++pos] arrives at it, and [++] of it
    arrives where [++pos] arrived before.  The handles to the nodes the
    container already had remain handles to the same nodes, the ones
    behind [pos] one place further on. *)
Theorem InsertAfter_keeps_handles m this l k pos v r m' :
  Inv m → chain_of m this l → position this l k pos →
  InsertAfter this pos v m = Returns r m' →
  ∃ a l',
    r = Iterator (cell a) ∧ heap m !! a = None ∧
    l' = take k l ++ (a, v) :: drop k l ∧ chain_of m' this l' ∧
    position this l' (S k) r ∧
    operator_deref r m' = Returns v m' ∧
    operator_incr pos m' = Returns r m' ∧
    operator_incr pos m = Returns (Iterator (first_ptr (drop k l))) m ∧
    operator_incr r m' = Returns (Iterator (first_ptr (drop k l))) m' ∧
    (∀ j p, position this l j p →
       position this l' (if decide (j ≤ k)%nat then j else S j) p) ∧
    (∀ j b w, l !! j = Some (b, w) →
       operator_deref (Iterator (cell b)) m' = Returns w m').
Proof.
  intros HI Hc Hpos Hrun. destruct (Inv_models m this l HI Hc) as (M & HM & HC & Hl).
  pose proof (position_bound this l k pos Hpos) as Hk.
  pose proof (InsertAfter_Inv m M this l k pos v HM HC Hl Hpos) as Hspec. simpl in Hspec.
  destruct (new_throws (clock m) v || negb (address_ok (new_address m))); [congruence|].
  destruct Hspec as (m1 & Hrun1 & HM1 & HC1 & Hfresh & _).
  assert (m1 = m') as -> by congruence.
  assert (r = Iterator (cell (new_address m))) as -> by congruence.
  set (a := new_address m) in *. set (l' := take k l ++ (a, v) :: drop k l) in *.
  assert (Hc' : chain_of m' this l').
  { apply (models_chain _ _ _ _ HM1). by rewrite lookup_insert_eq. }
  assert (Hlk : l' !! k = Some (a, v)) by (by apply splice_lookup).
  assert (Hold : ∀ j p, position this l j p →
            position this l' (if decide (j ≤ k)%nat then j else S j) p).
  { intros j p. unfold position. destruct j as [|j]; [done|]. simpl.
    destruct (l !! j) as [y|] eqn:Hj; [|done]. intros [= Hp].
    pose proof (splice_old l k (a, v) j y Hk Hj) as Hy. fold l' in Hy.
    destruct (decide (S j ≤ k)%nat), (decide (j < k)%nat); try lia;
      simpl; rewrite Hy; simpl; congruence. }
  exists a, l'. split; [done|]. split; [done|]. split; [done|]. split; [done|].
  split; [by apply position_next with v|].
  split; [by eapply deref_at|].
  split.
  { pose proof (Hold k pos Hpos) as Hpos'. rewrite decide_True in Hpos' by lia.
    rewrite (incr_at m' this l' k pos Hc' Hpos'). by rewrite (first_ptr_drop l' k a v Hlk). }
  split; [by apply (incr_at m this l k pos)|].
  split.
  { rewrite (incr_at m' this l' (S k) _ Hc' (position_next this l' k a v Hlk)).
    unfold l'. by rewrite splice_drop. }
  split; [done|].
  intros j b w Hj. apply (deref_at m' this l' (if decide (j < k)%nat then j else S j) b w Hc').
  by apply splice_old.
Qed.

Lemma insert_erase_restores m this l k pos v r m1 :
  reachable m → chain_of m this l → position this l k pos →
  InsertAfter this pos v m = Returns r m1 →
  ∃ m2,
    EraseAfter this pos m1 = Returns (Iterator (first_ptr (drop k l))) m2 ∧
    heap m2 = heap m ∧ ∀ d, same_list m m2 d.
Proof.
  intros Hreach Hc Hpos Hrun.
  destruct (reachable_tight m Hreach) as (M & HM & HC & Ht).
  pose proof (models_lookup _ _ _ _ HM Hc) as Hl.
  pose proof (position_bound this l k pos Hpos) as Hk.
  assert (Hlive : is_Some (objs m !! this)) by (destruct Hc as (o & Ho & _); eauto).
  pose proof (InsertAfter_Inv m M this l k pos v HM HC Hl Hpos) as Hspec. simpl in Hspec.
  pose proof (InsertAfter_tidy m M this this l k pos v r m1 HM Ht Hl Hpos Hlive Hrun) as Ht1.
  destruct (new_throws (clock m) v || negb (address_ok (new_address m))); [congruence|].
  destruct Hspec as (m1' & Hrun1 & HM1 & HC1 & Hfresh & Hs1 & Hsz1).
  assert (m1' = m1) as -> by congruence.
  set (a := new_address m) in *. set (l' := take k l ++ (a, v) :: drop k l) in *.
  assert (Hl' : <[this := l']> M !! this = Some l') by (by rewrite lookup_insert_eq).
  assert (Hpos' : position this l' k pos).
  { revert Hpos. unfold position. destruct k as [|j]; [done|]. simpl.
    destruct (l !! j) as [y|] eqn:Hj; [|done]. intros [= Hp].
    pose proof (splice_old l (S j) (a, v) j y Hk Hj) as Hy.
    rewrite decide_True in Hy by lia. fold l' in Hy. rewrite Hy. simpl. congruence. }
  assert (Hlk : l' !! k = Some (a, v)) by (by apply splice_lookup).
  assert (Hlive1 : is_Some (objs m1 !! this)).
  { destruct (models_chain _ _ _ _ HM1 Hl') as (o & Ho & _). eauto. }
  destruct (EraseAfter_Inv m1 _ this l' k pos a v HM1 HC1 Hl' Hpos' Hlk)
    as (m2 & Hrun2 & HM2 & HC2 & _ & Hs2 & Hsz2).
  pose proof (EraseAfter_tidy m1 _ this this l' k pos a v _ m2 HM1 Ht1 Hl' Hpos' Hlk Hlive1 Hrun2)
    as Ht2.
  assert (HMM : <[this := delete k l']> (<[this := l']> M) = M).
  { rewrite insert_insert_eq. unfold l'. rewrite splice_delete by done. by apply insert_id. }
  rewrite HMM in HM2, HC2, Ht2.
  exists m2. split.
  { rewrite Hrun2. unfold l'. by rewrite splice_drop. }
  split; [by eapply heap_determined|].
  apply (same_list_all m m2 M HM HM2). intros d.
  destruct (M !! d) as [ld|] eqn:Hd.
  - by rewrite (HC2 d ld Hd), (HC d ld Hd).
  - destruct (decide (d = this)) as [->|Hne]; [congruence|].
    by rewrite Hsz2, Hsz1.
Qed.

(** X12. Insertion undone.  In a memory a program has reached, when
    [InsertAfter(pos, v)] returns, [EraseAfter(pos)] next returns the
    handle that followed [pos] to begin with and leaves the heap and every
    container exactly as they were before the insertion. *)
Theorem EraseAfter_undoes_InsertAfter m this l k pos v r m1 :
  reachable m → chain_of m this l → position this l k pos →
  InsertAfter this pos v m = Returns r m1 →
  ∃ next m2,
    operator_incr pos m = Returns next m ∧
    EraseAfter this pos m1 = Returns next m2 ∧
    heap m2 = heap m ∧ (∀ d, same_list m m2 d) ∧ (∀ d, nodes_of m2 d = nodes_of m d).
Proof.
  intros Hreach Hc Hpos Hrun.
  destruct (insert_erase_restores m this l k pos v r m1 Hreach Hc Hpos Hrun)
    as (m2 & Hrun2 & Hheap & Hsame).
  exists (Iterator (first_ptr (drop k l))), m2.
  split; [by apply (incr_at m this l k pos)|]. split; [done|]. split; [done|].
  split; [done|]. intros d. unfold nodes_of. rewrite Hheap.
  destruct (Hsame d) as (Hsz & _). unfold size_of in Hsz.
  destruct (objs m !! d) as [o|] eqn:Ho, (objs m2 !! d) as [o2|] eqn:Ho2; try done.
  assert (Hch : ∃ ld, chain_of m d ld).
  { destruct (reachable_Inv m Hreach) as (M & HM & _).
    destruct (models_object m M d HM) as [ld Hld]; [by eauto|].
    exists ld. by eapply models_chain. }
  destruct Hch as (ld & Hld). destruct (Hsame d) as (_ & Hch2).
  pose proof (Hch2 ld Hld) as Hld2.
  pose proof (nodes_of_complete _ _ _ Hld) as E1.
  pose proof (nodes_of_complete _ _ _ Hld2) as E2.
  unfold nodes_of in E1, E2. rewrite Ho in E1. rewrite Ho2, Hheap in E2. congruence.
Qed.

(** X13. [PushFront] undone.  In a memory a program has reached, when
    [PushFront(v)] returns, [PopFront()] next returns and leaves the heap
    and every container exactly as they were before the insertion. *)
Theorem PopFront_undoes_PushFront m this v m1 :
  reachable m → is_Some (objs m !! this) →
  PushFront this v m = Returns tt m1 →
  ∃ m2,
    PopFront this m1 = Returns tt m2 ∧
    heap m2 = heap m ∧ ∀ d, same_list m m2 d.
Proof.
  intros Hreach Hlive Hrun.
  destruct (reachable_Inv m Hreach) as (M & HM & _).
  destruct (models_object m M this HM Hlive) as [l Hl].
  pose proof (models_chain _ _ _ _ HM Hl) as Hc.
  rewrite PushFront_InsertAfter in Hrun. unfold bind in Hrun.
  destruct (InsertAfter this (before_begin this) v m) as [r m1'| | |] eqn:E; try done.
  unfold ret in Hrun. injection Hrun as ->.
  destruct (insert_erase_restores m this l 0 (before_begin this) v r m1 Hreach Hc eq_refl E)
    as (m2 & Hrun2 & Hheap & Hsame).
  exists m2. split; [|done]. unfold PopFront. by rewrite (bind_returns _ _ _ _ _ Hrun2).
Qed.

Lemma splice_take {A} (l : list A) k x :
  (k ≤ length l)%nat → take (S k) (take k l ++ x :: drop k l) = take k l ++ [x].
Proof.
  intros Hk.
  assert (Hlen : length (take k l) = k) by (rewrite length_take; lia).
  change (take k l ++ x :: drop k l) with (take k l ++ [x] ++ drop k l).
  rewrite app_assoc. apply take_app_length'. rewrite length_app, Hlen. simpl. lia.
Qed.

Lemma splice_length {A} (l : list A) k x :
  length (take k l ++ x :: drop k l) = S (length l).
Proof.
  rewrite length_app. simpl. rewrite length_take, length_drop. lia.
Qed.

(** X14. A run of insertions, each after the handle the one before
    returned.  When all return, the values stand in the container in the
    order given, between the nodes before and behind the first handle, the
    handle returned refers to the last of them, and the count has grown by
    their number.  When one throws, the values before it stay inserted (no
    roll-back) and the invariant still holds.  Other containers are as
    before in both cases. *)
Theorem InsertAfter_each_inserts_in_order m this l k pos vs :
  Inv m → chain_of m this l → position this l k pos →
  match InsertAfter_each this pos vs m with
  | Returns r m' =>
      ∃ new, new.*2 = vs ∧
        chain_of m' this (take k l ++ new ++ drop k l) ∧
        position this (take k l ++ new ++ drop k l) (k + length vs) r ∧
        GetSize this m' = Returns (Z.of_nat (length l + length vs)) m' ∧
        (∀ d, d ≠ this → same_list m m' d) ∧ Inv m'
  | Throws m' =>
      ∃ new rest, vs = new.*2 ++ rest ∧ rest ≠ [] ∧
        chain_of m' this (take k l ++ new ++ drop k l) ∧
        GetSize this m' = Returns (Z.of_nat (length l + length new)) m' ∧
        (∀ d, d ≠ this → same_list m m' d) ∧ Inv m'
  | Undefined | OutOfFuel => False
  end.
Proof.
  revert m l k pos. induction vs as [|v vs IH]; intros m l k pos HI Hc Hpos.
  - simpl. exists []. simpl. rewrite take_drop, !Nat.add_0_r.
    split; [done|]. split; [done|]. split; [done|].
    split; [apply GetSize_spec; by apply Inv_size|]. done.
  - destruct (Inv_models m this l HI Hc) as (M & HM & HC & Hl).
    pose proof (position_bound this l k pos Hpos) as Hk.
    pose proof (InsertAfter_Inv m M this l k pos v HM HC Hl Hpos) as Hspec. simpl in Hspec.
    simpl. destruct (new_throws (clock m) v || negb (address_ok (new_address m))).
    + rewrite (bind_throws _ _ _ _ Hspec).
      pose proof (models_tick m M (S (clock m)) HM) as HM'.
      exists [], (v :: vs). simpl. rewrite take_drop, !Nat.add_0_r.
      split; [done|]. split; [done|].
      split; [by apply (models_chain _ _ _ _ HM')|].
      split; [apply GetSize_spec; rewrite size_of_tick; by apply HC|].
      split; [intros d _; apply (same_list_all m _ M HM HM'); intros d'; apply size_of_tick|].
      exists M. split; [done|]. apply (counted_same m); [done|]. intros d. apply size_of_tick.
    + destruct Hspec as (m1 & Hrun1 & HM1 & HC1 & Hfresh & Hs1 & Hsz1).
      rewrite (bind_returns _ _ _ _ _ Hrun1).
      set (a := new_address m) in *. set (l1 := take k l ++ (a, v) :: drop k l) in *.
      assert (Hc1 : chain_of m1 this l1).
      { apply (models_chain _ _ _ _ HM1). by rewrite lookup_insert_eq. }
      assert (HI1 : Inv m1) by (by exists (<[this := l1]> M)).
      assert (Hpos1 : position this l1 (S k) (Iterator (cell a))).
      { apply position_next with v. by apply splice_lookup. }
      assert (Hsame1 : ∀ d, d ≠ this → same_list m m1 d).
      { intros d Hd. exact (same_list_insert m m1 M l1 this d HM HM1 Hd (Hsz1 d Hd)). }
      assert (Hshape : ∀ new : list (N * T),
                take (S k) l1 ++ new ++ drop (S k) l1 = take k l ++ ((a, v) :: new) ++ drop k l).
      { intros new. unfold l1. rewrite splice_take, splice_drop by done.
        by rewrite <- app_assoc. }
      assert (Hlen1 : length l1 = S (length l)) by apply splice_length.
      specialize (IH m1 l1 (S k) (Iterator (cell a)) HI1 Hc1 Hpos1).
      destruct (InsertAfter_each this (Iterator (cell a)) vs m1) as [r m'|m'| |]; [| |done|done].
      * destruct IH as (new & Hnew & Hc' & Hpos' & Hsize' & Hsame' & HI').
        rewrite Hshape in Hc', Hpos'.
        exists ((a, v) :: new). rewrite fmap_cons, Hnew.
        split; [done|]. split; [done|].
        simpl length. split; [by replace (k + S (length vs))%nat with (S k + length vs)%nat by lia|].
        split; [rewrite Hsize'; do 2 f_equal; lia|].
        split; [|done]. intros d Hd. eapply same_list_trans; [by apply Hsame1|by apply Hsame'].
      * destruct IH as (new & rest & Hvs & Hrest & Hc' & Hsize' & Hsame' & HI').
        rewrite Hshape in Hc'.
        exists ((a, v) :: new), rest. rewrite fmap_cons, Hvs.
        split; [done|]. split; [done|]. split; [done|]. simpl length.
        split; [rewrite Hsize'; do 2 f_equal; lia|].
        split; [|done]. intros d Hd. eapply same_list_trans; [by apply Hsame1|by apply Hsame'].
Qed.

(** X15. The handles around a removal.  [EraseAfter(pos)] deletes the
    node behind [pos]: using a handle to that node afterwards ([*], [++])
    is undefined.  The handles to all other nodes remain handles to the
    same nodes with the same values, the ones further on one place
    earlier, and [++pos] now arrives where the handle returned refers. *)
Theorem EraseAfter_invalidates_one_handle m this l k pos a v :
  Inv m → chain_of m this l → position this l k pos → l !! k = Some (a, v) →
  ∃ next m',
    EraseAfter this pos m = Returns next m' ∧
    chain_of m' this (delete k l) ∧
    operator_incr (Iterator (cell a)) m = Returns next m ∧
    operator_incr pos m' = Returns next m' ∧
    operator_deref (Iterator (cell a)) m' = Undefined ∧
    operator_incr (Iterator (cell a)) m' = Undefined ∧
    (∀ j p, position this l j p → j ≠ S k →
       position this (delete k l) (if decide (j ≤ k)%nat then j else pred j) p) ∧
    (∀ j b w, l !! j = Some (b, w) → j ≠ k →
       operator_deref (Iterator (cell b)) m' = Returns w m').
Proof.
  intros HI Hc Hpos Hlk. destruct (Inv_models m this l HI Hc) as (M & HM & HC & Hl).
  destruct (EraseAfter_Inv m M this l k pos a v HM HC Hl Hpos Hlk)
    as (m' & Hrun & HM' & HC' & Hgone & _).
  assert (Hc' : chain_of m' this (delete k l)).
  { apply (models_chain _ _ _ _ HM'). by rewrite lookup_insert_eq. }
  assert (Hothers : ∀ j y, l !! j = Some y → j ≠ k →
            delete k l !! (if decide (j < k)%nat then j else pred j) = Some y).
  { intros j y Hj Hne. case_decide.
    - by rewrite list_lookup_delete_lt.
    - rewrite list_lookup_delete_ge by lia. by replace (S (pred j)) with j by lia. }
  assert (Hold : ∀ j p, position this l j p → j ≠ S k →
            position this (delete k l) (if decide (j ≤ k)%nat then j else pred j) p).
  { intros j p. unfold position. destruct j as [|j]; [done|]. simpl.
    destruct (l !! j) as [y|] eqn:Hj; [|done]. intros [= Hp] Hne.
    assert (Hjk : j ≠ k) by lia. pose proof (Hothers j y Hj Hjk) as Hy.
    destruct (decide (S j ≤ k)%nat), (decide (j < k)%nat); try lia.
    - simpl. rewrite Hy. simpl. congruence.
    - destruct j as [|j]; [lia|]. simpl in *. rewrite Hy. simpl. congruence. }
  exists (Iterator (first_ptr (drop (S k) l))), m'.
  split; [done|]. split; [done|]. split.
  { rewrite (incr_at m this l (S k) _ Hc (position_next this l k a v Hlk)). done. }
  split.
  { pose proof (Hold k pos Hpos) as Hpos'. rewrite decide_True in Hpos' by lia.
    rewrite (incr_at m' this (delete k l) k pos Hc') by (apply Hpos'; lia).
    rewrite drop_delete_same; [done|]. apply lookup_lt_Some in Hlk. lia. }
  split; [unfold operator_deref, bind, load; simpl; by rewrite Hgone|].
  split; [unfold operator_incr, assert, bind, load; simpl; by rewrite Hgone|].
  split; [done|].
  intros j b w Hj Hne. eapply (deref_at m' this (delete k l)); [done|].
  by apply Hothers.
Qed.

(** ** Comparisons *)

Lemma equal_along_shorter xs ys :
  (length xs ≤ length ys)%nat →
  equal_along xs ys = Some (same_elements xs (take (length xs) ys)).
Proof.
  revert ys. induction xs as [|x xs IH]; intros [|y ys] Hlen; simpl in *; try done; try lia.
  destruct (T_eq x y); simpl; [|done]. apply IH. lia.
Qed.

Lemma equal_along_longer xs ys :
  (length ys < length xs)%nat →
  equal_along xs ys =
    if same_elements (take (length ys) xs) ys then None else Some false.
Proof.
  revert ys. induction xs as [|x xs IH]; intros [|y ys] Hlen; simpl in *; try done; try lia.
  destruct (T_eq x y); simpl; [|done]. apply IH. lia.
Qed.

Lemma lexicographical_lt_irrefl xs :
  (∀ z, T_lt z z = false) → lexicographical_lt xs xs = false.
Proof. intros Hirr. induction xs as [|x xs IH]; simpl; [done|]. by rewrite Hirr. Qed.

Lemma lexicographical_lt_asym xs ys :
  (∀ x y, T_lt x y = true → T_lt y x = false) →
  lexicographical_lt xs ys = true → lexicographical_lt ys xs = false.
Proof.
  intros Hasym. revert ys. induction xs as [|x xs IH]; intros [|y ys]; simpl; try done.
  destruct (T_lt x y) eqn:Exy.
  - by rewrite (Hasym _ _ Exy).
  - destruct (T_lt y x); [done|]. apply IH.
Qed.

Lemma same_values_compare_equal m a b la lb :
  (∀ z, T_eq z z = true) → (∀ z, T_lt z z = false) →
  chain_of m a la → chain_of m b lb → la.*2 = lb.*2 →
  operator_eq a b m = Returns true m ∧ operator_eq b a m = Returns true m ∧
  operator_ne a b m = Returns false m ∧
  operator_lt a b m = Returns false m ∧ operator_lt b a m = Returns false m.
Proof.
  intros Hrefl Hirr Ha Hb Hv.
  assert (Heq : ∀ xs, equal_along xs xs = Some true).
  { intros xs. rewrite <- (app_nil_r xs) at 2. by apply equal_along_prefix. }
  assert (H1 : operator_eq a b m = Returns true m).
  { by rewrite (operator_eq_spec _ _ _ _ _ Ha Hb), Hv, Heq. }
  split; [done|].
  split; [by rewrite (operator_eq_spec _ _ _ _ _ Hb Ha), Hv, Heq|].
  split; [unfold operator_ne; by rewrite (bind_returns _ _ _ _ _ H1)|].
  split.
  - by rewrite (operator_lt_spec _ _ _ _ _ Ha Hb), Hv, lexicographical_lt_irrefl.
  - by rewrite (operator_lt_spec _ _ _ _ _ Hb Ha), Hv, lexicographical_lt_irrefl.
Qed.

(** X16. A copy compares equal to its source.  With [==] reflexive and
    [<] irreflexive on the elements, when the copy constructor returns,
    the copy and the source are [==] both ways round, not [!=], and neither
    is [<] the other; the comparisons change nothing. *)
Theorem a_copy_compares_equal m other l this m' :
  (∀ z, T_eq z z = true) → (∀ z, T_lt z z = false) →
  Inv m → chain_of m other l →
  construct (copy_constructor other) m = Returns this m' →
  operator_eq this other m' = Returns true m' ∧
  operator_eq other this m' = Returns true m' ∧
  operator_ne this other m' = Returns false m' ∧
  operator_lt this other m' = Returns false m' ∧
  operator_lt other this m' = Returns false m'.
Proof.
  intros Hrefl Hirr HI Hl Hrun. destruct (Inv_models _ _ _ HI Hl) as (M & HM & HC & HMl).
  destruct (construct_CopyList_spec m M (Ref other) l.*1 l.*2 (copy_constructor other) HM)
    as (Hnone & m1 & [(Hrun1 & _)|(Hrun1 & l' & HM' & Hvs & _)]).
  { by eapply ListRef_denotes_model. }
  { intros. by apply copy_constructor_fresh. }
  { congruence. }
  assert (m1 = m') as -> by congruence.
  assert (this = fresh (dom (objs m))) as -> by congruence.
  apply (same_values_compare_equal m' _ other l' l Hrefl Hirr); [| |done].
  - eapply models_chain; [done|]. by rewrite lookup_insert_eq.
  - eapply models_chain; [done|]. rewrite lookup_insert_ne; [done|]. congruence.
Qed.

(** X17. After an assignment the two sides compare equal.  With [==]
    reflexive and [<] irreflexive on the elements, when [lhs = rhs]
    returns, [lhs] and [rhs] are [==] both ways round, not [!=], and
    neither is [<] the other. *)
Theorem assigned_compares_equal m this rhs la lb m' :
  (∀ z, T_eq z z = true) → (∀ z, T_lt z z = false) →
  Inv m → chain_of m this la → chain_of m rhs lb →
  operator_assign this rhs m = Returns tt m' →
  operator_eq this rhs m' = Returns true m' ∧
  operator_eq rhs this m' = Returns true m' ∧
  operator_ne this rhs m' = Returns false m' ∧
  operator_lt this rhs m' = Returns false m' ∧
  operator_lt rhs this m' = Returns false m'.
Proof.
  intros Hrefl Hirr HI Hla Hlb Hrun.
  destruct (Inv_models _ _ _ HI Hla) as (M & HM & HC & HMa).
  pose proof (models_lookup _ _ _ _ HM Hlb) as HMb.
  destruct (decide (this = rhs)) as [->|Hne].
  - unfold operator_assign in Hrun. rewrite bool_decide_eq_true_2 in Hrun by done.
    unfold ret in Hrun. injection Hrun as <-.
    by apply (same_values_compare_equal m rhs rhs lb lb).
  - destruct (operator_assign_spec m M this rhs la lb HM HC HMa HMb)
      as (m1 & [(Hrun1 & _)|(Hrun1 & l & HM' & Hvs & _)]); [congruence|].
    assert (m1 = m') as -> by congruence.
    apply (same_values_compare_equal m' this rhs l lb Hrefl Hirr); [| |done].
    + eapply models_chain; [done|]. by rewrite lookup_insert_eq.
    + eapply models_chain; [done|]. by rewrite lookup_insert_ne.
Qed.

(** X18. What [operator==] compares.  It walks the left container and
    reads the right one alongside, so it compares the left container with
    the beginning of the right one: for a right side at least as long the
    result is whether the left values equal the first values of the right,
    and for equal lengths that is elementwise equality.  For a shorter
    right side it returns [false] at a difference found within the right
    side's length, and is undefined otherwise (it reads past the end). *)
Theorem operator_eq_walks_the_left_side m lhs rhs l1 l2 :
  chain_of m lhs l1 → chain_of m rhs l2 →
  ((length l1 ≤ length l2)%nat →
     operator_eq lhs rhs m =
       Returns (same_elements l1.*2 (take (length l1) l2.*2)) m) ∧
  (length l1 = length l2 →
     operator_eq lhs rhs m = Returns (same_elements l1.*2 l2.*2) m ∧
     operator_ne lhs rhs m = Returns (negb (same_elements l1.*2 l2.*2)) m) ∧
  ((length l2 < length l1)%nat →
     operator_eq lhs rhs m =
       if same_elements (take (length l2) l1.*2) l2.*2 then Undefined
       else Returns false m).
Proof.
  intros H1 H2. pose proof (operator_eq_spec _ _ _ _ _ H1 H2) as Heq.
  split; [|split].
  - intros Hle. rewrite Heq, equal_along_shorter by (by rewrite !length_fmap).
    by rewrite length_fmap.
  - intros Hlen.
    assert (E : operator_eq lhs rhs m = Returns (same_elements l1.*2 l2.*2) m).
    { rewrite Heq, equal_along_same_length by (by rewrite !length_fmap). done. }
    split; [done|]. unfold operator_ne. by rewrite (bind_returns _ _ _ _ _ E).
  - intros Hlt. rewrite Heq, equal_along_longer by (by rewrite !length_fmap).
    rewrite length_fmap. by destruct (same_elements _ _).
Qed.

Lemma lexicographical_lt_trans xs ys zs :
  (∀ x y, T_lt x y = true → T_lt y x = false) →
  (∀ x y z, T_lt x y = true → T_lt x z = true ∨ T_lt z y = true) →
  lexicographical_lt xs ys = true → lexicographical_lt ys zs = true →
  lexicographical_lt xs zs = true.
Proof.
  intros Hasym Hneg. revert ys zs.
  induction xs as [|x xs IH]; intros [|y ys] [|z zs]; simpl; try done.
  destruct (T_lt x y) eqn:Exy.
  - intros _. destruct (T_lt y z) eqn:Eyz.
    + intros _. destruct (Hneg _ _ z Exy) as [E|E]; [by rewrite E|].
      by rewrite (Hasym _ _ Eyz) in E.
    + destruct (T_lt z y) eqn:Ezy; [done|]. intros _.
      destruct (Hneg _ _ z Exy) as [E|E]; [by rewrite E|congruence].
  - destruct (T_lt y x) eqn:Eyx; [done|]. intros Hxy.
    destruct (T_lt y z) eqn:Eyz.
    + intros _. destruct (Hneg _ _ x Eyz) as [E|E]; [congruence|by rewrite E].
    + destruct (T_lt z y) eqn:Ezy; [done|]. intros Hyz.
      destruct (T_lt x z) eqn:Exz; [done|].
      destruct (T_lt z x) eqn:Ezx.
      * destruct (Hneg _ _ y Ezx) as [E|E]; congruence.
      * by apply (IH ys zs).
Qed.

(** X19. [operator<] is a strict order when the elements' [<] is a strict
    weak order: no container is less than itself, of [a < b] and [b < a]
    at most one holds, [a < b] and [b < c] give [a < c], and [a <= b] or
    [b <= a]. *)
Theorem operator_lt_is_strict m a b c la lb lc :
  (∀ x y, T_lt x y = true → T_lt y x = false) →
  (∀ x y z, T_lt x y = true → T_lt x z = true ∨ T_lt z y = true) →
  chain_of m a la → chain_of m b lb → chain_of m c lc →
  operator_lt a a m = Returns false m ∧
  (operator_lt a b m = Returns true m → operator_lt b a m = Returns false m) ∧
  (operator_lt a b m = Returns true m → operator_lt b c m = Returns true m →
     operator_lt a c m = Returns true m) ∧
  (operator_le a b m = Returns true m ∨ operator_le b a m = Returns true m).
Proof.
  intros Hasym Hneg Ha Hb Hc.
  assert (Hirr : ∀ z, T_lt z z = false).
  { intros z. destruct (T_lt z z) eqn:E; [|done]. by rewrite (Hasym _ _ E) in E. }
  pose proof (operator_lt_spec _ _ _ _ _ Ha Hb) as Hab.
  pose proof (operator_lt_spec _ _ _ _ _ Hb Ha) as Hba.
  split; [by rewrite (operator_lt_spec _ _ _ _ _ Ha Ha), lexicographical_lt_irrefl|].
  split; [|split].
  - rewrite Hab, Hba. intros [= E]. by rewrite (lexicographical_lt_asym _ _ Hasym E).
  - rewrite Hab, (operator_lt_spec _ _ _ _ _ Hb Hc), (operator_lt_spec _ _ _ _ _ Ha Hc).
    intros [= E1] [= E2]. by rewrite (lexicographical_lt_trans _ _ _ Hasym Hneg E1 E2).
  - unfold operator_le. rewrite (bind_returns _ _ _ _ _ Hab), (bind_returns _ _ _ _ _ Hba).
    destruct (lexicographical_lt la.*2 lb.*2) eqn:E.
    + left. by rewrite (lexicographical_lt_asym _ _ Hasym E).
    + by right.
Qed.

(** ** The sentinel's value *)

Lemma keeps_ret P {A} (a : A) : keeps P (ret a).
Proof. by intros m Hm. Qed.

Lemma keeps_bind P {A B} (e : Exec A) (k : A → Exec B) :
  keeps P e → (∀ a, keeps P (k a)) → keeps P (bind e k).
Proof.
  intros He Hk m Hm. specialize (He m Hm). unfold bind.
  destruct (e m) as [a m1|m1| |]; try done. by apply Hk.
Qed.

Lemma keeps_read P {A} (f : Memory → A) : keeps P (λ m, Returns (f m) m).
Proof. by intros m Hm. Qed.

Lemma keeps_assert P b : keeps P (assert b).
Proof. intros m Hm. by destruct b. Qed.

Lemma keeps_load P p : keeps P (load p).
Proof. intros m Hm. unfold load. by destruct (node_at m p). Qed.

Lemma keeps_object P this : keeps P (object this).
Proof. intros m Hm. unfold object. by destruct (objs m !! this). Qed.

Lemma keeps_finally P {A} (body : Exec A) cleanup :
  keeps P body → keeps P cleanup → keeps P (finally body cleanup).
Proof.
  intros Hb Hc m Hm. specialize (Hb m Hm). unfold finally.
  destruct (body m) as [a m1|m1| |]; try done.
  - apply (keeps_bind P cleanup (λ _, ret a) Hc); [|done]. intros _. apply keeps_ret.
  - specialize (Hc m1 Hb). by destruct (cleanup m1).
Qed.

Lemma heads_set_next_node p q : keeps heads_default (set_next_node p q).
Proof.
  intros m Hm. unfold set_next_node.
  destruct (node_at m p) as [n|] eqn:Hn; [|done].
  destruct p as [|this|a]; simpl in *; [done| |done].
  intros d o. simpl. destruct (decide (d = this)) as [->|Hne].
  - rewrite lookup_alter_eq. destruct (objs m !! this) as [o'|] eqn:Ho; [|done].
    simpl. intros [= <-]. simpl. injection Hn as <-. by apply (Hm this).
  - rewrite lookup_alter_ne by done. apply Hm.
Qed.

Lemma heads_set_size this z : keeps heads_default (set_size this z).
Proof.
  intros m Hm. unfold set_size. destruct (objs m !! this) as [o|] eqn:Ho; [|done].
  intros d o'. simpl. destruct (decide (d = this)) as [->|Hne].
  - rewrite lookup_insert_eq. intros [= <-]. simpl. by apply (Hm this).
  - rewrite lookup_insert_ne by done. apply Hm.
Qed.

Lemma heads_new_Node v next : keeps heads_default (new_Node v next).
Proof. intros m Hm. unfold new_Node. by destruct (_ || _). Qed.

Lemma heads_delete_Node p : keeps heads_default (delete_Node p).
Proof.
  intros m Hm. unfold delete_Node. destruct p as [| |a]; try done.
  by destruct (heap m !! a).
Qed.

Lemma heads_release this : keeps heads_default (release this).
Proof.
  intros m Hm d o. simpl. destruct (decide (d = this)) as [->|Hne].
  - by rewrite lookup_delete_eq.
  - rewrite lookup_delete_ne by done. apply Hm.
Qed.

Lemma heads_construct body :
  (∀ this, keeps heads_default (body this)) → keeps heads_default (construct body).
Proof.
  intros Hb m Hm. unfold construct. set (this := fresh (dom (objs m))).
  set (m0 := mkMemory (heap m) (<[this := empty_object]> (objs m)) (clock m)).
  assert (Hm0 : heads_default m0).
  { intros d o. simpl. destruct (decide (d = this)) as [->|Hne].
    - rewrite lookup_insert_eq. by intros [= <-].
    - rewrite lookup_insert_ne by done. apply Hm. }
  specialize (Hb this m0 Hm0). destruct (body this m0) as [a m1|m1| |]; try done.
  by apply heads_release.
Qed.

Ltac keeps_steps :=
  repeat first
    [ apply keeps_ret | apply keeps_read | apply keeps_assert | apply keeps_load
    | apply keeps_object | apply heads_set_next_node | apply heads_set_size
    | apply heads_new_Node | apply heads_delete_Node | apply heads_release
    | apply keeps_bind; [|intros ?] ].

Lemma heads_incr_size this : keeps heads_default (incr_size this).
Proof. unfold incr_size. keeps_steps. Qed.

Lemma heads_decr_size this : keeps heads_default (decr_size this).
Proof. unfold decr_size. keeps_steps. Qed.

Lemma heads_operator_incr it : keeps heads_default (operator_incr it).
Proof. unfold operator_incr. keeps_steps. Qed.

Lemma heads_operator_deref it : keeps heads_default (operator_deref it).
Proof. unfold operator_deref. keeps_steps. Qed.

Lemma heads_InsertAfter this pos v : keeps heads_default (InsertAfter this pos v).
Proof. unfold InsertAfter. keeps_steps; try apply heads_incr_size. Qed.

Lemma heads_EraseAfter this pos : keeps heads_default (EraseAfter this pos).
Proof. unfold EraseAfter. keeps_steps; try apply heads_decr_size. Qed.

Lemma heads_PushFront this v : keeps heads_default (PushFront this v).
Proof. unfold PushFront. keeps_steps; try apply heads_incr_size. Qed.

Lemma heads_PopFront this : keeps heads_default (PopFront this).
Proof. unfold PopFront. keeps_steps; try apply heads_EraseAfter. Qed.

Lemma heads_Clear this : keeps heads_default (Clear this).
Proof.
  assert (Hloop : ∀ fuel, keeps heads_default (Clear_loop fuel this)).
  { induction fuel as [|fuel IH]; simpl; apply keeps_bind; try apply keeps_object;
      intros o; destruct (bool_decide _); try apply keeps_ret; [done|].
    apply keeps_bind; [apply heads_PopFront|done]. }
  intros m Hm. by apply (Hloop (size (heap m)) m).
Qed.

Lemma heads_swap this other : keeps heads_default (swap this other).
Proof. unfold swap. keeps_steps. Qed.

Lemma heads_destroy this : keeps heads_default (destroy this).
Proof. unfold destroy. keeps_steps; try apply heads_Clear. Qed.

Lemma heads_CopyList `{TList L} this (other : L) :
  keeps heads_default (range_begin other) →
  (∀ it, keeps heads_default (range_deref it)) →
  (∀ it, keeps heads_default (range_incr it)) →
  keeps heads_default (CopyList this other).
Proof.
  intros Hbegin Hderef Hincr.
  assert (Hloop : ∀ fuel tmp node_it it,
            keeps heads_default (CopyList_loop fuel this tmp node_it it)).
  { induction fuel as [|fuel IH]; intros tmp node_it it; simpl;
      destruct (range_at_end it); try apply keeps_ret; [done|].
    apply keeps_bind; [apply Hderef|intros val].
    apply keeps_bind; [apply heads_InsertAfter|intros inserted].
    apply keeps_bind; [apply heads_operator_incr|intros _].
    apply keeps_bind; [apply heads_incr_size|intros _].
    apply keeps_bind; [apply Hincr|intros it']. apply IH. }
  unfold CopyList. apply keeps_bind.
  - apply heads_construct. intros tmp. apply keeps_ret.
  - intros tmp. apply keeps_finally; [|apply heads_destroy].
    apply keeps_bind; [done|intros it]. apply keeps_bind; [apply keeps_read|intros fuel].
    apply keeps_bind; [apply Hloop|intros _]. apply heads_swap.
Qed.

Lemma heads_initializer_list_constructor values this :
  keeps heads_default (initializer_list_constructor values this).
Proof.
  apply heads_CopyList.
  - apply keeps_ret.
  - intros [|v it]; [done|apply keeps_ret].
  - intros [|v it]; [done|apply keeps_ret].
Qed.

Lemma heads_copy_constructor other this :
  keeps heads_default (copy_constructor other this).
Proof.
  unfold copy_constructor. apply keeps_bind; [apply keeps_object|intros o].
  apply keeps_bind; [apply keeps_assert|intros _].
  apply heads_CopyList.
  - simpl. unfold begin. keeps_steps.
  - apply heads_operator_deref.
  - apply heads_operator_incr.
Qed.

Lemma heads_run c : keeps heads_default (run c).
Proof.
  destruct c; simpl.
  - apply keeps_bind; [|intros; apply keeps_ret]. apply heads_construct.
    intros this. apply keeps_ret.
  - apply keeps_bind; [|intros; apply keeps_ret]. apply heads_construct.
    intros this. apply heads_initializer_list_constructor.
  - apply keeps_bind; [|intros; apply keeps_ret]. apply heads_construct.
    intros this. apply heads_copy_constructor.
  - apply heads_destroy.
  - apply heads_PushFront.
  - apply heads_PopFront.
  - apply keeps_bind; [|intros; apply keeps_ret]. apply heads_InsertAfter.
  - apply keeps_bind; [|intros; apply keeps_ret]. apply heads_EraseAfter.
  - apply heads_Clear.
  - apply heads_swap.
  - unfold operator_assign. destruct (bool_decide _); [apply keeps_ret|].
    apply keeps_bind.
    + apply heads_construct. intros tmp. apply heads_copy_constructor.
    + intros tmp. apply keeps_finally; [apply heads_swap|apply heads_destroy].
Qed.

Lemma execution_heads m tr m' :
  execution m tr m' → heads_default m → heads_default m'.
Proof.
  intros Hex. induction Hex as [m|m c m1 tr m' _ Hrun _ IH|m c m1 tr m' _ Hrun _ IH];
    intros H0; [done| |].
  - apply IH. pose proof (heads_run c m H0) as Hk. by rewrite Hrun in Hk.
  - apply IH. pose proof (heads_run c m H0) as Hk. by rewrite Hrun in Hk.
Qed.

(** X20. The sentinel is a node like the others and holds a value, the
    one its member initialiser gave it.  No operation writes it, so in
    every memory a program reaches, [*before_begin()] returns the default
    value, and [++before_begin()] is [begin()]. *)
Theorem before_begin_dereferences_to_default m this :
  reachable m → is_Some (objs m !! this) →
  operator_deref (before_begin this) m = Returns T_default m ∧
  ∃ it, operator_incr (before_begin this) m = Returns it m ∧
        begin this m = Returns it m.
Proof.
  intros (tr & Hex) [o Ho].
  assert (Hm : heads_default m).
  { apply (execution_heads _ _ _ Hex). intros d o'. simpl. by rewrite lookup_empty. }
  split.
  - unfold operator_deref, before_begin, bind, load, ret. simpl. rewrite Ho. simpl.
    by rewrite (Hm this o Ho).
  - exists (Iterator (next_node (head_ o))).
    unfold operator_incr, begin, before_begin, assert, bind, load, object, ret. simpl.
    by rewrite Ho.
Qed.

(** X21. [PushFront(v)] does what [InsertAfter(before_begin(), v)] does,
    the value returned apart: the same outcome (return, exception or
    undefined behaviour) and the same memory, in every memory. *)
Theorem PushFront_is_InsertAfter_before_begin m this v :
  PushFront this v m =
    match InsertAfter this (before_begin this) v m with
    | Returns _ m' => Returns tt m'
    | Throws m' => Throws m'
    | Undefined => Undefined
    | OutOfFuel => OutOfFuel
    end.
Proof.
  unfold PushFront, InsertAfter, bind, object, load, node_at, before_begin. simpl.
  destruct (objs m !! this) as [o|]; simpl; [|done].
  destruct (new_Node v (next_node (head_ o)) m) as [p m1| | |]; try done.
  destruct (set_next_node (sentinel_of this) p m1) as [? m2| | |]; try done.
  destruct (incr_size this m2) as [[] ?| | |]; done.
Qed.

(** X22. Handles compare by the node they refer to.  Two handles into a
    container are [==] exactly when they are handles to the same place,
    and [!=] otherwise; no handle to a node or to the sentinel is [==]
    [end()]; handles into different containers are never [==]. *)
Theorem handles_compare_by_place m this l j k p q :
  Inv m → chain_of m this l → position this l j p → position this l k q →
  iterator_eq p q = bool_decide (j = k) ∧
  iterator_ne p q = negb (bool_decide (j = k)) ∧
  iterator_eq p end_ = false ∧ iterator_eq end_ end_ = true ∧
  (∀ that l' i r, that ≠ this → chain_of m that l' → position that l' i r →
     iterator_eq p r = false).
Proof.
  intros HI Hc Hp Hq. destruct (Inv_models m this l HI Hc) as (M & HM & HC & Hl).
  pose proof (models_NoDup _ _ _ _ HM Hl) as Hnd.
  destruct p as [p], q as [q]. unfold position in Hp, Hq. simpl in Hp, Hq.
  unfold iterator_eq, iterator_ne, end_. simpl.
  assert (Heq : p = q ↔ j = k).
  { destruct j as [|j], k as [|k]; simpl in Hp, Hq.
    - split; [done|]. congruence.
    - destruct (l !! k); [|done]. simpl in Hq. split; [congruence|done].
    - destruct (l !! j); [|done]. simpl in Hp. split; [congruence|done].
    - destruct (l !! j) as [x|] eqn:Hj; [|done]. destruct (l !! k) as [y|] eqn:Hk; [|done].
      simpl in Hp, Hq. split.
      + intros E. f_equal. apply (NoDup_lookup _ j k x.1 Hnd); rewrite list_lookup_fmap.
        * by rewrite Hj.
        * rewrite Hk. simpl. congruence.
      + intros [= ->]. congruence. }
  split; [by apply bool_decide_ext|]. split.
  { rewrite <- (bool_decide_ext _ _ Heq). by rewrite bool_decide_not. }
  split.
  { apply bool_decide_eq_false_2. destruct j as [|j]; simpl in Hp; [congruence|].
    destruct (l !! j); [|done]. simpl in Hp. congruence. }
  split; [done|].
  intros that l' i [r] Hne Hc' Hr. unfold position in Hr. simpl in Hr.
  apply bool_decide_eq_false_2. intros ->.
  pose proof (models_lookup _ _ _ _ HM Hc') as Hl'.
  destruct j as [|j], i as [|i]; simpl in Hp, Hr.
  - congruence.
  - destruct (l' !! i); [|done]. simpl in Hr. congruence.
  - destruct (l !! j); [|done]. simpl in Hp. congruence.
  - destruct (l !! j) as [x|] eqn:Hj; [|done]. destruct (l' !! i) as [y|] eqn:Hi; [|done].
    simpl in Hp, Hr. destruct HM as (_ & _ & _ & Hdis).
    apply (Hdis this that l l' (not_eq_sym Hne) Hl Hl' x.1).
    + apply list_elem_of_fmap. exists x. split; [done|]. by eapply list_elem_of_lookup_2.
    + apply list_elem_of_fmap. exists y. split; [congruence|]. by eapply list_elem_of_lookup_2.
Qed.

End SingleLinkedList.

Arguments Returns {T A} a m.
Arguments Throws {T A} m.
Arguments Undefined {T A}.
Arguments OutOfFuel {T A}.

(** * Containers of integers: concrete runs *)

Section Integers.

(** [new] never throws here, unless said otherwise. *)
Local Abbreviation never := (λ (_ : nat) (_ : Z), false).
Local Abbreviation always := (λ (_ : nat) (_ : Z), true).

(** The memory after [SingleLinkedList<int> a{1}; SingleLinkedList<int> b{1, 2};]:
    [a] is the object at address 0, [b] the one at address 1. *)
Local Abbreviation memory_a1 :=
  (mkMemory (<[1%N := mkNode 1 nullptr]> ∅)
            (<[0%N := mkList (mkNode 0 (cell 1)) 1]> ∅) 1).
Local Abbreviation memory_a1_b12 :=
  (mkMemory
     (<[1%N := mkNode 1 nullptr]>
        (<[2%N := mkNode 1 (cell 3)]> (<[3%N := mkNode 2 nullptr]> ∅)))
     (<[0%N := mkList (mkNode 0 (cell 1)) 1]>
        (<[1%N := mkList (mkNode 0 (cell 2)) 2]> ∅)) 3).

(** C1.  [operator==] does not compare the lengths.  With [a = {1}] and
    [b = {1, 2}], built by the constructors, [a == b] is [true] and
    [a != b] is [false], though the sequences do not have the same
    elements; the other way round, [b == a] reads past the end of [a]. *)
Theorem operator_eq_ignores_length :
  reachable 0 never memory_a1_b12 ∧
  traverse 0 memory_a1_b12 = Returns [1] memory_a1_b12 ∧
  traverse 1 memory_a1_b12 = Returns [1; 2] memory_a1_b12 ∧
  same_elements Z.eqb [1] [1; 2] = false ∧
  operator_eq Z.eqb 0 1 memory_a1_b12 = Returns true memory_a1_b12 ∧
  operator_ne Z.eqb 0 1 memory_a1_b12 = Returns false memory_a1_b12 ∧
  operator_eq Z.eqb 1 0 memory_a1_b12 = Undefined.
Proof.
  split.
  { exists [(call_initializer_list [1], true); (call_initializer_list [1; 2], true)].
    apply (execution_returns _ _ _ _ memory_a1); [exact I|by vm_compute|].
    apply (execution_returns _ _ _ _ memory_a1_b12); [exact I|by vm_compute|].
    apply execution_done. }
  repeat split; by vm_compute.
Qed.

(** More memories of small programs; the object of the first container
    declared is at address 0, that of the second at address 1. *)
Local Abbreviation start := (mkMemory (T := Z) ∅ ∅ 0).
Local Abbreviation memory_empty :=
  (mkMemory (T := Z) ∅ (<[0%N := mkList (mkNode 0 nullptr) 0]> ∅) 0).
Local Abbreviation memory_13 :=
  (mkMemory (<[1%N := mkNode 1 (cell 2)]> (<[2%N := mkNode 3 nullptr]> ∅))
            (<[0%N := mkList (mkNode 0 (cell 1)) 2]> ∅) 2).
Local Abbreviation memory_123 :=
  (mkMemory
     (<[1%N := mkNode 1 (cell 2)]>
        (<[2%N := mkNode 2 (cell 3)]> (<[3%N := mkNode 3 nullptr]> ∅)))
     (<[0%N := mkList (mkNode 0 (cell 1)) 3]> ∅) 3).
Local Abbreviation memory_123_124 :=
  (mkMemory
     (<[1%N := mkNode 1 (cell 2)]>
        (<[2%N := mkNode 2 (cell 3)]>
           (<[3%N := mkNode 3 nullptr]>
              (<[4%N := mkNode 1 (cell 5)]>
                 (<[5%N := mkNode 2 (cell 6)]> (<[6%N := mkNode 4 nullptr]> ∅))))))
     (<[0%N := mkList (mkNode 0 (cell 1)) 3]>
        (<[1%N := mkList (mkNode 0 (cell 4)) 3]> ∅)) 6).
Local Abbreviation memory_51 :=
  (mkMemory (<[1%N := mkNode 1 nullptr]> (<[2%N := mkNode 5 (cell 1)]> ∅))
            (<[0%N := mkList (mkNode 0 (cell 2)) 2]> ∅) 2).
Local Abbreviation memory_1_again :=
  (mkMemory (<[1%N := mkNode 1 nullptr]> ∅)
            (<[0%N := mkList (mkNode 0 (cell 1)) 1]> ∅) 2).
Local Abbreviation memory_61 :=
  (mkMemory (<[1%N := mkNode 1 nullptr]> (<[2%N := mkNode 6 (cell 1)]> ∅))
            (<[0%N := mkList (mkNode 0 (cell 2)) 2]> ∅) 3).

Lemma Inv_memory_13 : Inv memory_13.
Proof.
  apply (reachable_Inv 0 never). exists [(call_initializer_list [1; 3], true)].
  apply (execution_returns _ _ _ _ memory_13); [exact I|by vm_compute|apply execution_done].
Qed.

Lemma Inv_memory_123 : Inv memory_123.
Proof.
  apply (reachable_Inv 0 never). exists [(call_initializer_list [1; 2; 3], true)].
  apply (execution_returns _ _ _ _ memory_123); [exact I|by vm_compute|apply execution_done].
Qed.

Lemma Inv_memory_empty : Inv memory_empty.
Proof.
  apply (reachable_Inv 0 always). exists [(call_default, true)].
  apply (execution_returns _ _ _ _ memory_empty); [exact I|by vm_compute|apply execution_done].
Qed.

Lemma reachable_memory_a1 : reachable 0 never memory_a1.
Proof.
  exists [(call_initializer_list [1], true)].
  apply (execution_returns _ _ _ _ memory_a1); [exact I|by vm_compute|apply execution_done].
Qed.

Lemma Inv_memory_a1_b12 : Inv memory_a1_b12.
Proof.
  apply (reachable_Inv 0 never).
  exists [(call_initializer_list [1], true); (call_initializer_list [1; 2], true)].
  apply (execution_returns _ _ _ _ memory_a1); [exact I|by vm_compute|].
  apply (execution_returns _ _ _ _ memory_a1_b12); [exact I|by vm_compute|].
  apply execution_done.
Qed.

(** [{1, 3}], then [InsertAfter] at the node of 1 with the value 2. *)
Lemma InsertAfter_splices_witness :
  Inv memory_13 ∧ chain_of memory_13 0 [(1%N, 1); (2%N, 3)] ∧
  position 0 [(1%N, 1); (2%N, 3)] 1 (Iterator (cell 1)) ∧
  ∃ r m', InsertAfter never 0 (Iterator (cell 1)) 2 memory_13 = Returns r m' ∧
    traverse 0 m' = Returns [1; 2; 3] m' ∧ GetSize 0 m' = Returns 3 m'.
Proof.
  assert (Hc : chain_of memory_13 0 [(1%N, 1); (2%N, 3)])
    by (apply nodes_of_sound; by vm_compute).
  assert (Hpos : position 0 [(1%N, 1); (2%N, 3)] 1 (Iterator (cell 1))) by (by vm_compute).
  split; [exact Inv_memory_13|]. split; [exact Hc|]. split; [exact Hpos|].
  pose proof (InsertAfter_splices never _ _ _ _ _ 2 Inv_memory_13 Hc Hpos) as H.
  destruct (InsertAfter never 0 (Iterator (cell 1)) 2 memory_13) as [r m'|m'| |].
  - destruct H as (a & _ & _ & _ & Htr & _ & Hsz & _). exists r, m'.
    split; [reflexivity|]. split; [exact Htr|exact Hsz].
  - vm_compute in H. discriminate H.
  - destruct H.
  - destruct H.
Defined.

(** [{1, 2, 3}], then [EraseAfter(before_begin())]. *)
Lemma EraseAfter_unlinks_witness :
  Inv memory_123 ∧ chain_of memory_123 0 [(1%N, 1); (2%N, 2); (3%N, 3)] ∧
  position 0 [(1%N, 1); (2%N, 2); (3%N, 3)] 0 (before_begin 0) ∧
  [(1%N, 1); (2%N, 2); (3%N, 3)] !! 0%nat = Some (1%N, 1) ∧
  ∃ m', EraseAfter 0 (before_begin 0) memory_123 = Returns (Iterator (cell 2)) m' ∧
    traverse 0 m' = Returns [2; 3] m' ∧ GetSize 0 m' = Returns 2 m'.
Proof.
  assert (Hc : chain_of memory_123 0 [(1%N, 1); (2%N, 2); (3%N, 3)])
    by (apply nodes_of_sound; by vm_compute).
  assert (Hpos : position 0 [(1%N, 1); (2%N, 2); (3%N, 3)] 0 (before_begin 0))
    by reflexivity.
  split; [exact Inv_memory_123|]. split; [exact Hc|]. split; [exact Hpos|].
  split; [reflexivity|].
  destruct (EraseAfter_unlinks _ _ _ _ _ 1%N 1 Inv_memory_123 Hc Hpos eq_refl)
    as (r & m' & Hrun & -> & _ & _ & Htr & _ & Hsz & _).
  exists m'. split; [exact Hrun|]. split; [exact Htr|exact Hsz].
Defined.

(** An empty container and an allocator that always throws. *)
Lemma InsertAfter_throw_atomic_witness :
  Inv memory_empty ∧ chain_of memory_empty 0 [] ∧
  position (T := Z) 0 [] 0 (before_begin 0) ∧
  ∃ m', InsertAfter always 0 (before_begin 0) 5 memory_empty = Throws m' ∧
    heap m' = heap memory_empty ∧ objs m' = objs memory_empty ∧
    traverse 0 m' = Returns [] m'.
Proof.
  assert (Hc : chain_of memory_empty 0 []) by (apply nodes_of_sound; by vm_compute).
  assert (Hpos : position (T := Z) 0 [] 0 (before_begin 0)) by reflexivity.
  split; [exact Inv_memory_empty|]. split; [exact Hc|]. split; [exact Hpos|].
  destruct (InsertAfter_throw_atomic always _ _ _ _ _ 5 Inv_memory_empty Hc Hpos)
    as (m' & Hrun & Hheap & Hobjs & _ & Htr & _).
  exists m'. split; [exact Hrun|]. split; [exact Hheap|]. split; [exact Hobjs|exact Htr].
Defined.





(** [a = {1}], then [a.PushFront(5); a.PopFront(); a.PushFront(6);]. *)
Lemma count_is_chain_length_witness :
  reachable 0 never memory_a1 ∧
  objs memory_a1 !! 0%N = Some (mkList (mkNode 0 (cell 1)) 1) ∧
  execution 0 never memory_a1
    [(call_PushFront 0 5, true); (call_PopFront 0, true); (call_PushFront 0 6, true)]
    memory_61 ∧
  GetSize 0 memory_61 = Returns 2 memory_61.
Proof.
  assert (Ho : objs memory_a1 !! 0%N = Some (mkList (mkNode 0 (cell 1)) 1)) by (by vm_compute).
  assert (Hex : execution 0 never memory_a1
            [(call_PushFront 0 5, true); (call_PopFront 0, true); (call_PushFront 0 6, true)]
            memory_61).
  { apply (execution_returns _ _ _ _ memory_51).
    { exists (mkList (mkNode 0 (cell 1)) 1). by vm_compute. }
    { by vm_compute. }
    apply (execution_returns _ _ _ _ memory_1_again).
    { exists [(2%N, 5); (1%N, 1)]. split; [apply nodes_of_sound; by vm_compute|simpl; lia]. }
    { by vm_compute. }
    apply (execution_returns _ _ _ _ memory_61).
    { exists (mkList (mkNode 0 (cell 1)) 1). by vm_compute. }
    { by vm_compute. }
    apply execution_done. }
  split; [exact reachable_memory_a1|]. split; [exact Ho|]. split; [exact Hex|].
  destruct (count_is_chain_length 0 never _ _ _ _ _ reachable_memory_a1 Ho Hex eq_refl)
    as (_ & H & _).
  exact H.
Defined.

(** [a = {1, 2, 3}] and [b = {1, 2, 4}]. *)
Lemma ordering_is_lexicographical_witness :
  chain_of memory_123_124 0 [(1%N, 1); (2%N, 2); (3%N, 3)] ∧
  chain_of memory_123_124 1 [(4%N, 1); (5%N, 2); (6%N, 4)] ∧
  operator_lt Z.ltb 0 1 memory_123_124 = Returns true memory_123_124 ∧
  operator_le Z.ltb 0 1 memory_123_124 = Returns true memory_123_124 ∧
  operator_gt Z.ltb 0 1 memory_123_124 = Returns false memory_123_124 ∧
  operator_ge Z.ltb 0 1 memory_123_124 = Returns false memory_123_124 ∧
  operator_eq Z.eqb 0 1 memory_123_124 = Returns false memory_123_124 ∧
  operator_ne Z.eqb 0 1 memory_123_124 = Returns true memory_123_124.
Proof.
  assert (Ha : chain_of memory_123_124 0 [(1%N, 1); (2%N, 2); (3%N, 3)])
    by (apply nodes_of_sound; by vm_compute).
  assert (Hb : chain_of memory_123_124 1 [(4%N, 1); (5%N, 2); (6%N, 4)])
    by (apply nodes_of_sound; by vm_compute).
  split; [exact Ha|]. split; [exact Hb|].
  destruct (ordering_is_lexicographical Z.eqb Z.ltb _ _ _ _ _ Ha Hb)
    as (Hlt & Hle & Hgt & Hge & _ & Hlast).
  destruct (Hlast [1; 2] 3 4 Z.ltb_irrefl Z.eqb_refl eq_refl eq_refl)
    as (Heq & Hne & _ & _).
  split; [exact Hlt|]. split; [exact Hle|]. split; [exact Hgt|]. split; [exact Hge|].
  split; [exact Heq|exact Hne].
Defined.

(** ** The further properties at work *)

(** [new] throws from its third evaluation on. *)
Local Abbreviation third_fails := (λ (k : nat) (_ : Z), (2 <=? k)%nat).

Local Abbreviation memory_a1_later :=
  (mkMemory (<[1%N := mkNode 1 nullptr]> ∅)
            (<[0%N := mkList (mkNode 0 (cell 1)) 1]> ∅) 3).

Lemma reachable_memory_a1_b12 : reachable 0 never memory_a1_b12.
Proof.
  exists [(call_initializer_list [1], true); (call_initializer_list [1; 2], true)].
  apply (execution_returns _ _ _ _ memory_a1); [exact I|by vm_compute|].
  apply (execution_returns _ _ _ _ memory_a1_b12); [exact I|by vm_compute|].
  apply execution_done.
Qed.

Lemma reachable_memory_13 : reachable 0 never memory_13.
Proof.
  exists [(call_initializer_list [1; 3], true)].
  apply (execution_returns _ _ _ _ memory_13); [exact I|by vm_compute|apply execution_done].
Qed.

Lemma reachable_memory_a1_third_fails : reachable 0 third_fails memory_a1.
Proof.
  exists [(call_initializer_list [1], true)].
  apply (execution_returns _ _ _ _ memory_a1); [exact I|by vm_compute|apply execution_done].
Qed.

Lemma chain_memory_123 : chain_of memory_123 0 [(1%N, 1); (2%N, 2); (3%N, 3)].
Proof. apply nodes_of_sound. by vm_compute. Qed.

Lemma chain_memory_13 : chain_of memory_13 0 [(1%N, 1); (2%N, 3)].
Proof. apply nodes_of_sound. by vm_compute. Qed.

Lemma chain_memory_a1_b12_a : chain_of memory_a1_b12 0 [(1%N, 1)].
Proof. apply nodes_of_sound. by vm_compute. Qed.

Lemma chain_memory_a1_b12_b : chain_of memory_a1_b12 1 [(2%N, 1); (3%N, 2)].
Proof. apply nodes_of_sound. by vm_compute. Qed.

Lemma chain_memory_a1 : chain_of memory_a1 0 [(1%N, 1)].
Proof. apply nodes_of_sound. by vm_compute. Qed.

(** [a = {1}], [b = {1, 2}]: the node at address 3 is the second of [b]. *)
Lemma every_node_is_owned_witness :
  reachable 0 never memory_a1_b12 ∧ is_Some (heap memory_a1_b12 !! 3%N) ∧
  ∃ this l i v, chain_of memory_a1_b12 this l ∧ l !! i = Some (3%N, v).
Proof.
  assert (Hb : is_Some (heap memory_a1_b12 !! 3%N)) by (eexists; vm_compute; reflexivity).
  split; [exact reachable_memory_a1_b12|]. split; [exact Hb|].
  destruct (every_node_is_owned 0 never _ _ reachable_memory_a1_b12 Hb)
    as (this & l & i & v & Hc & Hi & _).
  exists this, l, i, v. split; [exact Hc|exact Hi].
Defined.

(** [a = {1}], then [SingleLinkedList<int> c{7, 8};] whose second node
    cannot be allocated. *)
Lemma a_call_that_throws_changes_nothing_witness :
  reachable 0 third_fails memory_a1 ∧
  callable memory_a1 (call_initializer_list [7; 8]) ∧
  run 0 third_fails (call_initializer_list [7; 8]) memory_a1 = Throws memory_a1_later ∧
  heap memory_a1_later = heap memory_a1 ∧
  nodes_of memory_a1_later 0 = nodes_of memory_a1 0.
Proof.
  assert (Hrun : run 0 third_fails (call_initializer_list [7; 8]) memory_a1
                 = Throws memory_a1_later) by (by vm_compute).
  split; [exact reachable_memory_a1_third_fails|]. split; [exact I|]. split; [exact Hrun|].
  destruct (a_call_that_throws_changes_nothing 0 third_fails memory_a1
              (call_initializer_list [7; 8]) _
              reachable_memory_a1_third_fails I Hrun) as (_ & Hheap & _ & Hnodes & _).
  split; [exact Hheap|exact (Hnodes 0%N)].
Defined.

(** [a = {1}], [b = {1, 2}], then [a.swap(b)]. *)
Lemma noexcept_calls_return_witness :
  reachable 0 never memory_a1_b12 ∧ callable memory_a1_b12 (call_swap 0 1) ∧
  allocates (T := Z) (call_swap 0 1) = false ∧
  ∃ m', run 0 never (call_swap 0 1) memory_a1_b12 = Returns tt m'.
Proof.
  assert (Hcall : callable memory_a1_b12 (call_swap 0 1))
    by (split; eexists; vm_compute; reflexivity).
  split; [exact reachable_memory_a1_b12|]. split; [exact Hcall|]. split; [reflexivity|].
  destruct (noexcept_calls_return 0 never _ _ reachable_memory_a1_b12 Hcall eq_refl)
    as (m' & Hrun & _).
  exists m'. exact Hrun.
Defined.

(** [{1, 2, 3}], then [Clear()]. *)
Lemma Clear_empties_witness :
  Inv memory_123 ∧ chain_of memory_123 0 [(1%N, 1); (2%N, 2); (3%N, 3)] ∧
  ∃ m', Clear 0 memory_123 = Returns tt m' ∧ GetSize 0 m' = Returns 0 m' ∧
    IsEmpty 0 m' = Returns true m' ∧ heap m' !! 2%N = None.
Proof.
  split; [exact Inv_memory_123|]. split; [exact chain_memory_123|].
  destruct (Clear_empties _ _ _ Inv_memory_123 chain_memory_123)
    as (m' & Hrun & _ & Hsz & Hemp & _ & _ & Hfree & _).
  exists m'. split; [exact Hrun|]. split; [exact Hsz|]. split; [exact Hemp|].
  apply Hfree. simpl. apply list_elem_of_further, list_elem_of_here.
Defined.

(** [{1, 2, 3}] at the end of its scope. *)
Lemma destructor_releases_witness :
  Inv memory_123 ∧ chain_of memory_123 0 [(1%N, 1); (2%N, 2); (3%N, 3)] ∧
  ∃ m', destroy 0 memory_123 = Returns tt m' ∧ objs m' !! 0%N = None ∧
    heap m' !! 1%N = None.
Proof.
  split; [exact Inv_memory_123|]. split; [exact chain_memory_123|].
  destruct (destructor_releases _ _ _ Inv_memory_123 chain_memory_123)
    as (m' & Hrun & Hgone & Hfree & _).
  exists m'. split; [exact Hrun|]. split; [exact Hgone|]. apply Hfree. simpl.
  apply list_elem_of_here.
Defined.

(** [a = {1}], [b = {1, 2}], then [a.swap(b)]. *)
Lemma swap_exchanges_witness :
  Inv memory_a1_b12 ∧ chain_of memory_a1_b12 0 [(1%N, 1)] ∧
  chain_of memory_a1_b12 1 [(2%N, 1); (3%N, 2)] ∧
  ∃ m', swap 0 1 memory_a1_b12 = Returns tt m' ∧
    chain_of m' 0 [(2%N, 1); (3%N, 2)] ∧ chain_of m' 1 [(1%N, 1)] ∧
    heap m' = heap memory_a1_b12.
Proof.
  split; [exact Inv_memory_a1_b12|]. split; [exact chain_memory_a1_b12_a|].
  split; [exact chain_memory_a1_b12_b|].
  destruct (swap_exchanges _ _ _ _ _ Inv_memory_a1_b12 chain_memory_a1_b12_a
              chain_memory_a1_b12_b) as (m' & Hrun & _ & Ha & Hb & _ & _ & Hheap & _).
  exists m'. split; [exact Hrun|]. split; [exact Ha|]. split; [exact Hb|exact Hheap].
Defined.

(** [a = {1}], then [SingleLinkedList<int> b;]. *)
Lemma default_constructor_makes_empty_witness :
  Inv memory_a1 ∧
  ∃ this m', construct 0 default_constructor memory_a1 = Returns this m' ∧
    GetSize this m' = Returns 0 m' ∧ heap m' = heap memory_a1.
Proof.
  assert (HI : Inv memory_a1) by exact (reachable_Inv 0 never _ reachable_memory_a1).
  split; [exact HI|].
  destruct (default_constructor_makes_empty 0 _ HI)
    as (this & m' & Hrun & _ & _ & Hsz & _ & _ & Hheap & _).
  exists this, m'. split; [exact Hrun|]. split; [exact Hsz|exact Hheap].
Defined.

(** [{1, 2, 3}]: two increments of [before_begin()] arrive at the node of
    2, a third at the node of 3, whose value is 3. *)
Lemma increments_walk_the_chain_witness :
  chain_of memory_123 0 [(1%N, 1); (2%N, 2); (3%N, 3)] ∧
  position 0 [(1%N, 1); (2%N, 2); (3%N, 3)] 2 (Iterator (cell 2)) ∧
  advance (before_begin 0) 2 memory_123 = Returns (Iterator (cell 2)) memory_123 ∧
  operator_incr (Iterator (cell 2)) memory_123 = Returns (Iterator (cell 3)) memory_123 ∧
  operator_deref (Iterator (cell 3)) memory_123 = Returns 3 memory_123.
Proof.
  assert (Hpos : position 0 [(1%N, 1); (2%N, 2); (3%N, 3)] 2 (Iterator (cell 2)))
    by reflexivity.
  split; [exact chain_memory_123|]. split; [exact Hpos|].
  destruct (increments_walk_the_chain _ _ _ _ _ chain_memory_123 Hpos)
    as (Hadv & Hincr & _ & Hnext & _).
  split; [exact Hadv|]. split; [exact Hincr|].
  exact (proj2 (proj2 (Hnext 3%N 3 eq_refl))).
Defined.

(** An empty container. *)
Lemma empty_by_every_measure_witness :
  Inv memory_empty ∧ chain_of memory_empty 0 [] ∧
  IsEmpty 0 memory_empty = Returns true memory_empty ∧
  begin 0 memory_empty = Returns end_ memory_empty ∧
  GetSize 0 memory_empty = Returns 0 memory_empty.
Proof.
  assert (Hc : chain_of memory_empty 0 []) by (apply nodes_of_sound; by vm_compute).
  split; [exact Inv_memory_empty|]. split; [exact Hc|].
  destruct (empty_by_every_measure _ _ _ Inv_memory_empty Hc)
    as (b & it & Hemp & Hbegin & Hb & Hsz & _ & Hnil & _).
  assert (b = true) as -> by (apply Hnil; reflexivity).
  assert (it = end_) as ->.
  { destruct it as [[| |]]; [reflexivity|discriminate Hb|discriminate Hb]. }
  split; [exact Hemp|]. split; [exact Hbegin|]. apply Hsz. reflexivity.
Defined.

(** [{1, 2, 3}], then [EraseAfter] at the node of 3, the last one. *)
Lemma nothing_to_erase_is_undefined_witness :
  chain_of memory_123 0 [(1%N, 1); (2%N, 2); (3%N, 3)] ∧
  position 0 [(1%N, 1); (2%N, 2); (3%N, 3)] 3 (Iterator (cell 3)) ∧
  EraseAfter 0 (Iterator (cell 3)) memory_123 = Undefined.
Proof.
  assert (Hpos : position 0 [(1%N, 1); (2%N, 2); (3%N, 3)] 3 (Iterator (cell 3)))
    by reflexivity.
  split; [exact chain_memory_123|]. split; [exact Hpos|].
  exact (proj1 (nothing_to_erase_is_undefined _ _ _ _ chain_memory_123 Hpos)).
Defined.

(** [{1, 3}], then [InsertAfter] at the node of 1 with the value 2. *)
Lemma InsertAfter_keeps_handles_witness :
  Inv memory_13 ∧ chain_of memory_13 0 [(1%N, 1); (2%N, 3)] ∧
  position 0 [(1%N, 1); (2%N, 3)] 1 (Iterator (cell 1)) ∧
  ∃ r m', InsertAfter never 0 (Iterator (cell 1)) 2 memory_13 = Returns r m' ∧
    operator_deref r m' = Returns 2 m' ∧
    operator_incr (Iterator (cell 1)) m' = Returns r m' ∧
    operator_deref (Iterator (cell 2)) m' = Returns 3 m'.
Proof.
  assert (Hpos : position 0 [(1%N, 1); (2%N, 3)] 1 (Iterator (cell 1))) by reflexivity.
  split; [exact Inv_memory_13|]. split; [exact chain_memory_13|]. split; [exact Hpos|].
  destruct (InsertAfter never 0 (Iterator (cell 1)) 2 memory_13) as [r m'|m'| |] eqn:E.
  - destruct (InsertAfter_keeps_handles never _ _ _ _ _ _ _ _ Inv_memory_13 chain_memory_13
                Hpos E) as (a & l' & _ & _ & _ & _ & _ & Hderef & Hincr & _ & _ & _ & Hold).
    exists r, m'. split; [reflexivity|]. split; [exact Hderef|]. split; [exact Hincr|].
    exact (Hold 1%nat 2%N 3 eq_refl).
  - vm_compute in E. discriminate E.
  - vm_compute in E. discriminate E.
  - vm_compute in E. discriminate E.
Defined.

(** [{1, 3}], [InsertAfter] at the node of 1, then [EraseAfter] there. *)
Lemma EraseAfter_undoes_InsertAfter_witness :
  reachable 0 never memory_13 ∧ chain_of memory_13 0 [(1%N, 1); (2%N, 3)] ∧
  position 0 [(1%N, 1); (2%N, 3)] 1 (Iterator (cell 1)) ∧
  ∃ r m1, InsertAfter never 0 (Iterator (cell 1)) 2 memory_13 = Returns r m1 ∧
    ∃ m2, EraseAfter 0 (Iterator (cell 1)) m1 = Returns (Iterator (cell 2)) m2 ∧
      heap m2 = heap memory_13.
Proof.
  assert (Hpos : position 0 [(1%N, 1); (2%N, 3)] 1 (Iterator (cell 1))) by reflexivity.
  split; [exact reachable_memory_13|]. split; [exact chain_memory_13|]. split; [exact Hpos|].
  destruct (InsertAfter never 0 (Iterator (cell 1)) 2 memory_13) as [r m1|m1| |] eqn:E.
  - destruct (EraseAfter_undoes_InsertAfter 0 never _ _ _ _ _ _ _ _ reachable_memory_13
                chain_memory_13 Hpos E) as (next & m2 & Hnext & Hrun & Hheap & _).
    assert (next = Iterator (cell 2)) as -> by (vm_compute in Hnext; congruence).
    exists r, m1. split; [reflexivity|]. exists m2. split; [exact Hrun|exact Hheap].
  - vm_compute in E. discriminate E.
  - vm_compute in E. discriminate E.
  - vm_compute in E. discriminate E.
Defined.

(** [a = {1}], then [a.PushFront(5); a.PopFront();]. *)
Lemma PopFront_undoes_PushFront_witness :
  reachable 0 never memory_a1 ∧ is_Some (objs memory_a1 !! 0%N) ∧
  PushFront never 0 5 memory_a1 = Returns tt memory_51 ∧
  ∃ m2, PopFront 0 memory_51 = Returns tt m2 ∧ heap m2 = heap memory_a1.
Proof.
  assert (Hlive : is_Some (objs memory_a1 !! 0%N)) by (eexists; vm_compute; reflexivity).
  assert (Hrun : PushFront never 0 5 memory_a1 = Returns tt memory_51) by (by vm_compute).
  split; [exact reachable_memory_a1|]. split; [exact Hlive|]. split; [exact Hrun|].
  destruct (PopFront_undoes_PushFront 0 never _ _ _ _ reachable_memory_a1 Hlive Hrun)
    as (m2 & Hpop & Hheap & _).
  exists m2. split; [exact Hpop|exact Hheap].
Defined.

(** [{1, 3}], then 7 and 8 inserted in turn, starting at the node of 1. *)
Lemma InsertAfter_each_inserts_in_order_witness :
  Inv memory_13 ∧ chain_of memory_13 0 [(1%N, 1); (2%N, 3)] ∧
  position 0 [(1%N, 1); (2%N, 3)] 1 (Iterator (cell 1)) ∧
  ∃ r m', InsertAfter_each never 0 (Iterator (cell 1)) [7; 8] memory_13 = Returns r m' ∧
    traverse 0 m' = Returns [1; 7; 8; 3] m' ∧ GetSize 0 m' = Returns 4 m'.
Proof.
  assert (Hpos : position 0 [(1%N, 1); (2%N, 3)] 1 (Iterator (cell 1))) by reflexivity.
  split; [exact Inv_memory_13|]. split; [exact chain_memory_13|]. split; [exact Hpos|].
  pose proof (InsertAfter_each_inserts_in_order never _ _ _ _ _ [7; 8] Inv_memory_13
                chain_memory_13 Hpos) as H.
  destruct (InsertAfter_each never 0 (Iterator (cell 1)) [7; 8] memory_13)
    as [r m'|m'| |] eqn:E.
  - destruct H as (new & Hnew & Hc & _ & Hsz & _).
    exists r, m'. split; [reflexivity|]. split; [|exact Hsz].
    rewrite (traverse_spec _ _ _ Hc). simpl. rewrite !fmap_app, Hnew. reflexivity.
  - vm_compute in E. discriminate E.
  - destruct H.
  - destruct H.
Defined.

(** [{1, 2, 3}], then [EraseAfter] at the node of 1: the node of 2 goes. *)
Lemma EraseAfter_invalidates_one_handle_witness :
  Inv memory_123 ∧ chain_of memory_123 0 [(1%N, 1); (2%N, 2); (3%N, 3)] ∧
  position 0 [(1%N, 1); (2%N, 2); (3%N, 3)] 1 (Iterator (cell 1)) ∧
  [(1%N, 1); (2%N, 2); (3%N, 3)] !! 1%nat = Some (2%N, 2) ∧
  ∃ m', EraseAfter 0 (Iterator (cell 1)) memory_123 = Returns (Iterator (cell 3)) m' ∧
    operator_deref (Iterator (cell 2)) m' = Undefined ∧
    operator_deref (Iterator (cell 3)) m' = Returns 3 m'.
Proof.
  assert (Hpos : position 0 [(1%N, 1); (2%N, 2); (3%N, 3)] 1 (Iterator (cell 1)))
    by reflexivity.
  split; [exact Inv_memory_123|]. split; [exact chain_memory_123|]. split; [exact Hpos|].
  split; [reflexivity|].
  destruct (EraseAfter_invalidates_one_handle _ _ _ _ _ 2%N 2 Inv_memory_123 chain_memory_123
              Hpos eq_refl) as (next & m' & Hrun & _ & Hnext & _ & Hgone & _ & _ & Hold).
  assert (next = Iterator (cell 3)) as -> by (vm_compute in Hnext; congruence).
  exists m'. split; [exact Hrun|]. split; [exact Hgone|].
  apply (Hold 2%nat 3%N 3 eq_refl). lia.
Defined.

(** [a = {1}], then [SingleLinkedList<int> b(a);]. *)
Lemma a_copy_compares_equal_witness :
  (∀ z, Z.eqb z z = true) ∧ (∀ z, Z.ltb z z = false) ∧
  Inv memory_a1 ∧ chain_of memory_a1 0 [(1%N, 1)] ∧
  ∃ m', construct 0 (copy_constructor 0 never 0) memory_a1 = Returns 1%N m' ∧
    operator_eq Z.eqb 1 0 m' = Returns true m' ∧
    operator_lt Z.ltb 1 0 m' = Returns false m'.
Proof.
  assert (HI : Inv memory_a1) by exact (reachable_Inv 0 never _ reachable_memory_a1).
  split; [exact Z.eqb_refl|]. split; [exact Z.ltb_irrefl|].
  split; [exact HI|]. split; [exact chain_memory_a1|].
  destruct (construct 0 (copy_constructor 0 never 0) memory_a1) as [this m'|m'| |] eqn:E.
  - assert (this = 1%N) as -> by (vm_compute in E; congruence).
    destruct (a_copy_compares_equal 0 Z.eqb Z.ltb never _ _ _ _ _ Z.eqb_refl Z.ltb_irrefl
                HI chain_memory_a1 E) as (Heq & _ & _ & Hlt & _).
    exists m'. split; [reflexivity|]. split; [exact Heq|exact Hlt].
  - vm_compute in E. discriminate E.
  - vm_compute in E. discriminate E.
  - vm_compute in E. discriminate E.
Defined.

(** [a = {1}], [b = {1, 2}], then [a = b]. *)
Lemma assigned_compares_equal_witness :
  (∀ z, Z.eqb z z = true) ∧ (∀ z, Z.ltb z z = false) ∧
  Inv memory_a1_b12 ∧ chain_of memory_a1_b12 0 [(1%N, 1)] ∧
  chain_of memory_a1_b12 1 [(2%N, 1); (3%N, 2)] ∧
  ∃ m', operator_assign 0 never 0 1 memory_a1_b12 = Returns tt m' ∧
    operator_eq Z.eqb 0 1 m' = Returns true m' ∧
    operator_eq Z.eqb 1 0 m' = Returns true m'.
Proof.
  split; [exact Z.eqb_refl|]. split; [exact Z.ltb_irrefl|].
  split; [exact Inv_memory_a1_b12|]. split; [exact chain_memory_a1_b12_a|].
  split; [exact chain_memory_a1_b12_b|].
  destruct (operator_assign 0 never 0 1 memory_a1_b12) as [[] m'|m'| |] eqn:E.
  - destruct (assigned_compares_equal 0 Z.eqb Z.ltb never _ _ _ _ _ _ Z.eqb_refl Z.ltb_irrefl
                Inv_memory_a1_b12 chain_memory_a1_b12_a chain_memory_a1_b12_b E)
      as (H1 & H2 & _).
    exists m'. split; [reflexivity|]. split; [exact H1|exact H2].
  - vm_compute in E. discriminate E.
  - vm_compute in E. discriminate E.
  - vm_compute in E. discriminate E.
Defined.

(** [a = {1}] and [b = {1, 2}]: [a == b] compares [a] with the first
    element of [b]. *)
Lemma operator_eq_walks_the_left_side_witness :
  chain_of memory_a1_b12 0 [(1%N, 1)] ∧ chain_of memory_a1_b12 1 [(2%N, 1); (3%N, 2)] ∧
  operator_eq Z.eqb 0 1 memory_a1_b12 = Returns true memory_a1_b12.
Proof.
  split; [exact chain_memory_a1_b12_a|]. split; [exact chain_memory_a1_b12_b|].
  destruct (operator_eq_walks_the_left_side Z.eqb _ _ _ _ _ chain_memory_a1_b12_a
              chain_memory_a1_b12_b) as (Hle & _).
  apply Hle. simpl. lia.
Defined.

(** [a = {1}] and [b = {1, 2}]: [a < b], so not [b < a]. *)
Lemma operator_lt_is_strict_witness :
  (∀ x y, Z.ltb x y = true → Z.ltb y x = false) ∧
  (∀ x y z, Z.ltb x y = true → Z.ltb x z = true ∨ Z.ltb z y = true) ∧
  chain_of memory_a1_b12 0 [(1%N, 1)] ∧ chain_of memory_a1_b12 1 [(2%N, 1); (3%N, 2)] ∧
  operator_lt Z.ltb 0 0 memory_a1_b12 = Returns false memory_a1_b12 ∧
  operator_lt Z.ltb 1 0 memory_a1_b12 = Returns false memory_a1_b12.
Proof.
  assert (Hasym : ∀ x y, Z.ltb x y = true → Z.ltb y x = false).
  { intros x y H. apply Z.ltb_lt in H. apply Z.ltb_ge. lia. }
  assert (Hneg : ∀ x y z, Z.ltb x y = true → Z.ltb x z = true ∨ Z.ltb z y = true).
  { intros x y z H. apply Z.ltb_lt in H. rewrite !Z.ltb_lt. lia. }
  split; [exact Hasym|]. split; [exact Hneg|]. split; [exact chain_memory_a1_b12_a|].
  split; [exact chain_memory_a1_b12_b|].
  destruct (operator_lt_is_strict Z.ltb _ 0%N 1%N 1%N _ _ _ Hasym Hneg chain_memory_a1_b12_a
              chain_memory_a1_b12_b chain_memory_a1_b12_b) as (Hirr & Hone & _).
  split; [exact Hirr|]. apply Hone. by vm_compute.
Defined.

(** [a = {1}], [b = {1, 2}]: [*b.before_begin()] is 0. *)
Lemma before_begin_dereferences_to_default_witness :
  reachable 0 never memory_a1_b12 ∧ is_Some (objs memory_a1_b12 !! 1%N) ∧
  operator_deref (before_begin 1) memory_a1_b12 = Returns 0 memory_a1_b12.
Proof.
  assert (Hlive : is_Some (objs memory_a1_b12 !! 1%N))
    by (eexists; vm_compute; reflexivity).
  split; [exact reachable_memory_a1_b12|]. split; [exact Hlive|].
  exact (proj1 (before_begin_dereferences_to_default 0 never _ _
                  reachable_memory_a1_b12 Hlive)).
Defined.

(** [{1, 2, 3}]: the handles to the nodes of 1 and of 2. *)
Lemma handles_compare_by_place_witness :
  Inv memory_123 ∧ chain_of memory_123 0 [(1%N, 1); (2%N, 2); (3%N, 3)] ∧
  position 0 [(1%N, 1); (2%N, 2); (3%N, 3)] 1 (Iterator (cell 1)) ∧
  position 0 [(1%N, 1); (2%N, 2); (3%N, 3)] 2 (Iterator (cell 2)) ∧
  iterator_eq (Iterator (cell 1)) (Iterator (cell 2)) = false ∧
  iterator_eq (Iterator (cell 1)) end_ = false.
Proof.
  assert (Hp : position 0 [(1%N, 1); (2%N, 2); (3%N, 3)] 1 (Iterator (cell 1)))
    by reflexivity.
  assert (Hq : position 0 [(1%N, 1); (2%N, 2); (3%N, 3)] 2 (Iterator (cell 2)))
    by reflexivity.
  split; [exact Inv_memory_123|]. split; [exact chain_memory_123|].
  split; [exact Hp|]. split; [exact Hq|].
  destruct (handles_compare_by_place _ _ _ _ _ _ _ Inv_memory_123 chain_memory_123 Hp Hq)
    as (Heq & _ & Hend & _).
  split; [exact Heq|exact Hend].
Defined.

End Integers.
